(** * netjs: the network data model of [js/netdata.js]

    A shallow embedding of the functions that build, threshold, cluster
    and extract networks, and of the demo's per-node percentile
    threshold function, with the properties of the specification
    proved (or refuted) on them.

    JavaScript numbers are IEEE 754 binary64 values: they are embedded
    as Rocq's primitive floats, which have the same NaN, the same
    comparisons and the same rounding.  Array positions and the integer
    ids of a linkage table are embedded as [nat] and [Z]. *)

From Stdlib Require Import Floats ZArith Lia ZifyBool Ascii String.
From stdpp Require Import base option list sorting strings pretty.

Open Scope Z_scope.
Open Scope nat_scope.

(** ** Outcomes

    A function of the source either returns or throws.  The source
    throws strings ([throw "Matrix index out of range."]); dereferencing
    [undefined] raises the runtime's [TypeError].  [OutOfFuel] and
    [Unsupported] are the embedding's own: a loop that was given too
    little fuel, and a coercion the embedding does not compute. *)

Inductive error : Type :=
  | Thrown (msg : string)
  | TypeError
  | OutOfFuel
  | Unsupported.

Inductive result (A : Type) : Type :=
  | Ok (a : A)
  | Err (e : error).
Arguments Ok {A} a.
Arguments Err {A} e.

#[global] Instance result_ret : MRet result := fun _ a => Ok a.
#[global] Instance result_bind : MBind result := fun _ _ f m =>
  match m with
  | Ok a => f a
  | Err e => Err e
  end.

#[global] Instance result_fmap : FMap result := fun _ _ f m =>
  match m with
  | Ok a => Ok (f a)
  | Err e => Err e
  end.

Definition is_Ok {A} (r : result A) : bool :=
  match r with Ok _ => true | Err _ => false end.

(** The value of a property read that must not be
    [undefined], because the source dereferences it right away. *)
Definition deref {A} (o : option A) : result A :=
  match o with
  | Some a => Ok a
  | None => Err TypeError
  end.

(** A loop body run over the elements of a list, threading the state
    and stopping at the first failure. *)
Fixpoint foldM {S B : Type} (f : S → B → result S) (l : list B) (s : S)
  : result S :=
  match l with
  | [] => Ok s
  | b :: l' => s' ← f s b; foldM f l' s'
  end.

(** ** Values *)

Module JS.

(** The content of an array cell that is read as a number: a number,
    or [undefined] ([None]) when the cell does not exist. *)
Abbreviation val := (option float).

(** A value a caller passes as a threshold argument or as a label. *)
Inductive jsval : Type :=
  | JUndef
  | JNum (x : float)
  | JStr (s : string).

Definition NaN : float := PrimFloat.nan.
Definition MAX_VALUE : float := 0x1.fffffffffffffp1023%float.

(** [ToNumber] on a cell: [undefined] becomes NaN. *)
Definition num (v : val) : float :=
  match v with
  | Some x => x
  | None => NaN
  end.

Definition Math_abs (v : val) : float := PrimFloat.abs (num v).
Definition isNaN (v : val) : bool := PrimFloat.is_nan (num v).

(** [a < b] and [a > b] on numbers-or-undefined: false as soon as one
    side is NaN or [undefined]. *)
Definition lessThan (a b : val) : bool := PrimFloat.ltb (num a) (num b).
Definition greaterThan (a b : val) : bool :=
  PrimFloat.ltb (num b) (num a).

(** [a === b]: NaN differs from itself, [undefined] equals itself,
    and [+0 === -0]. *)
Definition strict_eq (a b : val) : bool :=
  match a, b with
  | Some x, Some y => PrimFloat.eqb x y
  | None, None => true
  | _, _ => false
  end.

(** [array.indexOf(x)], [None] standing for [-1]. *)
Fixpoint indexOf_from {A} (eqb : A → A → bool) (x : A) (l : list A)
    (i : nat) : option nat :=
  match l with
  | [] => None
  | y :: l' => if eqb y x then Some i else indexOf_from eqb x l' (S i)
  end.
Definition indexOf {A} (eqb : A → A → bool) (l : list A) (x : A)
  : option nat := indexOf_from eqb x l 0.

(** [array.splice(idx, 1)] where [idx] is the result of an [indexOf]:
    [-1] counts from the end, so it removes the last element. *)
Definition splice1 {A} (l : list A) (idx : option nat) : list A :=
  match idx with
  | Some i => delete i l
  | None => delete (length l - 1)%nat l
  end.

(** Characters that occur in some numeric literal of the language
    (decimal, exponent, hexadecimal, octal, binary, [Infinity]). *)
Definition numeric_char (c : ascii) : bool :=
  let n := nat_of_ascii c in
  ((48 <=? n) && (n <=? 57))            (* 0-9 *)
  || ((65 <=? n) && (n <=? 70))         (* A-F *)
  || ((97 <=? n) && (n <=? 102))        (* a-f *)
  || (n =? 43) || (n =? 45) || (n =? 46) (* + - . *)
  || (n =? 73) || (n =? 110) || (n =? 105) || (n =? 116) || (n =? 121)
                                        (* I n i t y *)
  || (n =? 120) || (n =? 88) || (n =? 111) || (n =? 79).  (* x X o O *)

Definition white_char (c : ascii) : bool :=
  let n := nat_of_ascii c in
  (n =? 32) || ((9 <=? n) && (n <=? 13)).

(** The conversion of a string to a number, as far as the embedding
    goes: a blank string is [0], a string with a character that no
    numeric literal contains is NaN; the parse of a numeric-looking
    string is not computed here. *)
Definition StringToNumber (s : string) : result float :=
  let cs := String.list_ascii_of_string s in
  if forallb white_char cs then Ok 0%float
  else if forallb (fun c => numeric_char c || white_char c) cs
       then Err Unsupported
       else Ok NaN.

Definition ToNumber (v : jsval) : result float :=
  match v with
  | JUndef => Ok NaN
  | JNum x => Ok x
  | JStr s => StringToNumber s
  end.

End JS.
Import JS.

(** ** The two functions of d3 the model uses

    [d3.max] and [d3.min] belong to the d3 library ([lib/d3]), not to
    this repository's source.  They are embedded from d3's
    documentation: the natural order is used, [undefined] and NaN
    values are ignored, and the result is [undefined] when no value is
    left.  An element takes the place of the current extremum when it
    compares strictly beyond it. *)
Module d3.

Fixpoint extremum_from (beyond : val → val → bool) (a : float)
    (l : list val) : float :=
  match l with
  | [] => a
  | v :: l' =>
      if beyond v (Some a) then extremum_from beyond (num v) l'
      else extremum_from beyond a l'
  end.

Fixpoint extremum (beyond : val → val → bool) (l : list val) : val :=
  match l with
  | [] => None
  | v :: l' =>
      if isNaN v then extremum beyond l'
      else Some (extremum_from beyond (num v) l')
  end.

Definition max : list val → val := extremum greaterThan.
Definition min : list val → val := extremum lessThan.

End d3.

Abbreviation matrix := (list (list val)).

(** ** The demo's threshold function ([thresholdMatrix])

    [nodeThress[i]] is the largest absolute value of row [i] times the
    threshold percentage [args[0]].  The entry at [i][j] is replaced by
    NaN when its absolute value is below the threshold of row [i] or
    below the threshold of row [j]. *)

Definition nodeThres (thresPerc : jsval) (row : list val) : result float :=
  let absVals := (λ v, Some (Math_abs v)) <$> row in
  p ← ToNumber thresPerc;
  Ok (PrimFloat.mul (num (d3.max absVals)) p).

Definition suppresses (nodeThress : list float) (i j : nat) (v : val) : bool :=
  lessThan (Some (Math_abs v)) (nodeThress !! i)
  || lessThan (Some (Math_abs v)) (nodeThress !! j).

Definition thresholdCell (nodeThress : list float) (i j : nat) (v : val)
  : val :=
  if suppresses nodeThress i j v then Some NaN else v.

Definition thresholdMatrix (m : option matrix) (args : option (list jsval))
  : result matrix :=
  args ← deref args;
  let thresPerc := default JUndef (args !! 0) in
  m ← deref m;
  nodeThress ← mapM (nodeThres thresPerc) m;
  Ok (imap (λ i row, imap (λ j v, thresholdCell nodeThress i j v) row) m).

(** ** The data model

    Objects that the source links by reference are linked here by
    position: a node by its position in [network.nodes], a tree node
    (an internal node of the dendrogram) by its position in [heap],
    the store of all tree-node objects the network has ever created.
    [network.treeNodes] lists the tree nodes currently in the tree.

    [setThresholdValue] writes into the array [network.thresholdValues],
    and that array is not the network's own: [createNetwork] stores the
    array its caller passed, and [extractSubNetwork] passes the arrays
    of the parent network on to the sub-network.  The arrays of
    threshold values and of their labels are therefore kept in a
    [store], and a network holds their positions in it. *)

Abbreviation store := (list (list jsval)).

Inductive ref : Type :=
  | RNode (i : nat)
  | RTree (t : nat).

#[global] Instance ref_eq_dec : EqDecision ref.
Proof. solve_decision. Defined.

(** [edge.i] and [edge.j] (and [edge.source], [edge.target], which hold
    the same two nodes), and [edge.weights]. *)
Record edge : Type := Edge {
  edge_i : nat;
  edge_j : nat;
  edge_weights : list val
}.

Record node : Type := Node {
  node_index : nat;
  node_name : string;
  node_nodeData : list val;
  node_edges : list edge;
  node_neighbours : list nat;
  node_parent : option nat;
  node_fullNetIndex : option nat
}.

Record treeNode : Type := TreeNode {
  tree_children : list ref;
  tree_distance : val;
  tree_index : nat;
  tree_parent : option nat
}.

(** A row [[left, right, distance]] of the linkage table; the two ids
    are integers. *)
Record linkageRow : Type := LinkageRow {
  link_left : Z;
  link_right : Z;
  link_distance : val
}.

(** A threshold function: from the matrix and the threshold arguments
    (either of which is [undefined] when the network has none) to the
    thresholded matrix.  It neither keeps state nor changes its
    arguments. *)
Definition thresholdFn : Type :=
  option matrix → option (list jsval) → result matrix.

Record network : Type := Network {
  nodes : list node;
  nodeData : list (list val);
  nodeDataLabels : list string;
  matrices : list matrix;
  matrixLabels : list string;
  linkage : option (list linkageRow);
  thresholdFunc : thresholdFn;
  thresholdValues : nat;
  thresholdValueLabels : nat;
  thresholdIdx : nat;
  numClusters : Z;
  edges : list edge;
  matrixMins : list float;
  matrixMaxs : list float;
  matrixAbsMins : list float;
  matrixAbsMaxs : list float;
  treeNodes : list nat;
  heap : list treeNode
}.

Definition set_node_parent (p : option nat) (n : node) : node :=
  Node (node_index n) (node_name n) (node_nodeData n) (node_edges n)
       (node_neighbours n) p (node_fullNetIndex n).

Definition set_tree_parent (p : option nat) (t : treeNode) : treeNode :=
  TreeNode (tree_children t) (tree_distance t) (tree_index t) p.

Definition set_tree_children (c : list ref) (t : treeNode) : treeNode :=
  TreeNode c (tree_distance t) (tree_index t) (tree_parent t).

Definition with_tree (ns : list node) (tns : list nat) (h : list treeNode)
    (net : network) : network :=
  Network ns (nodeData net) (nodeDataLabels net) (matrices net)
    (matrixLabels net) (linkage net) (thresholdFunc net)
    (thresholdValues net) (thresholdValueLabels net) (thresholdIdx net)
    (numClusters net) (edges net) (matrixMins net) (matrixMaxs net)
    (matrixAbsMins net) (matrixAbsMaxs net) tns h.

Definition with_numClusters (k : Z) (net : network) : network :=
  Network (nodes net) (nodeData net) (nodeDataLabels net) (matrices net)
    (matrixLabels net) (linkage net) (thresholdFunc net)
    (thresholdValues net) (thresholdValueLabels net) (thresholdIdx net)
    k (edges net) (matrixMins net) (matrixMaxs net)
    (matrixAbsMins net) (matrixAbsMaxs net) (treeNodes net) (heap net).

Definition with_thresholdIdx (idx : nat) (net : network) : network :=
  Network (nodes net) (nodeData net) (nodeDataLabels net) (matrices net)
    (matrixLabels net) (linkage net) (thresholdFunc net)
    (thresholdValues net) (thresholdValueLabels net) idx
    (numClusters net) (edges net) (matrixMins net) (matrixMaxs net)
    (matrixAbsMins net) (matrixAbsMaxs net) (treeNodes net) (heap net).

(** [a[z]] for an integer [z]: [undefined] below zero and past the end. *)
Definition lookupZ {A} (l : list A) (z : Z) : option A :=
  if (z <? 0)%Z then None else l !! Z.to_nat z.

(** [m[i][j]]: a missing row cannot be indexed, a missing cell reads
    [undefined]. *)
Definition cell (m : matrix) (i j : nat) : result val :=
  row ← deref (m !! i);
  Ok (mjoin (row !! j)).

(** ** [flattenDendrogramTree] *)

(** [getClusters]: the parents of the nodes, each kept once, in the
    order in which they are first met. *)
Fixpoint uniq (seen : list (option nat)) (l : list (option nat))
  : list (option nat) :=
  match l with
  | [] => seen
  | c :: l' => if decide (c ∈ seen) then uniq seen l' else uniq (seen ++ [c]) l'
  end.

Definition getClusters (net : network) : list (option nat) :=
  uniq [] (node_parent <$> nodes net).

(** [child.parent = parent; parent.children.push(child)] *)
Definition reparent (parent : nat) (s : list node * list treeNode)
    (child : ref) : list node * list treeNode :=
  let '(ns, h) := s in
  let '(ns, h) :=
    match child with
    | RNode i => (alter (set_node_parent (Some parent)) i ns, h)
    | RTree t => (ns, alter (set_tree_parent (Some parent)) t h)
    end in
  (ns, alter (λ p, set_tree_children (tree_children p ++ [child]) p) parent h).

(** One round of the loop: the cluster with the least distance is
    squeezed out of the tree, its children going to its parent. *)
Definition squeeze (net : network) (clusters : list (option nat))
  : result network :=
  distances ← mapM (λ clust : option nat,
                      c ← deref (clust ≫= (heap net !!.));
                      Ok (tree_distance c)) clusters;
  let minIdx := indexOf strict_eq distances (d3.min distances) in
  clust ← deref (mjoin (minIdx ≫= (clusters !!.)));
  c ← deref (heap net !! clust);
  parent ← deref (tree_parent c);
  p ← deref (heap net !! parent);
  let clustChildIdx :=
    indexOf (λ a b, bool_decide (a = b)) (tree_children p) (RTree clust) in
  let clustTreeIdx :=
    indexOf (λ a b, bool_decide (a = b)) (treeNodes net) clust in
  let h := alter (set_tree_children (splice1 (tree_children p) clustChildIdx))
                 parent (heap net) in
  let tns := splice1 (treeNodes net) clustTreeIdx in
  c ← deref (h !! clust);
  let children := tree_children c in
  let '(ns, h) := foldl (reparent parent) (nodes net, h) children in
  Ok (with_tree ns tns h net).

Fixpoint flattenDendrogramTree (fuel : nat) (net : network) (maxClusters : Z)
  : result network :=
  let clusters := getClusters net in
  if (Z.of_nat (length clusters) >? maxClusters)%Z then
    match fuel with
    | O => Err OutOfFuel
    | S fuel' =>
        net' ← squeeze net clusters;
        flattenDendrogramTree fuel' net' maxClusters
    end
  else Ok net.

(** ** [makeNetworkDendrogramTree] *)

(** The object a linkage id stands for: a tree node built by an earlier
    row when the id is above the number of nodes, a node otherwise. *)
Definition resolve (numNodes : nat) (ns : list node) (built : list nat)
    (id : Z) : option ref :=
  if (id >? Z.of_nat numNodes)%Z
  then RTree <$> lookupZ built (id - 1 - Z.of_nat numNodes)
  else (λ _, RNode (Z.to_nat (id - 1))) <$> lookupZ ns (id - 1).

Definition set_parent (r : ref) (p : nat) (s : list node * list treeNode)
  : list node * list treeNode :=
  match r with
  | RNode i => (alter (set_node_parent (Some p)) i s.1, s.2)
  | RTree t => (s.1, alter (set_tree_parent (Some p)) t s.2)
  end.

Record treeBuild : Type := TreeBuild {
  tb_nodes : list node;
  tb_heap : list treeNode;
  tb_treeNodes : list nat
}.

Definition linkStep (numNodes : nat) (s : treeBuild) (ir : nat * linkageRow)
  : result treeBuild :=
  let '(i, row) := ir in
  let treeNode := length (tb_heap s) in
  let left := resolve numNodes (tb_nodes s) (tb_treeNodes s) (link_left row) in
  let right := resolve numNodes (tb_nodes s) (tb_treeNodes s) (link_right row) in
  left ← deref left;
  right ← deref right;
  let '(ns, h) :=
    set_parent right treeNode (set_parent left treeNode (tb_nodes s, tb_heap s)) in
  Ok (TreeBuild ns
        (h ++ [TreeNode [left; right] (link_distance row) (i + numNodes) None])
        (tb_treeNodes s ++ [treeNode])).

Definition makeNetworkDendrogramTree (net : network)
    (linkages : list linkageRow) : result network :=
  let numNodes := length (nodes net) in
  s ← foldM (linkStep numNodes) (imap pair linkages)
        (TreeBuild (nodes net) (heap net) []);
  Ok (with_tree (tb_nodes s) (tb_treeNodes s) (tb_heap s) net).

(** ** [setNumClusters] *)

Definition setNumClusters (fuel : nat) (net : network) (numClusts : Z)
  : result network :=
  match linkage net with
  | None => Ok net
  | Some linkages =>
      net ← makeNetworkDendrogramTree net linkages;
      net ← flattenDendrogramTree fuel net numClusts;
      Ok (with_numClusters numClusts net)
  end.

(** ** [thresholdNetwork] *)

Record edgeBuild : Type := EdgeBuild {
  eb_nodes : list node;
  eb_edges : list edge;
  eb_mins : list float;
  eb_maxs : list float;
  eb_absMins : list float;
  eb_absMaxs : list float
}.

Definition clear_edges (n : node) : node :=
  Node (node_index n) (node_name n) (node_nodeData n) [] []
       (node_parent n) (node_fullNetIndex n).

(** [node.neighbours.push(other); node.edges.push(edge)] *)
Definition attach (other : nat) (e : edge) (n : node) : node :=
  Node (node_index n) (node_name n) (node_nodeData n) (node_edges n ++ [e])
       (node_neighbours n ++ [other]) (node_parent n) (node_fullNetIndex n).

Definition raise (w : val) (m : float) : float :=
  if greaterThan w (Some m) then num w else m.
Definition lower (w : val) (m : float) : float :=
  if lessThan w (Some m) then num w else m.
Definition absval (w : val) : val := Some (Math_abs w).

(** The pairs [(i, j)] with [i < j < n], in the order of the two loops. *)
Definition pairs (n : nat) : list (nat * nat) :=
  i ← seq 0 n; j ← seq (S i) (n - S i); [(i, j)].

Definition edgeStep (mats : list matrix) (thresholded : matrix)
    (s : edgeBuild) (ij : nat * nat) : result edgeBuild :=
  let '(i, j) := ij in
  v ← cell thresholded i j;
  if isNaN v then Ok s
  else
    weights ← mapM (λ mat, cell mat i j) mats;
    let e := Edge i j weights in
    Ok (EdgeBuild
          (alter (attach i e) j (alter (attach j e) i (eb_nodes s)))
          (eb_edges s ++ [e])
          (zip_with lower weights (eb_mins s))
          (zip_with raise weights (eb_maxs s))
          (zip_with lower (absval <$> weights) (eb_absMins s))
          (zip_with raise (absval <$> weights) (eb_absMaxs s))).

Definition with_edges (s : edgeBuild) (net : network) : network :=
  Network (eb_nodes s) (nodeData net) (nodeDataLabels net) (matrices net)
    (matrixLabels net) (linkage net) (thresholdFunc net)
    (thresholdValues net) (thresholdValueLabels net) (thresholdIdx net)
    (numClusters net) (eb_edges s) (eb_mins s) (eb_maxs s)
    (eb_absMins s) (eb_absMaxs s) (treeNodes net) (heap net).

Definition edgeBuild0 (net : network) : edgeBuild :=
  let k := length (matrices net) in
  EdgeBuild (clear_edges <$> nodes net) []
    (replicate k MAX_VALUE) (replicate k (- MAX_VALUE)%float)
    (replicate k MAX_VALUE) (replicate k (- MAX_VALUE)%float).

(** The matrix that decides the edges: the threshold function applied
    to the matrix at [thresholdIdx]. *)
Definition thresholded (σ : store) (net : network) : result matrix :=
  thresholdFunc net (matrices net !! thresholdIdx net)
                (σ !! thresholdValues net).

Definition thresholdNetwork (σ : store) (net : network) : result network :=
  let numNodes := length (nodes net) in
  matrix ← thresholded σ net;
  s ← foldM (edgeStep (matrices net) matrix) (pairs numNodes) (edgeBuild0 net);
  Ok (with_edges s net).

(** ** [createNetwork]

    Thumbnail URLs are presentation data that no function below
    reads; they are left out of the embedding.  The d3 colour scales
    ([network.scaleInfo]) are kept apart from the network record, see
    [genColourScales] below. *)

Definition newNode (nodeData : list (list val)) (i : nat) : node :=
  Node i (pretty (i + 1)) ((λ array, mjoin (array !! i)) <$> nodeData)
       [] [] None None.

Definition createNetwork (σ : store) (fuel : nat)
    (matrices : list matrix) (matrixLabels : list string)
    (nodeData : list (list val)) (nodeDataLabels : list string)
    (linkage : option (list linkageRow))
    (thresholdFunc : thresholdFn)
    (thresholdValues thresholdValueLabels : nat)
    (thresholdIdx : nat) (numClusters : Z) : result network :=
  first ← deref (matrices !! 0);
  let numNodes := length first in
  let nodes := newNode nodeData <$> seq 0 numNodes in
  let network :=
    Network nodes nodeData nodeDataLabels matrices matrixLabels linkage
      thresholdFunc thresholdValues thresholdValueLabels thresholdIdx
      numClusters [] [] [] [] [] [] [] in
  network ← thresholdNetwork σ network;
  setNumClusters fuel network numClusters.

(** ** [extractSubMatrix] and [extractSubNetwork] *)

Definition extractSubMatrix (m : matrix) (indices : list nat) : result matrix :=
  mapM (λ i, mapM (λ j, cell m i j) indices) indices.

Definition set_name_fullNetIndex (name : string) (idx : nat) (n : node) : node :=
  Node (node_index n) name (node_nodeData n) (node_edges n)
       (node_neighbours n) (node_parent n) (Some idx).

(** The positions, in the parent network, of the nodes of the
    sub-network: the root and its neighbours, in ascending order. *)
Definition subNodeIdxs (net : network) (rootIdx : nat) : result (list nat) :=
  oldRoot ← deref (nodes net !! rootIdx);
  neighbourIdxs ← mapM (λ k, n ← deref (nodes net !! k); Ok (node_index n))
                       (node_neighbours oldRoot);
  Ok (merge_sort (≤) (rootIdx :: neighbourIdxs)).

(** [node.name = network.nodes[nodeIdxs[i]].name] and
    [node.fullNetIndex = network.nodes[nodeIdxs[i]].index], for the
    node at position [i] of the sub-network. *)
Definition relabel (net : network) (nodeIdxs : list nat) (inode : nat * node)
  : result node :=
  old ← deref (nodeIdxs !! inode.1 ≫= (nodes net !!.));
  Ok (set_name_fullNetIndex (node_name old) (node_index old) inode.2).

Definition extractSubNetwork (σ : store) (net : network) (rootIdx : nat)
  : result network :=
  nodeIdxs ← subNodeIdxs net rootIdx;
  subMatrices ← mapM (λ m, extractSubMatrix m nodeIdxs) (matrices net);
  let subNodeData :=
    (λ array : list val, (λ idx, mjoin (array !! idx)) <$> nodeIdxs)
      <$> nodeData net in
  (* the source passes the array of labels where the array of values
     is expected, and the array of values where the labels are *)
  subnet ← createNetwork σ 0 subMatrices (matrixLabels net) subNodeData
             (nodeDataLabels net) None (thresholdFunc net)
             (thresholdValueLabels net) (thresholdValues net)
             (thresholdIdx net) 1;
  ns ← mapM (relabel net nodeIdxs) (imap pair (nodes subnet));
  let root := length (heap subnet) in
  let rootObj := TreeNode (RNode <$> seq 0 (length ns)) None (length ns) None in
  Ok (with_tree (set_node_parent (Some root) <$> ns) [root]
                (heap subnet ++ [rootObj]) subnet).

(** ** [setThresholdValue] and [setThresholdMatrix] *)

Definition setThresholdValue (σ : store) (fuel : nat) (net : network)
    (idx : Z) (value : jsval) : result (store * network) :=
  values ← deref (σ !! thresholdValues net);
  if ((idx <? 0) || (idx >=? Z.of_nat (length values)))%Z
  then Err (Thrown "Threshold value index out of range.")
  else
    let σ := <[thresholdValues net := <[Z.to_nat idx := value]> values]> σ in
    net ← thresholdNetwork σ net;
    net ← setNumClusters fuel net (numClusters net);
    Ok (σ, net).

Definition setThresholdMatrix (σ : store) (fuel : nat) (net : network)
    (idx : Z) : result (store * network) :=
  if ((idx <? 0) || (idx >=? Z.of_nat (length (matrices net))))%Z
  then Err (Thrown "Matrix index out of range.")
  else
    let net := with_thresholdIdx (Z.to_nat idx) net in
    values ← deref (σ !! thresholdValues net);
    setThresholdValue σ fuel net 0 (default JUndef (values !! 0)).

(** ** [genColourScales] and the index setters

    [createNetwork] ends by attaching a [scaleInfo] object to the
    network, and [setNodeColourIdx] writes [network.nodeColourIdx].
    The record [network] above does not hold these two fields; they
    are kept beside it, in a [view].

    The scales are objects of d3 ([d3.scale.linear]), which belongs
    to [lib/d3]: a linear scale is represented by the domain and the
    range it is configured with ([domain] converts its entries to
    numbers).  The ordinal scale [nodeColourScale], the derived
    [defEdgeColourScale] and the accessor closures are d3 objects and
    functions over them; they are left out. *)

Record linearScale (A : Type) : Type := LinearScale {
  scale_domain : list float;
  scale_range : list A
}.
Arguments LinearScale {A} _ _.
Arguments scale_domain {A} _.
Arguments scale_range {A} _.

Record scaleInfo : Type := ScaleInfo {
  edgeWidthIdx : Z;
  edgeColourIdx : Z;
  nodeColourIdx : Z;
  edgeWidthScale : option (linearScale float);
  hltEdgeColourScale : option (linearScale string)
}.

(** [network.scaleInfo] and [network.nodeColourIdx] ([undefined] until
    [setNodeColourIdx] is called). *)
Record view : Type := View {
  view_scaleInfo : scaleInfo;
  view_nodeColourIdx : option Z
}.

(** [[-max, -min, 0, min, max]] for the absolute minimum and maximum
    of the matrix at [idx]. *)
Definition scaleDomain (net : network) (idx : Z) : list float :=
  let min := lookupZ (matrixAbsMins net) idx in
  let max := lookupZ (matrixAbsMaxs net) idx in
  [(- num max)%float; (- num min)%float; 0%float; num min; num max].

Definition genColourScales (net : network) (si : scaleInfo) : scaleInfo :=
  let ewwIdx := edgeWidthIdx si in
  let ecwIdx := edgeColourIdx si in
  ScaleInfo ewwIdx ecwIdx (nodeColourIdx si)
    (Some (LinearScale (scaleDomain net ewwIdx)
             [15%float; 2%float; 0%float; 2%float; 15%float]))
    (Some (LinearScale (scaleDomain net ecwIdx)
             ["#0000dd"; "#ccccdd"; "#ffffff"; "#ddaaaa"; "#dd0000"])).

(** The end of [createNetwork]: a fresh [scaleInfo] with the three
    indices at [0]. *)
Definition createScaleInfo (net : network) : view :=
  View (genColourScales net (ScaleInfo 0 0 0 None None)) None.

Definition with_edgeWidthIdx (idx : Z) (si : scaleInfo) : scaleInfo :=
  ScaleInfo idx (edgeColourIdx si) (nodeColourIdx si) (edgeWidthScale si)
    (hltEdgeColourScale si).

Definition with_edgeColourIdx (idx : Z) (si : scaleInfo) : scaleInfo :=
  ScaleInfo (edgeWidthIdx si) idx (nodeColourIdx si) (edgeWidthScale si)
    (hltEdgeColourScale si).

Definition setEdgeWidthIdx (net : network) (v : view) (idx : Z)
  : result view :=
  if ((idx <? 0) || (idx >=? Z.of_nat (length (matrices net))))%Z
  then Err (Thrown "Matrix index out of range.")
  else Ok (View (genColourScales net (with_edgeWidthIdx idx (view_scaleInfo v)))
             (view_nodeColourIdx v)).

Definition setEdgeColourIdx (net : network) (v : view) (idx : Z)
  : result view :=
  if ((idx <? 0) || (idx >=? Z.of_nat (length (matrices net))))%Z
  then Err (Thrown "Matrix index out of range.")
  else Ok (View (genColourScales net (with_edgeColourIdx idx (view_scaleInfo v)))
             (view_nodeColourIdx v)).

Definition setNodeColourIdx (net : network) (v : view) (idx : Z)
  : result view :=
  if ((idx <? 0) || (idx >=? Z.of_nat (length (nodeDataLabels net))))%Z
  then Err (Thrown "Node data index out of range.")
  else Ok (View (genColourScales net (view_scaleInfo v)) (Some idx)).

(** ** [loadNetwork] and [onDataLoad]

    The texts are fetched with [d3.text] and parsed with [d3.dsv] and
    [parseFloat]; both belong to the runtime and to [lib/d3].  The
    embedding takes the fetch ([d3_text], [None] for a load that
    fails) and the parse of a text into rows of numbers
    ([parseTextMatrix]) as given, and is the code around them.  The
    tasks of a [queue] run in the order of their deferral and
    [awaitAll] hands their results over in that order, or no results
    at all when a task failed. *)

(** The ids of a linkage row as integers, where the numbers of the
    table are integers. *)
Definition integerOf (v : val) : result Z :=
  match v with
  | None => Err Unsupported
  | Some x =>
      match Prim2SF x with
      | S754_zero _ => Ok 0%Z
      | S754_finite s m e =>
          let z :=
            if (0 <=? e)%Z then Some (Z.pos m * 2 ^ e)%Z
            else if (Z.pos m mod 2 ^ (- e) =? 0)%Z
                 then Some (Z.pos m / 2 ^ (- e))%Z
                 else None in
          match z with
          | Some z => Ok (if s then (- z)%Z else z)
          | None => Err Unsupported
          end
      | _ => Err Unsupported
      end
  end.

Definition linkageOfMatrix (m : matrix) : result (list linkageRow) :=
  mapM (λ row : list val,
          left ← integerOf (mjoin (row !! 0));
          right ← integerOf (mjoin (row !! 1));
          Ok (LinkageRow left right (mjoin (row !! 2)))) m.

(** The argument of [loadNetwork].  The two arrays of the threshold
    arguments are positions in the store. *)
Record loadArgs : Type := LoadArgs {
  args_matrices : list string;
  args_matrixLabels : list string;
  args_nodeData : list string;
  args_nodeDataLabels : list string;
  args_linkage : option string;
  args_thresFunc : thresholdFn;
  args_thresVals : nat;
  args_thresLabels : nat
}.

Definition checkRow (numNodes : nat) (errorMsg : string) (_ : unit)
    (row : list val) : result unit :=
  if negb (length row =? numNodes)
  then Err (Thrown (errorMsg +:+ "(column length " +:+ pretty (length row)
                    +:+ ")"))
  else Ok tt.

Definition checkMatrix (numNodes : nat) (matrixLabels : list string)
    (_ : unit) (im : nat * matrix) : result unit :=
  let '(i, matrix) := im in
  let errorMsg :=
    "Matrix " +:+ default "undefined" (matrixLabels !! i)
    +:+ " has invalid size " in
  if negb (length matrix =? numNodes)
  then Err (Thrown (errorMsg +:+ "(num rows: " +:+ pretty (length matrix)
                    +:+ ")"))
  else foldM (checkRow numNodes errorMsg) matrix tt.

Definition checkNodeData (numNodes : nat) (nodeDataLabels : list string)
    (ia : nat * option (list val)) : result (list val) :=
  let '(i, array) := ia in
  array ← deref array;
  if negb (length array =? numNodes)
  then Err (Thrown ("Node data array "
                    +:+ default "undefined" (nodeDataLabels !! i)
                    +:+ " has invalid length (" +:+ pretty (length array)
                    +:+ ")"))
  else Ok array.

Section loading.

Context (d3_text : string → option string).
Context (parseTextMatrix : string → matrix).

(** [args] is [stdArgs :: linkage :: texts]. *)
Definition onDataLoad (σ : store) (fuel : nat) (stdArgs : loadArgs)
    (linkage : option string) (texts : list string) : result network :=
  let nodeDataLabels := args_nodeDataLabels stdArgs in
  let matrixLabels := args_matrixLabels stdArgs in
  let numNodeData := length nodeDataLabels in
  let numMatrices := length matrixLabels in
  let nodeData := take numNodeData texts in
  let matrices := take numMatrices (drop numNodeData texts) in
  let linkage := parseTextMatrix <$> linkage in
  let matrices := parseTextMatrix <$> matrices in
  let nodeData := parseTextMatrix <$> nodeData in
  let nodeData := (λ array : matrix, array !! 0) <$> nodeData in
  first ← deref (matrices !! 0);
  let numNodes := length first in
  _ ← foldM (checkMatrix numNodes matrixLabels) (imap pair matrices) tt;
  nodeData ← mapM (checkNodeData numNodes nodeDataLabels)
                  (imap pair nodeData);
  linkage ← match linkage with
            | Some m => Some <$> linkageOfMatrix m
            | None => Ok None
            end;
  createNetwork σ fuel matrices matrixLabels nodeData nodeDataLabels linkage
    (args_thresFunc stdArgs) (args_thresVals stdArgs)
    (args_thresLabels stdArgs) 0 1.

(** [if (linkageUrl)]: the empty string counts as no URL. *)
Definition truthy (url : option string) : option string :=
  match url with
  | Some EmptyString => None
  | _ => url
  end.

Definition loadNetwork (σ : store) (fuel : nat) (args : loadArgs)
  : result network :=
  let matrixUrls := args_matrices args in
  let nodeDataUrls := args_nodeData args in
  if negb (length matrixUrls =? length (args_matrixLabels args))
  then Err (Thrown "Matrix URL and label lengths do not match")
  else if negb (length nodeDataUrls =? length (args_nodeDataLabels args))
  then Err (Thrown "Node data URL and label lengths do not match")
  else
    thresVals ← deref (σ !! args_thresVals args);
    thresLabels ← deref (σ !! args_thresLabels args);
    if negb (length thresVals =? length thresLabels)
    then Err (Thrown "Threshold value and label lengths do not match")
    else
      linkage ← match truthy (args_linkage args) with
                | Some url => Some <$> deref (d3_text url)
                | None => Ok None
                end;
      texts ← mapM (λ url, deref (d3_text url)) (nodeDataUrls ++ matrixUrls);
      onDataLoad σ fuel args linkage texts.

End loading.

(** ** The stand-alone script

    The source ends with an earlier, stand-alone version of the
    program: it parses five texts, thresholds one matrix row by row,
    builds a network ([makeNetwork]) and its dendrogram
    ([networkToTree]) and draws it.  Its functions that do not draw
    are embedded here, in a name space of their own since the script
    defines [onDataLoad] anew.  Nodes are numbered from one
    ([node.index = i+1]); an edge holds the positions of its two
    nodes, as above. *)
Module Standalone.

Record snode : Type := SNode {
  snode_index : nat;
  snode_name : string;
  snode_cluster : val;
  snode_neighbours : list nat;
  snode_edges : list edge;
  snode_parent : option nat
}.

(** A tree node of [networkToTree]: its children and its parent. *)
Record stree : Type := STree {
  stree_children : list ref;
  stree_parent : option nat
}.

Record snetwork : Type := SNetwork {
  snodes : list snode;
  sedges : list edge;
  weightMins : list float;
  weightMaxs : list float;
  streeNodes : list stree
}.

Definition sattach (other : nat) (e : edge) (n : snode) : snode :=
  SNode (snode_index n) (snode_name n) (snode_cluster n)
        (snode_neighbours n ++ [other]) (snode_edges n ++ [e])
        (snode_parent n).

Record sbuild : Type := SBuild {
  sb_nodes : list snode;
  sb_edges : list edge;
  sb_mins : list float;
  sb_maxs : list float
}.

Definition edgeStep (matrices : list matrix) (matrix : matrix) (s : sbuild)
    (ij : nat * nat) : result sbuild :=
  let '(i, j) := ij in
  v ← cell matrix i j;
  if isNaN v then Ok s
  else
    weights ← mapM (λ mat, cell mat i j) matrices;
    let e := Edge i j weights in
    Ok (SBuild
          (alter (sattach i e) j (alter (sattach j e) i (sb_nodes s)))
          (sb_edges s ++ [e])
          (zip_with lower weights (sb_mins s))
          (zip_with raise weights (sb_maxs s))).

(** [hier] is not used. *)
Definition makeNetwork (matrices : list matrix) (clusters : option (list val))
    (hier : list val) : result snetwork :=
  matrix ← deref (matrices !! 0);
  let numNodes := length matrix in
  nodes ← mapM (λ i, clusters ← deref clusters;
                     Ok (SNode (i + 1) (pretty (i + 1))
                               (mjoin (clusters !! i)) [] [] None))
               (seq 0 numNodes);
  let k := length matrices in
  s ← foldM (edgeStep matrices matrix) (pairs numNodes)
        (SBuild nodes [] (replicate k MAX_VALUE)
                (replicate k (- MAX_VALUE)%float));
  Ok (SNetwork (sb_nodes s) (sb_edges s) (sb_mins s) (sb_maxs s) []).

Definition set_sparent (r : ref) (p : nat) (s : list snode * list stree)
  : list snode * list stree :=
  match r with
  | RNode i =>
      (alter (λ n, SNode (snode_index n) (snode_name n) (snode_cluster n)
                         (snode_neighbours n) (snode_edges n) (Some p))
             i s.1, s.2)
  | RTree t => (s.1, alter (λ o, STree (stree_children o) (Some p)) t s.2)
  end.

Definition resolve (ns : list snode) (built : list stree) (id : Z)
  : option ref :=
  let numNodes := length ns in
  if (id >? Z.of_nat numNodes)%Z
  then (λ _, RTree (Z.to_nat (id - 1 - Z.of_nat numNodes)))
         <$> lookupZ built (id - 1 - Z.of_nat numNodes)
  else (λ _, RNode (Z.to_nat (id - 1))) <$> lookupZ ns (id - 1).

Definition linkStep (s : list snode * list stree) (row : linkageRow)
  : result (list snode * list stree) :=
  let treeNode := length s.2 in
  left ← deref (resolve s.1 s.2 (link_left row));
  right ← deref (resolve s.1 s.2 (link_right row));
  let '(ns, ts) := set_sparent right treeNode (set_sparent left treeNode s) in
  Ok (ns, ts ++ [STree [left; right] None]).

Definition networkToTree (net : snetwork) (linkages : list linkageRow)
  : result snetwork :=
  s ← foldM linkStep linkages (snodes net, []);
  Ok (SNetwork s.1 (sedges net) (weightMins net) (weightMaxs net) s.2).

(** The loop of [onDataLoad] that thresholds the matrix in place: the
    entries [[i][j]], [j] below the number of rows, that lie under 75
    percent of the largest absolute value of row [i]. *)
Definition thresholdRow (numRows : nat) (row : list val) : list val :=
  let absVals := (λ v, Some (Math_abs v)) <$> row in
  let nodeThres := (num (d3.max absVals) * 0.75)%float in
  imap (λ j v, if (j <? numRows) && lessThan (Some (Math_abs v)) (Some nodeThres)
               then Some NaN else v) row.

Definition thresholdRows (m : matrix) : matrix :=
  thresholdRow (length m) <$> m.

(** [edgeId], for a path given by the indices of the nodes on it (d3
    makes the paths). *)
Definition edgeId (path : list nat) : result string :=
  first ← deref (path !! 0);
  last ← deref (path !! (length path - 1));
  let idxs := merge_sort (≤) [first; last] in
  Ok ("edge-" +:+ pretty (default 0 (idxs !! 0)) +:+ "-"
      +:+ pretty (default 0 (idxs !! 1))).

End Standalone.

(** * The vocabulary of the properties *)

(** ** Entries of a thresholded matrix *)

Definition rowMax (row : list val) : val :=
  d3.max ((λ v, Some (Math_abs v)) <$> row).

(** The threshold of row [k]: [rowMax_k * p] ([undefined] when the
    matrix has no row [k]). *)
Definition rowThres (m : matrix) (p : float) (k : nat) : val :=
  (λ row, PrimFloat.mul (num (rowMax row)) p) <$> m !! k.

Definition entry (m : matrix) (i j : nat) : val := mjoin (m !! i ≫= (.!! j)).

(** The test the code performs on the entry at [i][j]: the entry
    itself against the threshold of row [i] and against that of row [j]. *)
Definition suppressedByCode (m : matrix) (p : float) (i j : nat) : bool :=
  lessThan (absval (entry m i j)) (rowThres m p i)
  || lessThan (absval (entry m i j)) (rowThres m p j).

(** The test in the words of the specification: the entry at [i][j]
    against the threshold of row [i], or the entry at [j][i] against
    the threshold of row [j]. *)
Definition suppressedBySpec (m : matrix) (p : float) (i j : nat) : bool :=
  lessThan (absval (entry m i j)) (rowThres m p i)
  || lessThan (absval (entry m j i)) (rowThres m p j).

Definition exampleAsym : matrix :=
  [[Some 10%float; Some 1%float]; [Some 9%float; Some 10%float]].

Definition exampleSym : matrix :=
  [[Some 10%float; Some 1%float]; [Some 1%float; Some 10%float]].

(** ** Edges and neighbours *)

(** The pairs the builder keeps: those whose thresholded entry is not
    NaN, in the order of the loops. *)
Definition kept (tm : matrix) (ps : list (nat * nat)) : list (nat * nat) :=
  filter (λ ij, isNaN (entry tm ij.1 ij.2) = false) ps.

(** The edge of a pair: its weight vector holds the raw entry of every
    matrix. *)
Definition edgeOf (mats : list matrix) (ij : nat * nat) : edge :=
  Edge ij.1 ij.2 ((λ m, entry m ij.1 ij.2) <$> mats).

Definition otherEnd (a : nat) (ij : nat * nat) : option nat :=
  if decide (ij.1 = a) then Some ij.2
  else if decide (ij.2 = a) then Some ij.1
  else None.

Definition incident (a : nat) (ij : nat * nat) : Prop := ij.1 = a ∨ ij.2 = a.

#[global] Instance incident_dec a ij : Decision (incident a ij).
Proof. unfold incident. apply _. Defined.

(** The four statistics after the edges of the pairs [ps]. *)
Definition statsOf (upd : val → float → float) (pre : val → val)
    (mats : list matrix) (init : list float) (ps : list (nat * nat))
  : list float :=
  foldl (λ acc ij, zip_with upd (pre <$> edge_weights (edgeOf mats ij)) acc)
        init ps.

(** What the loop has built after the pairs [done]. *)
Record built (mats : list matrix) (tm : matrix) (s0 : edgeBuild)
    (done : list (nat * nat)) (s : edgeBuild) : Prop := Built {
  built_edges : eb_edges s = eb_edges s0 ++ (edgeOf mats <$> kept tm done);
  built_length : length (eb_nodes s) = length (eb_nodes s0);
  built_nodes : ∀ a n, eb_nodes s !! a = Some n →
    ∃ n0, eb_nodes s0 !! a = Some n0
      ∧ node_index n = node_index n0 ∧ node_name n = node_name n0
      ∧ node_nodeData n = node_nodeData n0 ∧ node_parent n = node_parent n0
      ∧ node_fullNetIndex n = node_fullNetIndex n0
      ∧ node_neighbours n
        = node_neighbours n0 ++ omap (otherEnd a) (kept tm done)
      ∧ node_edges n
        = node_edges n0 ++ (edgeOf mats <$> filter (incident a) (kept tm done));
  built_mins : eb_mins s = statsOf lower id mats (eb_mins s0) (kept tm done);
  built_maxs : eb_maxs s = statsOf raise id mats (eb_maxs s0) (kept tm done);
  built_absMins :
    eb_absMins s = statsOf lower absval mats (eb_absMins s0) (kept tm done);
  built_absMaxs :
    eb_absMaxs s = statsOf raise absval mats (eb_absMaxs s0) (kept tm done)
}.

(** Whether an edge joins the nodes [a] and [b], in either order. *)
Definition joins (e : edge) (a b : nat) : Prop :=
  (edge_i e = a ∧ edge_j e = b) ∨ (edge_i e = b ∧ edge_j e = a).

Definition hasEdge (net : network) (a b : nat) : Prop :=
  ∃ e, e ∈ edges net ∧ joins e a b.

Definition neighbour (net : network) (a b : nat) : Prop :=
  ∃ n, nodes net !! a = Some n ∧ b ∈ node_neighbours n.

(** A threshold function for a matrix that is already thresholded. *)
Definition passThrough : thresholdFn := λ m _, deref m.

Definition exampleThresholded : matrix :=
  [[Some 0%float; Some 5%float; Some NaN];
   [Some 5%float; Some 0%float; Some 1%float];
   [Some NaN; Some 1%float; Some 0%float]].

Definition exampleNetwork : result network :=
  createNetwork [[]; []] 0 [exampleThresholded] ["M"] [] [] None
                passThrough 0 1 0 1.

(** ** Matrices with no entry left *)

(** The matrix has a NaN at every entry off the diagonal of its
    leading [n] by [n] block. *)
Definition offDiagonalNaN (n : nat) (tm : matrix) : bool :=
  forallb (λ i, forallb (λ j,
    (i =? j) || match tm !! i ≫= (.!! j) with
                | Some (Some x) => PrimFloat.is_nan x
                | _ => false
                end) (seq 0 n)) (seq 0 n).

Definition exampleAllNaN : matrix :=
  [[Some 0%float; Some NaN]; [Some NaN; Some 0%float]].

(** ** The graph of a network

    Building and flattening the dendrogram only writes the [parent] of
    nodes and tree nodes, the children of tree nodes and
    [network.treeNodes]; the graph is the rest. *)

Definition forgetParent (n : node) : node := set_node_parent None n.

(** The network without its dendrogram. *)
Definition graphOf (net : network) : network :=
  with_numClusters 0 (with_tree (forgetParent <$> nodes net) [] [] net).

(** ** Symmetry *)

(** The edges and the neighbour lists. *)
Definition adjacency (net : network) : list edge * list (list nat) :=
  (edges net, node_neighbours <$> nodes net).

Definition symmetric (net : network) : Prop :=
  ∀ a b, (hasEdge net a b ↔ hasEdge net b a)
       ∧ (neighbour net a b ↔ neighbour net b a)
       ∧ (neighbour net a b ↔ hasEdge net a b).

(** The networks the module hands out: those returned by
    [createNetwork], [extractSubNetwork], [setThresholdValue],
    [setThresholdMatrix] and [setNumClusters], and by the rethreshold
    step [thresholdNetwork] itself. *)
Inductive handedOut : network → Prop :=
  | ho_createNetwork σ fuel ms mls nd ndls lk tf tv tvl ti nc net :
      createNetwork σ fuel ms mls nd ndls lk tf tv tvl ti nc = Ok net →
      handedOut net
  | ho_extractSubNetwork σ net rootIdx sub :
      extractSubNetwork σ net rootIdx = Ok sub → handedOut sub
  | ho_thresholdNetwork σ net net' :
      thresholdNetwork σ net = Ok net' → handedOut net'
  | ho_setThresholdValue σ fuel net idx value σ' net' :
      setThresholdValue σ fuel net idx value = Ok (σ', net') → handedOut net'
  | ho_setThresholdMatrix σ fuel net idx σ' net' :
      setThresholdMatrix σ fuel net idx = Ok (σ', net') → handedOut net'
  | ho_setNumClusters fuel net k net' :
      handedOut net → setNumClusters fuel net k = Ok net' → handedOut net'.

(** ** Edges that are up to date *)

(** What the edges are computed from. *)
Definition thresholdState (net : network)
  : thresholdFn * list matrix * nat * nat * nat :=
  (thresholdFunc net, matrices net, thresholdIdx net, thresholdValues net,
   length (nodes net)).

(** The edge list of the network is the one a rethreshold under the
    store [σ] builds. *)
Definition upToDate (σ : store) (net : network) : Prop :=
  ∃ net1, thresholdNetwork σ net = Ok net1 ∧ edges net1 = edges net.

(** The networks the module has handed out, with a store under which
    their edges were built: the store the network was built or
    rethresholded in, and any later store in which the array of its
    threshold values still has the same content. *)
Inductive builtUnder : store → network → Prop :=
  | bu_createNetwork σ fuel ms mls nd ndls lk tf tv tvl ti nc net :
      createNetwork σ fuel ms mls nd ndls lk tf tv tvl ti nc = Ok net →
      builtUnder σ net
  | bu_extractSubNetwork σ net rootIdx sub :
      extractSubNetwork σ net rootIdx = Ok sub → builtUnder σ sub
  | bu_thresholdNetwork σ net net' :
      thresholdNetwork σ net = Ok net' → builtUnder σ net'
  | bu_setThresholdValue σ fuel net idx value σ' net' :
      setThresholdValue σ fuel net idx value = Ok (σ', net') →
      builtUnder σ' net'
  | bu_setThresholdMatrix σ fuel net idx σ' net' :
      setThresholdMatrix σ fuel net idx = Ok (σ', net') → builtUnder σ' net'
  | bu_setNumClusters σ fuel net k net' :
      builtUnder σ net → setNumClusters fuel net k = Ok net' →
      builtUnder σ net'
  | bu_store σ σ' net :
      builtUnder σ net →
      σ' !! thresholdValues net = σ !! thresholdValues net →
      builtUnder σ' net.

Definition exampleWeights : matrix :=
  [[Some 0%float; Some 10%float; Some 6%float];
   [Some 10%float; Some 0%float; Some 4%float];
   [Some 6%float; Some 4%float; Some 0%float]].

Definition exampleStore : store :=
  [[JNum 0.5%float]; [JStr "Threshold percentage"]].

(** Two networks are built with the same array of threshold values (at
    position 0 of the store).  The first sets the percentage to [0.75];
    the second then holds [0.75] as well, and is rethresholded with the
    value it holds.  The result: the edges of the second network
    before and after that call, and the value it held at the call. *)
Definition sharedThresholds
  : result (list edge * list edge * option jsval) :=
  netA ← createNetwork exampleStore 0 [exampleWeights] ["Z"] [] [] None
           thresholdMatrix 0 1 0 1;
  netB ← createNetwork exampleStore 0 [exampleWeights] ["Z"] [] [] None
           thresholdMatrix 0 1 0 1;
  a ← setThresholdValue exampleStore 0 netA 0 (JNum 0.75%float);
  let held := a.1 !! thresholdValues netB ≫= (.!! 0) in
  b ← setThresholdValue a.1 0 netB 0 (JNum 0.75%float);
  Ok (edges netB, edges b.2, held).

(** ** Valid linkage ids *)

(** The ids a row may use when [built] tree nodes exist: [1 .. N] for
    the nodes, [N+1 .. N+built] for the tree nodes of earlier rows. *)
Definition validId (numNodes built : nat) (id : Z) : Prop :=
  (1 ≤ id ≤ Z.of_nat numNodes + Z.of_nat built)%Z.

(** What the rows processed so far have built. *)
Definition linked (numNodes : nat) (done : list (nat * linkageRow))
    (s : treeBuild) : Prop :=
  length (tb_nodes s) = numNodes
  ∧ length (tb_treeNodes s) = length done
  ∧ ∀ r row, done !! r = Some (r, row) →
      validId numNodes r (link_left row) ∧ validId numNodes r (link_right row).

Definition exampleFourNodes : network :=
  Network [newNode [] 0; newNode [] 1; newNode [] 2; newNode [] 3] [] []
    [] [] None passThrough 0 1 0 1 [] [] [] [] [] [] [].

(** ** Parents and children *)

Definition nodeParent (ns : list node) (i : nat) : option nat :=
  ns !! i ≫= node_parent.

Definition treeParent (h : list treeNode) (t : nat) : option nat :=
  h !! t ≫= tree_parent.

Definition treeChildren (h : list treeNode) (t : nat) : list ref :=
  from_option tree_children [] (h !! t).

(** ** Well-formed dendrograms

    A dendrogram as the builder leaves it and the reducer keeps it:
    the tree nodes in [treeNodes] are distinct objects of the heap,
    the children of a tree node have it as their parent, whatever has
    a parent is among the children of that parent, and a parent is an
    object created after its children. *)

Definition parentOf (net : network) (r : ref) : option nat :=
  match r with
  | RNode i => nodeParent (nodes net) i
  | RTree t => treeParent (heap net) t
  end.

Definition live (net : network) (r : ref) : Prop :=
  match r with
  | RNode i => i < length (nodes net)
  | RTree t => t ∈ treeNodes net
  end.

Record wellFormed (net : network) : Prop := WellFormed {
  wf_NoDup : NoDup (treeNodes net);
  wf_heap : ∀ t, t ∈ treeNodes net → t < length (heap net);
  wf_children : ∀ t c,
    t ∈ treeNodes net → c ∈ treeChildren (heap net) t →
    parentOf net c = Some t;
  wf_parent : ∀ r p,
    live net r → parentOf net r = Some p →
    p ∈ treeNodes net ∧ r ∈ treeChildren (heap net) p;
  wf_order : ∀ t p,
    t ∈ treeNodes net → treeParent (heap net) t = Some p → t < p
}.

(** The state after a round, in terms of the state before it. *)
Record squeezed (net net' : network) (X P : nat) : Prop := Squeezed {
  sq_X : X ∈ treeNodes net;
  sq_P : P ∈ treeNodes net;
  sq_XP : X < P;
  sq_cluster : Some X ∈ getClusters net;
  sq_nodes : length (nodes net') = length (nodes net);
  sq_heap : length (heap net') = length (heap net);
  sq_treeNodes : ∃ k, treeNodes net !! k = Some X
                      ∧ treeNodes net' = delete k (treeNodes net);
  sq_moved : ∀ r, r ∈ treeChildren (heap net) X → parentOf net' r = Some P;
  sq_kept : ∀ r, r ∉ treeChildren (heap net) X →
                 parentOf net' r = parentOf net r;
  sq_children_P : ∃ k, treeChildren (heap net) P !! k = Some (RTree X)
      ∧ treeChildren (heap net') P
        = delete k (treeChildren (heap net) P) ++ treeChildren (heap net) X;
  sq_children : ∀ t, t ≠ P →
      treeChildren (heap net') t = treeChildren (heap net) t
}.

(** Well-formedness, as a check that can be run. *)
Definition wellFormedCheck (net : network) : Prop :=
  NoDup (treeNodes net)
  ∧ Forall (λ t, t < length (heap net)) (treeNodes net)
  ∧ Forall (λ t, Forall (λ c, parentOf net c = Some t)
                        (treeChildren (heap net) t)) (treeNodes net)
  ∧ Forall (λ r, match parentOf net r with
                 | Some p => p ∈ treeNodes net ∧ r ∈ treeChildren (heap net) p
                 | None => True
                 end)
           ((RNode <$> seq 0 (length (nodes net)))
            ++ (RTree <$> treeNodes net))
  ∧ Forall (λ t, match treeParent (heap net) t with
                 | Some p => t < p
                 | None => True
                 end) (treeNodes net).

#[global] Instance wellFormedCheck_dec net : Decision (wellFormedCheck net).
Proof.
  unfold wellFormedCheck.
  repeat (apply and_dec); try apply _.
  - apply Forall_dec. intros r. destruct (parentOf net r); apply _.
  - apply Forall_dec. intros t. destruct (treeParent (heap net) t); apply _.
Defined.

(** ** A dendrogram of four nodes *)

(** The linkage [[1,2,0.5],[3,4,1],[5,6,2]]. *)
Definition exampleLinkage : list linkageRow :=
  [LinkageRow 1 2 (Some 0.5%float); LinkageRow 3 4 (Some 1%float);
   LinkageRow 5 6 (Some 2%float)].

(** The dendrogram of the example, as [makeNetworkDendrogramTree]
    builds it. *)
Definition exampleTree : network :=
  Network
    [Node 0 "1" [] [] [] (Some 0) None; Node 1 "2" [] [] [] (Some 0) None;
     Node 2 "3" [] [] [] (Some 1) None; Node 3 "4" [] [] [] (Some 1) None]
    [] [] [] [] (Some exampleLinkage) passThrough 0 1 0 1 [] [] [] [] []
    [0; 1; 2]
    [TreeNode [RNode 0; RNode 1] (Some 0.5%float) 4 (Some 2);
     TreeNode [RNode 2; RNode 3] (Some 1%float) 5 (Some 2);
     TreeNode [RTree 0; RTree 1] (Some 2%float) 6 None].

(** The network of the shared-array example, its sub-network around
    node 0, and [setNumClusters] with the cluster count [0] on that
    sub-network: the tree nodes, [numClusters] and the number of
    clusters of what it returns. *)
Definition subNetworkBelowOne : result (list nat * Z * nat) :=
  net ← createNetwork exampleStore 0 [exampleWeights] ["Z"] [] [] None
          thresholdMatrix 0 1 0 1;
  sub ← extractSubNetwork exampleStore net 0;
  r ← setNumClusters 0 sub 0;
  Ok (treeNodes r, numClusters r, length (getClusters r)).

(** ** A network of four nodes *)

Definition exampleFour : matrix :=
  [[Some 0%float; Some 8%float; Some 8%float; Some 1%float];
   [Some 8%float; Some 0%float; Some 7%float; Some 10%float];
   [Some 8%float; Some 7%float; Some 0%float; Some 1%float];
   [Some 1%float; Some 10%float; Some 1%float; Some 0%float]].

Definition exampleStore75 : store :=
  [[JNum 0.75%float]; [JStr "Threshold percentage"]].

(** A network of four nodes thresholded at 75 percent, and its
    sub-network around node 0: the edges of the network, the edges of
    the sub-network, and for the nodes of the sub-network their
    parent-network indices, their names, and the position in the store
    of the array the sub-network uses as its threshold values. *)
Definition subNetworkOfFour
  : result (list edge * list edge * list (option nat) * list string * nat) :=
  net ← createNetwork exampleStore75 0 [exampleFour] ["Z"] [] [] None
          thresholdMatrix 0 1 0 1;
  sub ← extractSubNetwork exampleStore75 net 0;
  Ok (edges net, edges sub, node_fullNetIndex <$> nodes sub,
      node_name <$> nodes sub, thresholdValues sub).

(** ** Standard linkage tables

    A linkage table as hierarchical clustering emits it: every id is
    valid at its row, no id occurs twice, and every node occurs. *)

Definition linkIds (l : list linkageRow) : list Z :=
  row ← l; [link_left row; link_right row].

Record standardLinkage (numNodes : nat) (l : list linkageRow) : Prop := {
  sl_valid : ∀ r row, l !! r = Some row →
    validId numNodes r (link_left row) ∧ validId numNodes r (link_right row);
  sl_NoDup : NoDup (linkIds l);
  sl_nodes : ∀ i, i < numNodes → Z.of_nat (S i) ∈ linkIds l
}.

(** The object an id stands for, when the tree nodes of this build
    start at position [H] of the heap. *)
Definition refOf (numNodes H : nat) (id : Z) : ref :=
  if (id >? Z.of_nat numNodes)%Z
  then RTree (H + Z.to_nat (id - 1 - Z.of_nat numNodes))
  else RNode (Z.to_nat (id - 1)).

Definition parentIn (ns : list node) (h : list treeNode) (r : ref)
  : option nat :=
  match r with
  | RNode i => nodeParent ns i
  | RTree t => treeParent h t
  end.

Definition exists_in (ns : list node) (h : list treeNode) (r : ref) : Prop :=
  match r with
  | RNode i => i < length ns
  | RTree t => t < length h
  end.

#[global] Instance exists_in_dec ns h r : Decision (exists_in ns h r).
Proof. destruct r; cbn; apply _. Defined.

(** What the builder has built after the rows [done], when the heap
    held [H] tree nodes at the start. *)
Record treeBuilt (numNodes H : nat) (done : list linkageRow)
    (s : treeBuild) : Prop := TreeBuilt {
  tbt_nodes : length (tb_nodes s) = numNodes;
  tbt_heap : length (tb_heap s) = H + length done;
  tbt_treeNodes : tb_treeNodes s = seq H (length done);
  tbt_children : ∀ r row, done !! r = Some row →
    treeChildren (tb_heap s) (H + r)
    = [refOf numNodes H (link_left row); refOf numNodes H (link_right row)];
  tbt_parent : ∀ r row id,
    done !! r = Some row → id ∈ [link_left row; link_right row] →
    parentIn (tb_nodes s) (tb_heap s) (refOf numNodes H id) = Some (H + r);
  tbt_fresh : ∀ t,
    H ≤ t < H + length done →
    Z.of_nat (numNodes + 1 + (t - H)) ∉ linkIds done →
    treeParent (tb_heap s) t = None
}.

(** ** Indexed nodes *)

(** Every node sits at the position its [index] says. *)
Definition indexed (net : network) : Prop :=
  ∀ i n, nodes net !! i = Some n → node_index n = i.

(** ** Standard linkage tables, as a check that can be run *)

Definition standardLinkageCheck (numNodes : nat) (l : list linkageRow)
  : Prop :=
  Forall (λ x, validId numNodes x.1 (link_left x.2)
               ∧ validId numNodes x.1 (link_right x.2)) (imap pair l)
  ∧ NoDup (linkIds l)
  ∧ Forall (λ i, Z.of_nat (S i) ∈ linkIds l) (seq 0 numNodes).

#[global] Instance validId_dec n b id : Decision (validId n b id).
Proof. unfold validId. apply _. Defined.

#[global] Instance standardLinkageCheck_dec n l :
  Decision (standardLinkageCheck n l).
Proof. unfold standardLinkageCheck. apply _. Defined.

(** The four nodes with their linkage table. *)
Definition exampleLinked : network :=
  Network [newNode [] 0; newNode [] 1; newNode [] 2; newNode [] 3] [] []
    [] [] (Some exampleLinkage) passThrough 0 1 0 1 [] [] [] [] [] [] [].

(** ** Edges seen from a node *)

(** Three nodes and the thresholded matrix of the example, before the
    edges are built. *)
Definition exampleUnbuilt : network :=
  Network [newNode [] 0; newNode [] 1; newNode [] 2] [] []
    [exampleThresholded] ["M"] None passThrough 0 1 0 1 [] [] [] [] [] [] [].

(** The dendrogram of the four-node example, with a matrix of
    weights. *)
Definition exampleClustered : network :=
  Network (nodes exampleTree) [] [] [exampleFour] ["Z"] (Some exampleLinkage)
    passThrough 0 1 0 1 [] [] [] [] [] (treeNodes exampleTree)
    (heap exampleTree).

(** The two ends of an edge. *)
Definition ends (e : edge) : nat * nat := (edge_i e, edge_j e).

(** The end of an edge that is not [a]. *)
Definition otherEndOf (a : nat) (e : edge) : nat :=
  if decide (edge_i e = a) then edge_j e else edge_i e.

Definition incidentTo (a : nat) (e : edge) : Prop :=
  edge_i e = a ∨ edge_j e = a.

#[global] Instance incidentTo_dec a e : Decision (incidentTo a e).
Proof. unfold incidentTo. apply _. Defined.

(** The network of the four-node example, thresholded at 75 percent. *)
Definition exampleFourNetwork : network :=
  match createNetwork exampleStore75 0 [exampleFour] ["Z"] [] [] None
          thresholdMatrix 0 1 0 1 with
  | Ok net => net
  | Err _ => exampleFourNodes
  end.

(** ** Thresholds that suppress nothing *)


(** ** Ascending domains *)

(** [x <= y] on numbers. *)
Definition atMost (x y : float) : Prop := PrimFloat.leb x y = true.

(** The five points of a scale's domain, in ascending order. *)
Definition ascending (domain : list float) : Prop :=
  ∃ a b c d e, domain = [a; b; c; d; e]
    ∧ atMost a b ∧ atMost b c ∧ atMost c d ∧ atMost d e.

(** The scales of the view are the ones [genColourScales] makes from
    the statistics of the network. *)
Definition inSync (net : network) (v : view) : Prop :=
  genColourScales net (view_scaleInfo v) = view_scaleInfo v.

(** ** Proper dendrograms *)

(** The distance of the tree node at position [t] of the heap, as a
    number. *)
Definition distanceOf (net : network) (t : nat) : float :=
  num (heap net !! t ≫= tree_distance).

(** A dendrogram as hierarchical clustering makes it: well-formed,
    every node inside a cluster, at most one tree node without a
    parent, and every parent at a strictly greater distance than its
    child. *)
Record properDendrogram (net : network) : Prop := ProperDendrogram {
  pd_wellFormed : wellFormed net;
  pd_nodes : ∀ n, n ∈ nodes net → node_parent n ≠ None;
  pd_root : ∀ t1 t2, t1 ∈ treeNodes net → t2 ∈ treeNodes net →
    treeParent (heap net) t1 = None → treeParent (heap net) t2 = None →
    t1 = t2;
  pd_distance : ∀ t p, t ∈ treeNodes net →
    treeParent (heap net) t = Some p →
    PrimFloat.ltb (distanceOf net t) (distanceOf net p) = true
}.

(** A linkage table whose distances grow along the tree: the row that
    joins a tree node lies at a strictly greater distance than the row
    that made it. *)
Definition monotoneLinkage (numNodes : nat) (l : list linkageRow) : Prop :=
  ∀ r row id, l !! r = Some row → id ∈ [link_left row; link_right row] →
    (Z.of_nat numNodes < id)%Z →
    ∃ row', l !! Z.to_nat (id - 1 - Z.of_nat numNodes) = Some row'
      ∧ PrimFloat.ltb (num (link_distance row')) (num (link_distance row))
        = true.

Definition monotoneLinkageCheck (numNodes : nat) (l : list linkageRow)
  : Prop :=
  Forall (λ row,
    Forall (λ id,
      (Z.of_nat numNodes < id)%Z →
      match l !! Z.to_nat (id - 1 - Z.of_nat numNodes) with
      | Some row' =>
          PrimFloat.ltb (num (link_distance row')) (num (link_distance row))
          = true
      | None => False
      end) [link_left row; link_right row]) l.

#[global] Instance monotoneLinkageCheck_dec n l :
  Decision (monotoneLinkageCheck n l).
Proof.
  unfold monotoneLinkageCheck. apply Forall_dec. intros row.
  apply Forall_dec. intros id. apply impl_dec; [apply _|].
  destruct (l !! _); apply _.
Defined.

(** ** Data of one size *)

(** A matrix of [n] rows of [n] entries. *)
Definition squareOf (n : nat) (m : matrix) : Prop :=
  length m = n ∧ Forall (λ row, length row = n) m.

(** A data set of two texts: a matrix and a linkage table. *)
Definition exampleTexts (url : string) : option string :=
  if String.eqb url "Z.txt" then Some "Z"
  else if String.eqb url "linkage.txt" then Some "L"
  else None.

Definition exampleParse (text : string) : matrix :=
  if String.eqb text "Z" then exampleFour
  else if String.eqb text "L"
       then [[Some 1%float; Some 2%float; Some 0.5%float];
             [Some 3%float; Some 4%float; Some 1%float];
             [Some 5%float; Some 6%float; Some 2%float]]
       else [].

Definition exampleArgs : loadArgs :=
  LoadArgs ["Z.txt"] ["Z"] [] [] (Some "linkage.txt") thresholdMatrix 0 1.

(** ** The two builders side by side *)

(** What a builder has built, in the terms the two programs share: the
    edges, the two statistics the stand-alone script keeps, and for
    the nodes their neighbours, their edges, their names and their
    numbers counted from one. *)
Definition graphBuilt (s : edgeBuild)
  : list edge * list float * list float * list (list nat) * list (list edge)
    * list string * list nat :=
  (eb_edges s, eb_mins s, eb_maxs s, node_neighbours <$> eb_nodes s,
   node_edges <$> eb_nodes s, node_name <$> eb_nodes s,
   (λ n, node_index n + 1) <$> eb_nodes s).

Definition sgraphBuilt (s : Standalone.sbuild)
  : list edge * list float * list float * list (list nat) * list (list edge)
    * list string * list nat :=
  (Standalone.sb_edges s, Standalone.sb_mins s, Standalone.sb_maxs s,
   Standalone.snode_neighbours <$> Standalone.sb_nodes s,
   Standalone.snode_edges <$> Standalone.sb_nodes s,
   Standalone.snode_name <$> Standalone.sb_nodes s,
   Standalone.snode_index <$> Standalone.sb_nodes s).

Definition treeBuiltView (s : treeBuild)
  : list (option nat) * list (list ref) * list (option nat) * list nat :=
  (node_parent <$> tb_nodes s, tree_children <$> tb_heap s,
   tree_parent <$> tb_heap s, tb_treeNodes s).

Definition streeView (s : list Standalone.snode * list Standalone.stree)
  : list (option nat) * list (list ref) * list (option nat) * list nat :=
  (Standalone.snode_parent <$> s.1, Standalone.stree_children <$> s.2,
   Standalone.stree_parent <$> s.2, seq 0 (length s.2)).

(** Four nodes of the stand-alone script, without edges. *)
Definition exampleStandalone : Standalone.snetwork :=
  Standalone.SNetwork
    ((λ i, Standalone.SNode (i + 1) (pretty (i + 1)) None [] [] None)
       <$> seq 0 4)
    [] [] [] [].

(** Two outcomes that agree: both fail in the same way, or both
    return, values that [R] relates. *)
Definition agree {A B} (R : A → B → Prop) (x : result A) (y : result B)
  : Prop :=
  match x, y with
  | Ok a, Ok b => R a b
  | Err e, Err e' => e = e'
  | _, _ => False
  end.

(** * Properties *)

(** ** The outcome monad *)

Lemma bind_Ok {A B} (m : result A) (f : A → result B) (b : B) :
  m ≫= f = Ok b ↔ ∃ a, m = Ok a ∧ f a = Ok b.
Proof.
  destruct m as [a|e]; simpl.
  - split; [eauto | by intros (? & [= ->] & ?)].
  - split; [done | by intros (? & ? & ?)].
Qed.

Lemma deref_Ok {A} (o : option A) (a : A) : deref o = Ok a ↔ o = Some a.
Proof. destruct o; simpl; split; congruence. Qed.

Lemma mapM_total {A B} (f : A → result B) (g : A → B) (l : list A) :
  (∀ x, x ∈ l → f x = Ok (g x)) → mapM f l = Ok (g <$> l).
Proof.
  induction l as [|x l IH]; intros Hf; [done|].
  cbn. rewrite (Hf x) by left. cbn.
  rewrite IH; [done|]. intros y Hy. apply Hf. by right.
Qed.

Lemma mapM_Ok_lookup {A B} (f : A → result B) (l : list A) (k : list B) :
  mapM f l = Ok k →
  length k = length l ∧ ∀ i x, l !! i = Some x → ∃ y, k !! i = Some y ∧ f x = Ok y.
Proof.
  revert k. induction l as [|x l IH]; intros k H; cbn in H.
  - injection H as <-. split; [done|]. by intros [|?] ?.
  - apply bind_Ok in H as (y & Hy & H). apply bind_Ok in H as (k' & Hk' & H).
    injection H as <-. destruct (IH _ Hk') as [Hlen Hl].
    split; [cbn; by rewrite Hlen|].
    intros [|i] z Hz; simplify_eq/=; eauto.
Qed.

Lemma foldM_app {S B} (f : S → B → result S) (l1 l2 : list B) (s : S) :
  foldM f (l1 ++ l2) s = foldM f l1 s ≫= foldM f l2.
Proof.
  revert s. induction l1 as [|b l1 IH]; intros s; [done|].
  cbn. destruct (f s b); cbn; [apply IH | done].
Qed.

(** An invariant of a loop holds at its end if it holds at the start
    and every round that returns carries it over. *)
Lemma foldM_invariant {S B} (f : S → B → result S) (P : list B → S → Prop)
    (l : list B) (s0 s : S) :
  P [] s0 →
  (∀ done b rest s s', l = done ++ b :: rest →
     P done s → f s b = Ok s' → P (done ++ [b]) s') →
  foldM f l s0 = Ok s → P l s.
Proof.
  intros H0 Hstep.
  enough (∀ l' pre s1, l = pre ++ l' → P pre s1 → foldM f l' s1 = Ok s →
                       P (pre ++ l') s) as Hgen
    by (intros H; apply (Hgen l [] s0); done).
  induction l' as [|b l' IH]; intros pre s1 Hl Hpre H.
  - cbn in H. injection H as <-. by rewrite app_nil_r.
  - cbn in H. apply bind_Ok in H as (s2 & Hs2 & H).
    rewrite (cons_middle b pre l'), (assoc_L (++)).
    apply (IH _ s2); [by rewrite <-(assoc_L (++))| |done].
    by apply (Hstep pre b l' s1).
Qed.

(** A loop that fails fails in one of its rounds. *)
Lemma foldM_Err {S B} (f : S → B → result S) (l : list B) (s : S) (e : error) :
  foldM f l s = Err e → ∃ s' b, b ∈ l ∧ f s' b = Err e.
Proof.
  revert s. induction l as [|b l IH]; intros s H; [done|].
  cbn in H. destruct (f s b) as [s1|e1] eqn:Hf; cbn in H.
  - destruct (IH _ H) as (s' & b' & Hin & Hb'). exists s', b'.
    split; [by right|done].
  - injection H as <-. exists s, b. split; [by left|done].
Qed.

(** ** The threshold function (C2) *)

Lemma nodeThress_total (m : matrix) (p : float) :
  mapM (nodeThres (JNum p)) m
  = Ok ((λ row, PrimFloat.mul (num (rowMax row)) p) <$> m).
Proof. by apply mapM_total. Qed.

Lemma thresholdMatrix_total (m : matrix) (p : float) :
  thresholdMatrix (Some m) (Some [JNum p]) =
  Ok (imap (λ i row, imap (λ j v,
        thresholdCell ((λ row, PrimFloat.mul (num (rowMax row)) p) <$> m) i j v)
        row) m).
Proof. unfold thresholdMatrix. cbn. by rewrite nodeThress_total. Qed.

Lemma entry_lookup (m : matrix) (i j : nat) (row : list val) (v : val) :
  m !! i = Some row → row !! j = Some v → entry m i j = v.
Proof. intros Hi Hj. unfold entry. rewrite Hi. simpl. by rewrite Hj. Qed.

(** C2, as the specification states it, fails on a matrix that is not
    symmetric: with [p = 0.5] both row maxima are [10], the entry at
    [0][1] (value [1]) is below the threshold [5], so the
    specification's test suppresses [1][0] as well; the code keeps it
    (value [9]), and the result is not symmetric. *)
Lemma thresholdMatrix_not_symmetric :
  thresholdMatrix (Some exampleAsym) (Some [JNum 0.5%float])
  = Ok [[Some 10%float; Some NaN]; [Some 9%float; Some 10%float]]
  ∧ suppressedBySpec exampleAsym 0.5%float 1 0 = true
  ∧ suppressedByCode exampleAsym 0.5%float 1 0 = false
  ∧ suppressedByCode exampleAsym 0.5%float 0 1 = true.
Proof. repeat split; vm_compute; reflexivity. Qed.

(** C2, amended: [thresholdMatrix] with percentage [p] returns a matrix
    whose entry at [i][j] is NaN when the absolute value of
    [matrix[i][j]] is below [rowMax_i * p] or below [rowMax_j * p], and
    is [matrix[i][j]] otherwise.  Where [|matrix[j][i]| = |matrix[i][j]|]
    (a symmetric input) this is the specification's test, and the entry
    at [j][i] is suppressed exactly when the entry at [i][j] is. *)
Theorem thresholdMatrix_entry (m : matrix) (p : float) (i j : nat)
    (row : list val) (v : val) :
  m !! i = Some row → row !! j = Some v →
  ∃ tm, thresholdMatrix (Some m) (Some [JNum p]) = Ok tm
    ∧ tm !! i ≫= (.!! j)
      = Some (if suppressedByCode m p i j then Some NaN else v)
    ∧ (absval (entry m j i) = absval (entry m i j) →
       suppressedByCode m p i j = suppressedBySpec m p i j
       ∧ suppressedByCode m p j i = suppressedByCode m p i j).
Proof.
  intros Hi Hj. rewrite thresholdMatrix_total. eexists. split; [done|].
  split.
  - rewrite list_lookup_imap, Hi. simpl. rewrite list_lookup_imap, Hj. simpl.
    unfold thresholdCell, suppresses, suppressedByCode, rowThres.
    rewrite (entry_lookup m i j row v Hi Hj), !list_lookup_fmap.
    done.
  - intros Habs. unfold suppressedByCode, suppressedBySpec.
    rewrite Habs. split; [done | apply orb_comm].
Qed.

Lemma thresholdMatrix_entry_witness :
  ∃ tm, thresholdMatrix (Some exampleSym) (Some [JNum 0.5%float]) = Ok tm
    ∧ tm !! 0 ≫= (.!! 1)
      = Some (if suppressedByCode exampleSym 0.5%float 0 1
              then Some NaN else Some 1%float)
    ∧ (absval (entry exampleSym 1 0) = absval (entry exampleSym 0 1) →
       suppressedByCode exampleSym 0.5%float 0 1
       = suppressedBySpec exampleSym 0.5%float 0 1
       ∧ suppressedByCode exampleSym 0.5%float 1 0
         = suppressedByCode exampleSym 0.5%float 0 1).
Proof.
  apply (thresholdMatrix_entry exampleSym 0.5%float 0 1
           [Some 10%float; Some 1%float] (Some 1%float)); reflexivity.
Defined.

(** ** The graph builder ([thresholdNetwork]) *)

Lemma elem_of_pairs (n i j : nat) : (i, j) ∈ pairs n ↔ i < j < n.
Proof.
  unfold pairs. rewrite list_elem_of_bind. split.
  - intros (a & Hj & Ha). apply list_elem_of_bind in Hj as (b & Hb & Hj).
    apply list_elem_of_singleton in Hb. injection Hb as -> ->.
    apply elem_of_seq in Ha, Hj. lia.
  - intros Hij. exists i. split; [|apply elem_of_seq; lia].
    apply list_elem_of_bind. exists j. split; [by left|].
    apply elem_of_seq. lia.
Qed.

Lemma cell_Ok (m : matrix) (i j : nat) (v : val) :
  cell m i j = Ok v → v = entry m i j.
Proof.
  unfold cell, entry. intros H. apply bind_Ok in H as (row & Hrow & H).
  apply deref_Ok in Hrow. rewrite Hrow. simpl. by injection H as <-.
Qed.

Lemma weights_Ok (mats : list matrix) (i j : nat) (ws : list val) :
  mapM (λ mat, cell mat i j) mats = Ok ws →
  ws = (λ m, entry m i j) <$> mats.
Proof.
  revert ws. induction mats as [|m mats IH]; intros ws H; cbn in H.
  - by injection H as <-.
  - apply bind_Ok in H as (v & Hv & H). apply bind_Ok in H as (ws' & Hws & H).
    injection H as <-. apply cell_Ok in Hv as ->. by rewrite (IH _ Hws).
Qed.

Lemma kept_snoc (tm : matrix) (ps : list (nat * nat)) (ij : nat * nat) :
  kept tm (ps ++ [ij])
  = kept tm ps ++ (if isNaN (entry tm ij.1 ij.2) then [] else [ij]).
Proof.
  unfold kept. rewrite filter_app. f_equal.
  rewrite filter_cons, filter_nil.
  destruct (isNaN (entry tm ij.1 ij.2)); by case_decide.
Qed.

Lemma statsOf_snoc upd pre (mats : list matrix) init ps ij :
  statsOf upd pre mats init (ps ++ [ij])
  = zip_with upd (pre <$> edge_weights (edgeOf mats ij))
             (statsOf upd pre mats init ps).
Proof. unfold statsOf. by rewrite foldl_app. Qed.

Lemma built_start (mats : list matrix) (tm : matrix) (s0 : edgeBuild) :
  built mats tm s0 [] s0.
Proof.
  split; unfold kept, statsOf; rewrite ?filter_nil; cbn;
    rewrite ?app_nil_r; try done.
  intros a n Hn. exists n. by rewrite !app_nil_r.
Qed.

Lemma edgeStep_built (mats : list matrix) (tm : matrix) (s0 s s' : edgeBuild)
    (done : list (nat * nat)) (i j : nat) :
  i < j →
  built mats tm s0 done s →
  edgeStep mats tm s (i, j) = Ok s' →
  built mats tm s0 (done ++ [(i, j)]) s'.
Proof.
  intros Hij [He Hlen Hn Hmin Hmax Hamin Hamax] Hstep.
  unfold edgeStep in Hstep.
  apply bind_Ok in Hstep as (v & Hv & Hstep). apply cell_Ok in Hv as ->.
  pose proof (kept_snoc tm done (i, j)) as Hk. cbn [fst snd] in Hk.
  destruct (isNaN (entry tm i j)) eqn:Hnan.
  { injection Hstep as <-. rewrite app_nil_r in Hk.
    split; rewrite ?Hk; done. }
  apply bind_Ok in Hstep as (ws & Hws & Hstep). apply weights_Ok in Hws as ->.
  injection Hstep as <-.
  split; rewrite ?Hk; cbn [eb_edges eb_nodes eb_mins eb_maxs eb_absMins eb_absMaxs].
  - rewrite He, fmap_app, (assoc_L (++)). done.
  - by rewrite !length_alter.
  - intros a n Ha.
    rewrite omap_app, filter_app, fmap_app. cbn [omap list_omap].
    rewrite filter_cons, filter_nil. unfold otherEnd at 2. cbn [fst snd].
    destruct (decide (a = j)) as [->|Hj].
    + rewrite list_lookup_alter_eq, list_lookup_alter_ne in Ha by lia.
      destruct (eb_nodes s !! j) as [n1|] eqn:Hn1; [|done].
      injection Ha as <-. destruct (Hn j n1 Hn1) as (n0 & ? & ? & ? & ? & ? & ? & Hnb & Hed).
      exists n0. repeat (split; [done|]). cbn.
      rewrite Hnb, Hed, <-!(assoc_L (++)).
      rewrite decide_False by lia. rewrite decide_True by done.
      rewrite decide_True by (right; done). done.
    + rewrite list_lookup_alter_ne in Ha by done.
      destruct (decide (a = i)) as [->|Hi].
      * rewrite list_lookup_alter_eq in Ha.
        destruct (eb_nodes s !! i) as [n1|] eqn:Hn1; [|done].
        injection Ha as <-. destruct (Hn i n1 Hn1) as (n0 & ? & ? & ? & ? & ? & ? & Hnb & Hed).
        exists n0. repeat (split; [done|]). cbn.
        rewrite Hnb, Hed, <-!(assoc_L (++)).
        rewrite decide_True by done.
        rewrite decide_True by (left; done). done.
      * rewrite list_lookup_alter_ne in Ha by done.
        destruct (Hn a n Ha) as (n0 & ? & ? & ? & ? & ? & ? & Hnb & Hed).
        exists n0. repeat (split; [done|]).
        rewrite Hnb, Hed.
        rewrite !decide_False by (unfold incident; cbn; lia).
        cbn. by rewrite !app_nil_r.
  - rewrite statsOf_snoc, <-Hmin. cbn. by rewrite list_fmap_id.
  - rewrite statsOf_snoc, <-Hmax. cbn. by rewrite list_fmap_id.
  - by rewrite statsOf_snoc, <-Hamin.
  - by rewrite statsOf_snoc, <-Hamax.
Qed.

Lemma cell_total (m : matrix) (i j : nat) :
  i < length m → cell m i j = Ok (entry m i j).
Proof.
  intros Hi. apply lookup_lt_is_Some_2 in Hi as [row Hrow].
  unfold cell, entry. by rewrite Hrow.
Qed.

Lemma edgeStep_NaN (mats : list matrix) (tm : matrix) (s : edgeBuild)
    (i j : nat) :
  i < length tm → isNaN (entry tm i j) = true →
  edgeStep mats tm s (i, j) = Ok s.
Proof.
  intros Hi Hnan. unfold edgeStep. rewrite (cell_total _ _ _ Hi). cbn.
  by rewrite Hnan.
Qed.

Lemma edgeStep_total (mats : list matrix) (tm : matrix) (s : edgeBuild)
    (i j : nat) :
  i < length tm →
  (isNaN (entry tm i j) = false → Forall (λ m, i < length m) mats) →
  ∃ s', edgeStep mats tm s (i, j) = Ok s'.
Proof.
  intros Hi Hm. destruct (isNaN (entry tm i j)) eqn:Hnan.
  { exists s. by apply edgeStep_NaN. }
  unfold edgeStep. rewrite (cell_total _ _ _ Hi). cbn. rewrite Hnan.
  rewrite (mapM_total _ (λ m, entry m i j)); [by eexists|].
  intros m Hin. apply cell_total.
  by apply (proj1 (Forall_forall _ _) (Hm eq_refl)).
Qed.

(** The loop returns when every row it indexes is there. *)
Lemma edgeLoop_total (mats : list matrix) (tm : matrix)
    (ps : list (nat * nat)) (s : edgeBuild) :
  (∀ i j, (i, j) ∈ ps →
     i < length tm
     ∧ (isNaN (entry tm i j) = false → Forall (λ m, i < length m) mats)) →
  ∃ s', foldM (edgeStep mats tm) ps s = Ok s'.
Proof.
  revert s. induction ps as [|[i j] ps IH]; intros s Hps; [by eexists|].
  destruct (Hps i j) as [Hi Hm]; [by left|].
  destruct (edgeStep_total mats tm s i j Hi Hm) as [s1 Hs1].
  cbn [foldM]. rewrite Hs1. cbn.
  apply IH. intros a b Hab. apply Hps. by right.
Qed.

Lemma thresholdNetwork_built (σ : store) (net net' : network) (tm : matrix) :
  thresholded σ net = Ok tm →
  thresholdNetwork σ net = Ok net' →
  ∃ s, net' = with_edges s net
     ∧ built (matrices net) tm (edgeBuild0 net)
             (pairs (length (nodes net))) s.
Proof.
  intros Htm H. unfold thresholdNetwork in H. rewrite Htm in H. cbn in H.
  apply bind_Ok in H as (s & Hs & H). injection H as <-.
  exists s. split; [done|].
  revert Hs. apply foldM_invariant; [apply built_start|].
  intros done [i j] rest s1 s2 Hl Hb Hstep.
  assert ((i, j) ∈ pairs (length (nodes net))) as Hin
    by (rewrite Hl; apply elem_of_app; right; by left).
  apply elem_of_pairs in Hin. apply (edgeStep_built _ _ _ s1); [lia|done..].
Qed.

Lemma edgeBuild0_lookup (net : network) (a : nat) (n0 : node) :
  eb_nodes (edgeBuild0 net) !! a = Some n0 →
  node_neighbours n0 = [] ∧ node_edges n0 = []
  ∧ ∃ n, nodes net !! a = Some n ∧ n0 = clear_edges n.
Proof.
  cbn. rewrite list_lookup_fmap. destruct (nodes net !! a) as [n|]; [|done].
  intros [= <-]. eauto.
Qed.

(** The outcome of [thresholdNetwork], field by field. *)
Lemma thresholdNetwork_spec (σ : store) (net net' : network) (tm : matrix) :
  thresholded σ net = Ok tm →
  thresholdNetwork σ net = Ok net' →
  let ps := kept tm (pairs (length (nodes net))) in
  edges net' = edgeOf (matrices net) <$> ps
  ∧ length (nodes net') = length (nodes net)
  ∧ (∀ a n', nodes net' !! a = Some n' →
       node_neighbours n' = omap (otherEnd a) ps
       ∧ node_edges n' = edgeOf (matrices net) <$> filter (incident a) ps
       ∧ ∃ n, nodes net !! a = Some n
           ∧ node_index n' = node_index n ∧ node_name n' = node_name n
           ∧ node_parent n' = node_parent n
           ∧ node_fullNetIndex n' = node_fullNetIndex n)
  ∧ matrices net' = matrices net
  ∧ thresholdValues net' = thresholdValues net
  ∧ thresholdIdx net' = thresholdIdx net
  ∧ thresholdFunc net' = thresholdFunc net
  ∧ linkage net' = linkage net ∧ numClusters net' = numClusters net
  ∧ treeNodes net' = treeNodes net ∧ heap net' = heap net.
Proof.
  intros Htm H ps.
  destruct (thresholdNetwork_built _ _ _ _ Htm H) as (s & -> & [He Hlen Hn _ _ _ _]).
  split; [cbn [with_edges edges]; by rewrite He|].
  split; [cbn [with_edges nodes]; rewrite Hlen; apply length_fmap|].
  split; [|done]. cbn [with_edges nodes].
  intros a n' Ha. destruct (Hn a n' Ha) as (n0 & Hn0 & ? & ? & ? & ? & ? & Hnb & Hed).
  apply edgeBuild0_lookup in Hn0 as (Hnb0 & Hed0 & n & Hn' & ->).
  rewrite Hnb0 in Hnb. rewrite Hed0 in Hed.
  repeat split; [done..|]. exists n. done.
Qed.

Lemma elem_of_kept (tm : matrix) (n i j : nat) :
  (i, j) ∈ kept tm (pairs n) ↔ i < j < n ∧ isNaN (entry tm i j) = false.
Proof.
  unfold kept. rewrite list_elem_of_filter, elem_of_pairs. cbn. tauto.
Qed.

Lemma otherEnd_Some (a b : nat) (ij : nat * nat) :
  ij.1 ≠ ij.2 →
  otherEnd a ij = Some b ↔ ij = (a, b) ∨ ij = (b, a).
Proof.
  destruct ij as [i j]. cbn. intros Hne. unfold otherEnd. cbn.
  repeat case_decide; split; intros Hx; simplify_eq; try tauto;
    destruct Hx; simplify_eq; done.
Qed.

Section thresholded_network.

Context (σ : store) (net net' : network) (tm : matrix).
Context (Htm : thresholded σ net = Ok tm).
Context (Hnet' : thresholdNetwork σ net = Ok net').

Let N := length (nodes net).

Lemma edge_iff (e : edge) :
  e ∈ edges net' ↔
  edge_i e < edge_j e < N
  ∧ isNaN (entry tm (edge_i e) (edge_j e)) = false
  ∧ edge_weights e
    = (λ m, entry m (edge_i e) (edge_j e)) <$> matrices net.
Proof.
  destruct (thresholdNetwork_spec _ _ _ _ Htm Hnet') as (-> & _).
  rewrite list_elem_of_fmap. split.
  - intros ([i j] & -> & Hin). apply elem_of_kept in Hin. cbn. tauto.
  - intros (Hij & Hnan & Hw). exists (edge_i e, edge_j e). split.
    + destruct e as [i j w]. cbn in *. by rewrite Hw.
    + by apply elem_of_kept.
Qed.

Lemma hasEdge_iff (a b : nat) :
  hasEdge net' a b ↔
  (a, b) ∈ kept tm (pairs N) ∨ (b, a) ∈ kept tm (pairs N).
Proof.
  unfold hasEdge, joins. setoid_rewrite edge_iff.
  rewrite !elem_of_kept. split.
  - intros (e & (Hij & Hnan & _) & [[<- <-]|[<- <-]]); tauto.
  - intros [[Hij Hnan]|[Hij Hnan]].
    + exists (edgeOf (matrices net) (a, b)). cbn. tauto.
    + exists (edgeOf (matrices net) (b, a)). cbn. tauto.
Qed.

Lemma neighbour_iff (a b : nat) :
  neighbour net' a b ↔
  (a, b) ∈ kept tm (pairs N) ∨ (b, a) ∈ kept tm (pairs N).
Proof.
  destruct (thresholdNetwork_spec _ _ _ _ Htm Hnet') as (_ & Hlen & Hn & _).
  unfold neighbour. split.
  - intros (n' & Hn' & Hb). destruct (Hn a n' Hn') as (Hnb & _).
    rewrite Hnb in Hb. apply list_elem_of_omap in Hb as ([i j] & Hin & Ho).
    pose proof Hin as Hij. apply elem_of_kept in Hij.
    apply otherEnd_Some in Ho as [[= -> ->]|[= -> ->]]; [tauto..|cbn; lia].
  - intros Hab.
    assert (a < N) as Ha by (rewrite !elem_of_kept in Hab; lia).
    unfold N in Ha. rewrite <-Hlen in Ha.
    apply lookup_lt_is_Some_2 in Ha as [n' Hn'].
    exists n'. split; [done|]. destruct (Hn a n' Hn') as (-> & _).
    apply list_elem_of_omap. destruct Hab as [Hab|Hab].
    + exists (a, b). split; [done|]. apply otherEnd_Some; [|by left].
      apply elem_of_kept in Hab. cbn. lia.
    + exists (b, a). split; [done|]. apply otherEnd_Some; [|by right].
      apply elem_of_kept in Hab. cbn. lia.
Qed.

End thresholded_network.

Lemma thresholdNetwork_total (σ : store) (net : network) (tm : matrix) :
  thresholded σ net = Ok tm →
  (∀ i j, i < j < length (nodes net) →
     i < length tm
     ∧ (isNaN (entry tm i j) = false →
        Forall (λ m, i < length m) (matrices net))) →
  ∃ net', thresholdNetwork σ net = Ok net'.
Proof.
  intros Htm Hrows. unfold thresholdNetwork. rewrite Htm. cbn.
  destruct (edgeLoop_total (matrices net) tm (pairs (length (nodes net)))
              (edgeBuild0 net)) as [s Hs].
  { intros i j Hin. apply Hrows. by apply elem_of_pairs. }
  rewrite Hs. by eexists.
Qed.

(** C1.  When the thresholded matrix and the raw matrices have a row
    for every node, the graph builder returns, and for [i < j] it has
    created an edge for [(i, j)] exactly when the thresholded entry at
    [i][j] is not NaN; the weight vector of that edge holds, for each
    matrix, its raw entry at [i][j]; all in all the edges are those of
    the kept pairs, once each, in the order of the loops.  The matrix
    [[0,5,NaN],[5,0,1],[NaN,1,0]] yields the edges [(0,1)] of weight
    [5] and [(1,2)] of weight [1], node 0 with the neighbour 1 and
    node 1 with the neighbours 0 and 2. *)
Theorem graph_builder_edges :
  (∀ (σ : store) (net : network) (tm : matrix),
     thresholded σ net = Ok tm →
     Forall (λ m, length (nodes net) ≤ length m) (tm :: matrices net) →
     ∃ net', thresholdNetwork σ net = Ok net'
       ∧ edges net'
         = edgeOf (matrices net) <$> kept tm (pairs (length (nodes net)))
       ∧ ∀ i j, i < j < length (nodes net) →
           ((∃ e, e ∈ edges net' ∧ edge_i e = i ∧ edge_j e = j)
            ↔ isNaN (entry tm i j) = false)
           ∧ (∀ e, e ∈ edges net' → edge_i e = i → edge_j e = j →
                edge_weights e = (λ m, entry m i j) <$> matrices net))
  ∧ (∃ net, exampleNetwork = Ok net
       ∧ edges net = [Edge 0 1 [Some 5%float]; Edge 1 2 [Some 1%float]]
       ∧ node_neighbours <$> nodes net = [[1]; [0; 2]; [1]]).
Proof.
  split.
  - intros σ net tm Htm Hrows. apply Forall_cons in Hrows as [Hrtm Hrm].
    destruct (thresholdNetwork_total σ net tm Htm) as [net' Hnet'].
    { intros i j Hij. split; [lia|]. intros _.
      eapply Forall_impl; [exact Hrm|]. cbn. intros; lia. }
    exists net'. split; [done|].
    split; [apply (thresholdNetwork_spec _ _ _ _ Htm Hnet')|].
    intros i j Hij. split.
    + split.
      * intros (e & He & <- & <-).
        by apply (edge_iff _ _ _ _ Htm Hnet') in He as (_ & ? & _).
      * intros Hnan. exists (edgeOf (matrices net) (i, j)).
        split; [|done]. by apply (edge_iff _ _ _ _ Htm Hnet').
    + intros e He <- <-.
      by apply (edge_iff _ _ _ _ Htm Hnet') in He as (_ & _ & ?).
  - eexists. split; [vm_compute; reflexivity|]. split; reflexivity.
Qed.

Lemma graph_builder_edges_witness :
  ∃ net', thresholdNetwork [[]; []]
            (Network [newNode [] 0; newNode [] 1; newNode [] 2] [] []
               [exampleThresholded] ["M"] None passThrough 0 1 0 1
               [] [] [] [] [] [] []) = Ok net'
    ∧ edges net'
      = edgeOf [exampleThresholded] <$> kept exampleThresholded (pairs 3)
    ∧ ∀ i j, i < j < 3 →
        ((∃ e, e ∈ edges net' ∧ edge_i e = i ∧ edge_j e = j)
         ↔ isNaN (entry exampleThresholded i j) = false)
        ∧ (∀ e, e ∈ edges net' → edge_i e = i → edge_j e = j →
             edge_weights e = (λ m, entry m i j) <$> [exampleThresholded]).
Proof.
  apply (proj1 graph_builder_edges [[]; []]
           (Network [newNode [] 0; newNode [] 1; newNode [] 2] [] []
              [exampleThresholded] ["M"] None passThrough 0 1 0 1
              [] [] [] [] [] [] []) exampleThresholded).
  - reflexivity.
  - repeat constructor.
Defined.

(** ** No edge at all (C9) *)

Lemma offDiagonalNaN_spec (n : nat) (tm : matrix) (i j : nat) :
  offDiagonalNaN n tm = true → i < n → j < n → i ≠ j →
  i < length tm ∧ isNaN (entry tm i j) = true.
Proof.
  unfold offDiagonalNaN. rewrite forallb_forall. intros H Hi Hj Hne.
  specialize (H i). rewrite forallb_forall in H.
  specialize (H ltac:(apply in_seq; lia) j ltac:(apply in_seq; lia)).
  apply orb_prop in H as [H|H]; [apply Nat.eqb_eq in H; lia|].
  unfold entry. destruct (tm !! i) as [row|] eqn:Hrow; [|done].
  split; [by eapply lookup_lt_Some|]. cbn in *.
  by destruct (row !! j) as [[x|]|].
Qed.

(** C9.  When every off-diagonal entry of the thresholded matrix is
    NaN, the graph builder returns, creates no edge, and leaves every
    per-matrix statistic at the value it was initialised with:
    [Number.MAX_VALUE] for the minimum and the absolute minimum,
    [-Number.MAX_VALUE] for the maximum and the absolute maximum. *)
Theorem no_edges_sentinels (σ : store) (net : network) (tm : matrix) :
  thresholded σ net = Ok tm →
  offDiagonalNaN (length (nodes net)) tm = true →
  ∃ net', thresholdNetwork σ net = Ok net'
    ∧ edges net' = []
    ∧ matrixMins net' = replicate (length (matrices net)) MAX_VALUE
    ∧ matrixAbsMins net' = replicate (length (matrices net)) MAX_VALUE
    ∧ matrixMaxs net'
      = replicate (length (matrices net)) (- MAX_VALUE)%float
    ∧ matrixAbsMaxs net'
      = replicate (length (matrices net)) (- MAX_VALUE)%float.
Proof.
  intros Htm Hnan.
  assert (kept tm (pairs (length (nodes net))) = []) as Hkept.
  { apply elem_of_nil_inv. intros [i j] Hin. apply elem_of_kept in Hin as [Hij Hk].
    destruct (offDiagonalNaN_spec _ _ i j Hnan) as [_ Hn]; [lia..|].
    congruence. }
  destruct (thresholdNetwork_total σ net tm Htm) as [net' Hnet'].
  { intros i j Hij.
    destruct (offDiagonalNaN_spec _ _ i j Hnan) as [Hi Hn]; [lia..|].
    split; [done|]. congruence. }
  exists net'. split; [done|].
  destruct (thresholdNetwork_built _ _ _ _ Htm Hnet')
    as (s & -> & [He _ _ Hmin Hmax Hamin Hamax]).
  rewrite Hkept in *. cbn [with_edges edges matrixMins matrixMaxs matrixAbsMins matrixAbsMaxs].
  rewrite He, Hmin, Hmax, Hamin, Hamax. done.
Qed.

Lemma no_edges_sentinels_witness :
  ∃ net', thresholdNetwork [[]; []]
            (Network [newNode [] 0; newNode [] 1] [] []
               [exampleAllNaN] ["M"] None passThrough 0 1 0 1
               [] [] [] [] [] [] []) = Ok net'
    ∧ edges net' = []
    ∧ matrixMins net' = replicate 1 MAX_VALUE
    ∧ matrixAbsMins net' = replicate 1 MAX_VALUE
    ∧ matrixMaxs net' = replicate 1 (- MAX_VALUE)%float
    ∧ matrixAbsMaxs net' = replicate 1 (- MAX_VALUE)%float.
Proof.
  apply (no_edges_sentinels [[]; []]
           (Network [newNode [] 0; newNode [] 1] [] []
              [exampleAllNaN] ["M"] None passThrough 0 1 0 1
              [] [] [] [] [] [] []) exampleAllNaN); reflexivity.
Defined.

(** ** What the dendrogram functions leave alone

    Building and flattening the dendrogram only writes the [parent] of
    nodes and tree nodes, the children of tree nodes and
    [network.treeNodes]. *)

Lemma forgetParent_alter (p : option nat) (i : nat) (ns : list node) :
  forgetParent <$> alter (set_node_parent p) i ns = forgetParent <$> ns.
Proof.
  rewrite (list_fmap_alter _ _ id); [by apply list_alter_id|].
  by apply Forall_forall.
Qed.

Lemma reparent_forgetParent (parent : nat) (s : list node * list treeNode)
    (child : ref) :
  forgetParent <$> (reparent parent s child).1 = forgetParent <$> s.1.
Proof.
  destruct s as [ns h], child as [i|t]; cbn; [apply forgetParent_alter|done].
Qed.

Lemma foldl_reparent_forgetParent (parent : nat) (children : list ref)
    (s : list node * list treeNode) :
  forgetParent <$> (foldl (reparent parent) s children).1
  = forgetParent <$> s.1.
Proof.
  revert s. induction children as [|c cs IH]; intros s; [done|].
  cbn [foldl]. by rewrite IH, reparent_forgetParent.
Qed.

Lemma graphOf_with_tree (net : network) ns tns h :
  forgetParent <$> ns = forgetParent <$> nodes net →
  graphOf (with_tree ns tns h net) = graphOf net.
Proof. intros H. unfold graphOf, with_tree, with_numClusters. cbn. by rewrite H. Qed.

Lemma squeeze_graphOf (net net' : network) (clusters : list (option nat)) :
  squeeze net clusters = Ok net' → graphOf net' = graphOf net.
Proof.
  unfold squeeze. intros H.
  apply bind_Ok in H as (distances & _ & H).
  apply bind_Ok in H as (clust & _ & H). apply bind_Ok in H as (c & _ & H).
  apply bind_Ok in H as (parent & _ & H). apply bind_Ok in H as (p & _ & H).
  apply bind_Ok in H as (c' & _ & H).
  match type of H with
  | (let '(_, _) := ?f in _) = _ =>
      pose proof (foldl_reparent_forgetParent parent (tree_children c')
                    (nodes net, alter (set_tree_children
                       (splice1 (tree_children p)
                          (indexOf (λ a b, bool_decide (a = b))
                             (tree_children p) (RTree clust))))
                       parent (heap net))) as Hf;
      destruct f as [ns h]
  end.
  injection H as <-. by apply graphOf_with_tree.
Qed.

Lemma flattenDendrogramTree_graphOf (fuel : nat) (net net' : network) (k : Z) :
  flattenDendrogramTree fuel net k = Ok net' → graphOf net' = graphOf net.
Proof.
  revert net. induction fuel as [|fuel IH]; intros net H; cbn in H.
  - destruct (_ >? _)%Z; [done|]. by injection H as <-.
  - destruct (_ >? _)%Z; [|by injection H as <-].
    apply bind_Ok in H as (net1 & H1 & H).
    rewrite (IH _ H). by apply squeeze_graphOf in H1.
Qed.

Lemma set_parent_forgetParent (r : ref) (p : nat)
    (s : list node * list treeNode) :
  forgetParent <$> (set_parent r p s).1 = forgetParent <$> s.1.
Proof. destruct r; cbn; [apply forgetParent_alter|done]. Qed.

Lemma linkStep_forgetParent (numNodes : nat) (s s' : treeBuild)
    (ir : nat * linkageRow) :
  linkStep numNodes s ir = Ok s' →
  forgetParent <$> tb_nodes s' = forgetParent <$> tb_nodes s.
Proof.
  destruct ir as [i row]. unfold linkStep. intros H.
  apply bind_Ok in H as (left & _ & H). apply bind_Ok in H as (right & _ & H).
  assert (forgetParent <$>
            (set_parent right (length (tb_heap s))
               (set_parent left (length (tb_heap s))
                  (tb_nodes s, tb_heap s))).1
          = forgetParent <$> tb_nodes s) as Hr
    by (by rewrite !set_parent_forgetParent).
  destruct (set_parent right _ _) as [ns h]. injection H as <-. exact Hr.
Qed.

Lemma makeNetworkDendrogramTree_graphOf (net net' : network)
    (linkages : list linkageRow) :
  makeNetworkDendrogramTree net linkages = Ok net' →
  graphOf net' = graphOf net.
Proof.
  unfold makeNetworkDendrogramTree. intros H.
  apply bind_Ok in H as (s & Hs & H). injection H as <-.
  apply graphOf_with_tree.
  revert Hs.
  apply (foldM_invariant _
           (λ _ s, forgetParent <$> tb_nodes s = forgetParent <$> nodes net));
    [done|].
  intros done ir rest s1 s2 _ H1 Hstep.
  by rewrite (linkStep_forgetParent _ _ _ _ Hstep).
Qed.

Lemma setNumClusters_graphOf (fuel : nat) (net net' : network) (k : Z) :
  setNumClusters fuel net k = Ok net' → graphOf net' = graphOf net.
Proof.
  unfold setNumClusters. destruct (linkage net) as [l|]; [|by intros [= <-]].
  intros H. apply bind_Ok in H as (net1 & H1 & H).
  apply bind_Ok in H as (net2 & H2 & H). injection H as <-.
  apply makeNetworkDendrogramTree_graphOf in H1.
  apply flattenDendrogramTree_graphOf in H2.
  by rewrite <-H1, <-H2.
Qed.

(** ** Symmetry (C5) *)

Lemma neighbour_adjacency (net : network) (a b : nat) :
  neighbour net a b ↔
  ∃ l, (adjacency net).2 !! a = Some l ∧ b ∈ l.
Proof.
  unfold neighbour, adjacency. cbn. rewrite list_lookup_fmap. split.
  - intros (n & -> & Hb). eauto.
  - intros (l & Hl & Hb). destruct (nodes net !! a) as [n|]; [|done].
    injection Hl as <-. eauto.
Qed.

Lemma symmetric_adjacency (net net' : network) :
  adjacency net' = adjacency net → symmetric net → symmetric net'.
Proof.
  intros Hadj Hsym a b.
  assert (∀ x y, hasEdge net' x y ↔ hasEdge net x y) as He.
  { intros x y. unfold hasEdge.
    by replace (edges net') with (edges net) by (by injection Hadj). }
  assert (∀ x y, neighbour net' x y ↔ neighbour net x y) as Hn.
  { intros x y. by rewrite !neighbour_adjacency, Hadj. }
  rewrite !He, !Hn. apply Hsym.
Qed.

Lemma graphOf_adjacency (net net' : network) :
  graphOf net' = graphOf net → adjacency net' = adjacency net.
Proof.
  intros H. unfold adjacency. f_equal.
  - exact (f_equal edges H).
  - apply (f_equal nodes) in H. cbn in H.
    apply (f_equal (fmap node_neighbours)) in H.
    by rewrite <-!list_fmap_compose in H.
Qed.

Lemma thresholdNetwork_thresholded (σ : store) (net net' : network) :
  thresholdNetwork σ net = Ok net' → ∃ tm, thresholded σ net = Ok tm.
Proof. intros H. apply bind_Ok in H as (tm & ? & _). eauto. Qed.

Lemma thresholdNetwork_symmetric (σ : store) (net net' : network) :
  thresholdNetwork σ net = Ok net' → symmetric net'.
Proof.
  intros H. destruct (thresholdNetwork_thresholded _ _ _ H) as [tm Htm].
  intros a b.
  rewrite !(hasEdge_iff _ _ _ _ Htm H), !(neighbour_iff _ _ _ _ Htm H).
  tauto.
Qed.

Lemma setNumClusters_symmetric (fuel : nat) (net net' : network) (k : Z) :
  setNumClusters fuel net k = Ok net' → symmetric net → symmetric net'.
Proof.
  intros H. apply symmetric_adjacency, graphOf_adjacency.
  by apply setNumClusters_graphOf in H.
Qed.

Lemma createNetwork_inv (σ : store) (fuel : nat) ms mls nd ndls lk tf tv tvl
    ti nc (net : network) :
  createNetwork σ fuel ms mls nd ndls lk tf tv tvl ti nc = Ok net →
  ∃ first net1,
    ms !! 0 = Some first
    ∧ thresholdNetwork σ
        (Network (newNode nd <$> seq 0 (length first)) nd ndls ms mls lk tf
           tv tvl ti nc [] [] [] [] [] [] []) = Ok net1
    ∧ setNumClusters fuel net1 nc = Ok net.
Proof.
  unfold createNetwork. intros H. apply bind_Ok in H as (first & Hf & H).
  apply deref_Ok in Hf. apply bind_Ok in H as (net1 & H1 & H). eauto.
Qed.

Lemma createNetwork_symmetric (σ : store) (fuel : nat) ms mls nd ndls lk tf
    tv tvl ti nc (net : network) :
  createNetwork σ fuel ms mls nd ndls lk tf tv tvl ti nc = Ok net →
  symmetric net.
Proof.
  intros H. apply createNetwork_inv in H as (first & net1 & _ & H1 & H2).
  eapply setNumClusters_symmetric; [done|].
  by eapply thresholdNetwork_symmetric.
Qed.

Lemma setThresholdValue_inv (σ σ' : store) (fuel : nat) (net net' : network)
    (idx : Z) (value : jsval) :
  setThresholdValue σ fuel net idx value = Ok (σ', net') →
  ∃ values net1,
    σ !! thresholdValues net = Some values
    ∧ (0 ≤ idx < Z.of_nat (length values))%Z
    ∧ σ' = <[thresholdValues net := <[Z.to_nat idx := value]> values]> σ
    ∧ thresholdNetwork σ' net = Ok net1
    ∧ setNumClusters fuel net1 (numClusters net1) = Ok net'.
Proof.
  unfold setThresholdValue. intros H.
  apply bind_Ok in H as (values & Hv & H). apply deref_Ok in Hv.
  destruct (_ || _)%Z eqn:Hidx; [done|].
  apply orb_false_elim in Hidx as [H0 Hlen].
  apply bind_Ok in H as (net1 & H1 & H). apply bind_Ok in H as (net2 & H2 & H).
  injection H as <- <-. exists values, net1. repeat split; try done; lia.
Qed.

Lemma setThresholdMatrix_inv (σ σ' : store) (fuel : nat) (net net' : network)
    (idx : Z) :
  setThresholdMatrix σ fuel net idx = Ok (σ', net') →
  ∃ values,
    (0 ≤ idx < Z.of_nat (length (matrices net)))%Z
    ∧ σ !! thresholdValues net = Some values
    ∧ setThresholdValue σ fuel (with_thresholdIdx (Z.to_nat idx) net) 0
        (default JUndef (values !! 0)) = Ok (σ', net').
Proof.
  unfold setThresholdMatrix. intros H.
  destruct (_ || _)%Z eqn:Hidx; [done|].
  apply orb_false_elim in Hidx as [H0 Hlen].
  apply bind_Ok in H as (values & Hv & H). apply deref_Ok in Hv.
  exists values. repeat split; try done; lia.
Qed.

Lemma mapM_Ok_fmap {A B C} (f : A → result B) (g : B → C) (h : A → C)
    (l : list A) (k : list B) :
  mapM f l = Ok k →
  (∀ x y, x ∈ l → f x = Ok y → g y = h x) →
  g <$> k = h <$> l.
Proof.
  revert k. induction l as [|x l IH]; intros k H Hgh; cbn in H.
  - by injection H as <-.
  - apply bind_Ok in H as (y & Hy & H). apply bind_Ok in H as (k' & Hk' & H).
    injection H as <-. cbn. f_equal.
    + apply Hgh; [by left|done].
    + apply IH; [done|]. intros x' y' Hin. apply Hgh. by right.
Qed.

Lemma snd_imap_pair {A} (l : list A) : snd <$> imap pair l = l.
Proof.
  rewrite fmap_imap, (imap_ext _ (const id)); [|done].
  by rewrite imap_const, list_fmap_id.
Qed.

Lemma extractSubNetwork_inv (σ : store) (net sub : network) (rootIdx : nat) :
  extractSubNetwork σ net rootIdx = Ok sub →
  ∃ nodeIdxs subMatrices subnet ns,
    subNodeIdxs net rootIdx = Ok nodeIdxs
    ∧ mapM (λ m, extractSubMatrix m nodeIdxs) (matrices net) = Ok subMatrices
    ∧ createNetwork σ 0 subMatrices (matrixLabels net)
        ((λ array : list val, (λ idx, mjoin (array !! idx)) <$> nodeIdxs)
           <$> nodeData net)
        (nodeDataLabels net) None (thresholdFunc net)
        (thresholdValueLabels net) (thresholdValues net)
        (thresholdIdx net) 1 = Ok subnet
    ∧ mapM (relabel net nodeIdxs) (imap pair (nodes subnet)) = Ok ns
    ∧ sub = with_tree (set_node_parent (Some (length (heap subnet))) <$> ns)
              [length (heap subnet)]
              (heap subnet
               ++ [TreeNode (RNode <$> seq 0 (length ns)) None (length ns) None])
              subnet.
Proof.
  unfold extractSubNetwork. intros H.
  apply bind_Ok in H as (nodeIdxs & H1 & H).
  apply bind_Ok in H as (subMatrices & H2 & H).
  apply bind_Ok in H as (subnet & H3 & H).
  apply bind_Ok in H as (ns & H4 & H). injection H as <-.
  by exists nodeIdxs, subMatrices, subnet, ns.
Qed.

Lemma relabel_proj {C} (g : node → C) (net : network) (nodeIdxs : list nat)
    (l ns : list node) :
  (∀ name idx n, g (set_name_fullNetIndex name idx n) = g n) →
  mapM (relabel net nodeIdxs) (imap pair l) = Ok ns →
  g <$> ns = g <$> l.
Proof.
  intros Hg H. transitivity ((g ∘ snd) <$> imap pair l).
  - eapply mapM_Ok_fmap; [exact H|].
    intros x y _ Hxy. apply bind_Ok in Hxy as (old & _ & Hxy).
    injection Hxy as <-. apply Hg.
  - by rewrite list_fmap_compose, snd_imap_pair.
Qed.

Lemma extractSubNetwork_symmetric (σ : store) (net sub : network)
    (rootIdx : nat) :
  extractSubNetwork σ net rootIdx = Ok sub → symmetric sub.
Proof.
  intros H.
  apply extractSubNetwork_inv in H
    as (nodeIdxs & subMatrices & subnet & ns & _ & _ & Hc & Hns & ->).
  apply (symmetric_adjacency subnet); [|by eapply createNetwork_symmetric].
  unfold adjacency. cbn. f_equal.
  apply (relabel_proj node_neighbours) in Hns; [|done].
  by rewrite <-list_fmap_compose, <-Hns.
Qed.

(** C5.  In every network after construction or a rethreshold, and for
    all nodes [a] and [b]: there is an edge for [(a, b)] exactly when
    there is one for [(b, a)], [b] is in the neighbour list of [a]
    exactly when [a] is in that of [b], and the neighbour lists are
    those of the edges. *)
Theorem edges_and_neighbours_symmetric (net : network) (a b : nat) :
  handedOut net →
  (hasEdge net a b ↔ hasEdge net b a)
  ∧ (neighbour net a b ↔ neighbour net b a)
  ∧ (neighbour net a b ↔ hasEdge net a b).
Proof.
  intros H. revert a b. change (symmetric net).
  induction H as [σ fuel ms mls nd ndls lk tf tv tvl ti nc net H
                 |σ net rootIdx sub H
                 |σ net net' H
                 |σ fuel net idx value σ' net' H
                 |σ fuel net idx σ' net' H
                 |fuel net k net' _ IH H].
  - by eapply createNetwork_symmetric.
  - by eapply extractSubNetwork_symmetric.
  - by eapply thresholdNetwork_symmetric.
  - apply setThresholdValue_inv in H as (values & net1 & _ & _ & _ & H1 & H2).
    eapply setNumClusters_symmetric; [done|].
    by eapply thresholdNetwork_symmetric.
  - apply setThresholdMatrix_inv in H as (values & _ & _ & H).
    apply setThresholdValue_inv in H as (values' & net1 & _ & _ & _ & H1 & H2).
    eapply setNumClusters_symmetric; [done|].
    by eapply thresholdNetwork_symmetric.
  - by eapply setNumClusters_symmetric.
Qed.

Lemma edges_and_neighbours_symmetric_witness :
  ∃ net, exampleNetwork = Ok net
    ∧ (hasEdge net 0 1 ↔ hasEdge net 1 0)
    ∧ (neighbour net 0 1 ↔ neighbour net 1 0)
    ∧ (neighbour net 0 1 ↔ hasEdge net 0 1).
Proof.
  eexists. split; [vm_compute; reflexivity|].
  apply edges_and_neighbours_symmetric.
  eapply (ho_createNetwork [[]; []] 0 [exampleThresholded] ["M"] [] [] None
            passThrough 0 1 0 1).
  vm_compute. reflexivity.
Defined.

(** ** Rethresholding (C6, C10) *)

Lemma edgeStep_any_state (mats : list matrix) (tm : matrix)
    (s s1 s' : edgeBuild) (ij : nat * nat) :
  edgeStep mats tm s ij = Ok s1 → ∃ s1', edgeStep mats tm s' ij = Ok s1'.
Proof.
  destruct ij as [i j]. unfold edgeStep. intros H.
  apply bind_Ok in H as (v & -> & H). cbn.
  destruct (isNaN v); [by eexists|].
  apply bind_Ok in H as (ws & -> & H). cbn. by eexists.
Qed.

Lemma edgeLoop_any_state (mats : list matrix) (tm : matrix)
    (ps : list (nat * nat)) (s s1 s' : edgeBuild) :
  foldM (edgeStep mats tm) ps s = Ok s1 →
  ∃ s1', foldM (edgeStep mats tm) ps s' = Ok s1'.
Proof.
  revert s s'. induction ps as [|ij ps IH]; intros s s' H; [by eexists|].
  cbn in H. apply bind_Ok in H as (s2 & H2 & H).
  destruct (edgeStep_any_state _ _ _ _ s' _ H2) as [s2' H2'].
  cbn. rewrite H2'. cbn. by eapply IH.
Qed.

Lemma thresholdNetwork_unfold (σ : store) (net : network) (tm : matrix) :
  thresholded σ net = Ok tm →
  thresholdNetwork σ net
  = (s ← foldM (edgeStep (matrices net) tm) (pairs (length (nodes net)))
              (edgeBuild0 net);
     Ok (with_edges s net)).
Proof. intros H. unfold thresholdNetwork. by rewrite H. Qed.

Lemma thresholdNetwork_edges_state (σ : store) (net net' n1 : network) :
  thresholdState net' = thresholdState net →
  thresholdNetwork σ net = Ok n1 →
  ∃ n1', thresholdNetwork σ net' = Ok n1' ∧ edges n1' = edges n1.
Proof.
  intros Hst H. injection Hst as Hf Hm Hi Hv Hlen.
  destruct (thresholdNetwork_thresholded _ _ _ H) as [tm Htm].
  assert (thresholded σ net' = Ok tm) as Htm'
    by (unfold thresholded in *; by rewrite Hf, Hm, Hi, Hv).
  pose proof (thresholdNetwork_spec _ _ _ _ Htm H) as (He & _).
  rewrite (thresholdNetwork_unfold _ _ _ Htm) in H.
  apply bind_Ok in H as (s & Hs & _).
  destruct (edgeLoop_any_state _ _ _ _ _ (edgeBuild0 net') Hs) as [s' Hs'].
  assert (thresholdNetwork σ net' = Ok (with_edges s' net')) as H'.
  { rewrite (thresholdNetwork_unfold _ _ _ Htm'), Hm, Hlen, Hs'. done. }
  eexists. split; [exact H'|].
  pose proof (thresholdNetwork_spec _ _ _ _ Htm' H') as (He' & _).
  by rewrite He, He', Hm, Hlen.
Qed.

Lemma upToDate_state (σ : store) (net net' : network) :
  thresholdState net' = thresholdState net → edges net' = edges net →
  upToDate σ net → upToDate σ net'.
Proof.
  intros Hst He (n1 & H1 & He1).
  destruct (thresholdNetwork_edges_state _ _ _ _ Hst H1) as (n1' & H1' & He1').
  exists n1'. split; [done|]. congruence.
Qed.

Lemma graphOf_thresholdState (net net' : network) :
  graphOf net' = graphOf net →
  thresholdState net' = thresholdState net ∧ edges net' = edges net.
Proof.
  intros H. split; [|exact (f_equal edges H)]. unfold thresholdState.
  pose proof (f_equal (λ n, length (nodes n)) H) as Hl. cbn in Hl.
  rewrite !length_fmap in Hl.
  by rewrite (f_equal thresholdFunc H : thresholdFunc net' = thresholdFunc net),
    (f_equal matrices H : matrices net' = matrices net),
    (f_equal thresholdIdx H : thresholdIdx net' = thresholdIdx net),
    (f_equal thresholdValues H : thresholdValues net' = thresholdValues net), Hl.
Qed.

Lemma setNumClusters_upToDate (σ : store) (fuel : nat) (net net' : network)
    (k : Z) :
  setNumClusters fuel net k = Ok net' → upToDate σ net → upToDate σ net'.
Proof.
  intros H. apply setNumClusters_graphOf, graphOf_thresholdState in H as [? ?].
  by apply upToDate_state.
Qed.

Lemma clear_edges_ext (n n0 : node) :
  node_index n = node_index n0 → node_name n = node_name n0 →
  node_nodeData n = node_nodeData n0 → node_parent n = node_parent n0 →
  node_fullNetIndex n = node_fullNetIndex n0 →
  clear_edges n = clear_edges n0.
Proof. destruct n, n0. cbn. by intros -> -> -> -> ->. Qed.

(** A rethreshold right after a rethreshold changes nothing. *)
Lemma thresholdNetwork_idempotent (σ : store) (net net1 : network) :
  thresholdNetwork σ net = Ok net1 → thresholdNetwork σ net1 = Ok net1.
Proof.
  intros H. destruct (thresholdNetwork_thresholded _ _ _ H) as [tm Htm].
  destruct (thresholdNetwork_built _ _ _ _ Htm H) as (s & -> & Hb).
  rewrite (thresholdNetwork_unfold _ _ _ Htm) in H.
  apply bind_Ok in H as (s' & Hs & H).
  assert (s' = s) as -> by (unfold with_edges in H; by destruct s, s'; simplify_eq).
  rewrite (thresholdNetwork_unfold _ _ tm) by exact Htm.
  cbn [with_edges matrices nodes].
  replace (length (eb_nodes s)) with (length (nodes net))
    by (rewrite (built_length _ _ _ _ _ Hb); cbn; by rewrite length_fmap).
  replace (edgeBuild0 (with_edges s net)) with (edgeBuild0 net); [by rewrite Hs|].
  unfold edgeBuild0. cbn. f_equal. apply list_eq. intros a.
  rewrite !list_lookup_fmap.
  destruct (eb_nodes s !! a) as [n|] eqn:Hn.
  - destruct (built_nodes _ _ _ _ _ Hb a n Hn)
      as (n0 & Hn0 & ? & ? & ? & ? & ? & _).
    apply edgeBuild0_lookup in Hn0 as (_ & _ & n' & -> & ->). cbn.
    f_equal. symmetry. by apply clear_edges_ext.
  - apply lookup_ge_None in Hn. rewrite (built_length _ _ _ _ _ Hb) in Hn.
    cbn in Hn. rewrite length_fmap in Hn.
    by rewrite (proj2 (lookup_ge_None _ _) Hn).
Qed.

Lemma thresholdNetwork_upToDate (σ : store) (net net1 : network) :
  thresholdNetwork σ net = Ok net1 → upToDate σ net1.
Proof. intros H. exists net1. by rewrite (thresholdNetwork_idempotent _ _ _ H). Qed.

Lemma createNetwork_upToDate (σ : store) (fuel : nat) ms mls nd ndls lk tf
    tv tvl ti nc (net : network) :
  createNetwork σ fuel ms mls nd ndls lk tf tv tvl ti nc = Ok net →
  upToDate σ net.
Proof.
  intros H. apply createNetwork_inv in H as (first & net1 & _ & H1 & H2).
  eapply setNumClusters_upToDate; [done|].
  by eapply thresholdNetwork_upToDate.
Qed.

Lemma setThresholdValue_upToDate (σ σ' : store) (fuel : nat)
    (net net' : network) (idx : Z) (value : jsval) :
  setThresholdValue σ fuel net idx value = Ok (σ', net') → upToDate σ' net'.
Proof.
  intros H.
  apply setThresholdValue_inv in H as (values & net1 & _ & _ & -> & H1 & H2).
  eapply setNumClusters_upToDate; [done|].
  by eapply thresholdNetwork_upToDate.
Qed.

Lemma extractSubNetwork_upToDate (σ : store) (net sub : network)
    (rootIdx : nat) :
  extractSubNetwork σ net rootIdx = Ok sub → upToDate σ sub.
Proof.
  intros H.
  apply extractSubNetwork_inv in H
    as (nodeIdxs & subMatrices & subnet & ns & _ & _ & Hc & Hns & ->).
  apply (upToDate_state _ subnet); [|done|by eapply createNetwork_upToDate].
  unfold thresholdState. cbn. rewrite length_fmap.
  apply mapM_Ok_lookup in Hns as [-> _]. by rewrite length_imap.
Qed.

Lemma upToDate_store (σ σ' : store) (net : network) :
  σ' !! thresholdValues net = σ !! thresholdValues net →
  upToDate σ net → upToDate σ' net.
Proof.
  intros Hσ (n1 & H1 & He). exists n1. split; [|done].
  unfold thresholdNetwork, thresholded in *. by rewrite Hσ.
Qed.

Lemma builtUnder_upToDate (σ : store) (net : network) :
  builtUnder σ net → upToDate σ net.
Proof.
  induction 1 as [σ fuel ms mls nd ndls lk tf tv tvl ti nc net H
                 |σ net rootIdx sub H
                 |σ net net' H
                 |σ fuel net idx value σ' net' H
                 |σ fuel net idx σ' net' H
                 |σ fuel net k net' _ IH H
                 |σ σ' net _ IH H].
  - by eapply createNetwork_upToDate.
  - by eapply extractSubNetwork_upToDate.
  - by eapply thresholdNetwork_upToDate.
  - by eapply setThresholdValue_upToDate.
  - apply setThresholdMatrix_inv in H as (values & _ & _ & H).
    by eapply setThresholdValue_upToDate.
  - by eapply setNumClusters_upToDate.
  - by eapply upToDate_store.
Qed.

(** Writing the value a parameter already holds leaves the store as it
    is. *)
Lemma setThresholdValue_same (σ : store) (fuel : nat) (net : network)
    (idx : Z) (values : list jsval) (v : jsval) :
  σ !! thresholdValues net = Some values → (0 ≤ idx)%Z →
  values !! Z.to_nat idx = Some v →
  setThresholdValue σ fuel net idx v
  = (net1 ← thresholdNetwork σ net;
     net2 ← setNumClusters fuel net1 (numClusters net1);
     Ok (σ, net2)).
Proof.
  intros Hv H0 Hidx. unfold setThresholdValue. rewrite Hv. cbn.
  pose proof (lookup_lt_Some _ _ _ Hidx) as Hlt.
  destruct (_ || _)%Z eqn:Hb.
  { apply orb_prop in Hb as [Hb|Hb]; lia. }
  by rewrite (list_insert_id _ _ _ Hidx), (list_insert_id _ _ _ Hv).
Qed.

(** C6, as the specification states it, fails for a network that
    shares the array of its threshold values with another network:
    after the other network has changed the value, a call with the
    value the parameter now holds removes the edge [(0, 2)]. *)
Lemma setThresholdValue_shared_array :
  sharedThresholds
  = Ok ([Edge 0 1 [Some 10%float]; Edge 0 2 [Some 6%float]],
        [Edge 0 1 [Some 10%float]],
        Some (JNum 0.75%float)).
Proof. vm_compute. reflexivity. Qed.

(** C6, amended: for a network that the module handed out, and as long
    as the array of its threshold values has not been written to since
    its edges were built, [setThresholdValue] with the value that the
    parameter already holds leaves the store unchanged, rebuilds the
    same edge list, and goes on to rebuild the dendrogram; the network
    it returns has the edge list it had before the call. *)
Theorem setThresholdValue_same_value (σ : store) (fuel : nat)
    (net : network) (idx : Z) (values : list jsval) (v : jsval) :
  builtUnder σ net →
  σ !! thresholdValues net = Some values → (0 ≤ idx)%Z →
  values !! Z.to_nat idx = Some v →
  (∃ net1, edges net1 = edges net
     ∧ setThresholdValue σ fuel net idx v
       = (net2 ← setNumClusters fuel net1 (numClusters net1); Ok (σ, net2)))
  ∧ ∀ σ' net', setThresholdValue σ fuel net idx v = Ok (σ', net') →
      σ' = σ ∧ edges net' = edges net.
Proof.
  intros Hb Hv H0 Hidx.
  destruct (builtUnder_upToDate _ _ Hb) as (net1 & H1 & He).
  rewrite (setThresholdValue_same _ _ _ _ _ _ Hv H0 Hidx), H1. cbn.
  split; [by exists net1|].
  intros σ' net' H. apply bind_Ok in H as (net2 & H2 & H).
  injection H as <- <-. split; [done|].
  apply setNumClusters_graphOf in H2. rewrite <-He.
  exact (f_equal edges H2).
Qed.

Lemma setThresholdValue_same_value_witness :
  ∃ net, createNetwork exampleStore 0 [exampleWeights] ["Z"] [] [] None
           thresholdMatrix 0 1 0 1 = Ok net
    ∧ (∃ net1, edges net1 = edges net
         ∧ setThresholdValue exampleStore 0 net 0 (JNum 0.5%float)
           = (net2 ← setNumClusters 0 net1 (numClusters net1);
              Ok (exampleStore, net2)))
    ∧ ∀ σ' net', setThresholdValue exampleStore 0 net 0 (JNum 0.5%float)
                 = Ok (σ', net') →
        σ' = exampleStore ∧ edges net' = edges net.
Proof.
  eexists. split; [vm_compute; reflexivity|].
  apply (setThresholdValue_same_value exampleStore 0 _ 0 [JNum 0.5%float]).
  - eapply (bu_createNetwork exampleStore 0 [exampleWeights] ["Z"] [] [] None
              thresholdMatrix 0 1 0 1).
    vm_compute. reflexivity.
  - reflexivity.
  - lia.
  - reflexivity.
Defined.

(** C10.  [setThresholdMatrix] with a valid matrix index stores the
    index and then calls [setThresholdValue] at parameter 0 with the
    value that parameter holds.  On a network without threshold
    parameters that call is out of range, and [setThresholdMatrix]
    fails ("Threshold value index out of range.").  On a network with
    at least one parameter it rethresholds with the matrix at the new
    index and rebuilds the dendrogram, and the store, so the value of
    parameter 0, is unchanged. *)
Theorem setThresholdMatrix_forces_rethreshold (σ : store) (fuel : nat)
    (net : network) (idx : Z) (values : list jsval) :
  σ !! thresholdValues net = Some values →
  (0 ≤ idx < Z.of_nat (length (matrices net)))%Z →
  setThresholdMatrix σ fuel net idx
  = match values with
    | [] => Err (Thrown "Threshold value index out of range.")
    | _ :: _ =>
        net1 ← thresholdNetwork σ (with_thresholdIdx (Z.to_nat idx) net);
        net2 ← setNumClusters fuel net1 (numClusters net1);
        Ok (σ, net2)
    end.
Proof.
  intros Hv Hidx. unfold setThresholdMatrix.
  destruct (_ || _)%Z eqn:Hb.
  { apply orb_prop in Hb as [Hb|Hb]; lia. }
  cbn [with_thresholdIdx thresholdValues]. rewrite Hv.
  cbn [deref mbind result_bind].
  destruct values as [|v vs].
  - unfold setThresholdValue. cbn [with_thresholdIdx thresholdValues].
    rewrite Hv. reflexivity.
  - by rewrite (setThresholdValue_same _ _ _ _ (v :: vs) v).
Qed.

Lemma setThresholdMatrix_forces_rethreshold_witness :
  setThresholdMatrix [[]; []] 0
    (Network [newNode [] 0; newNode [] 1; newNode [] 2] [] []
       [exampleWeights; exampleThresholded] ["Z"; "M"] None passThrough
       0 1 0 1 [] [] [] [] [] [] []) 1
  = Err (Thrown "Threshold value index out of range.").
Proof.
  apply (setThresholdMatrix_forces_rethreshold [[]; []] 0
           (Network [newNode [] 0; newNode [] 1; newNode [] 2] [] []
              [exampleWeights; exampleThresholded] ["Z"; "M"] None passThrough
              0 1 0 1 [] [] [] [] [] [] []) 1 []).
  - reflexivity.
  - cbn. lia.
Defined.

(** With one threshold parameter the same call returns: the matrix at
    the new index decides the edges, and the parameter keeps its
    value. *)
Example setThresholdMatrix_rethresholds :
  (net ← createNetwork exampleStore 0 [exampleWeights; exampleThresholded]
           ["Z"; "M"] [] [] None passThrough 0 1 0 1;
   r ← setThresholdMatrix exampleStore 0 net 1;
   Ok (edges net, edges r.2, thresholdIdx r.2, r.1))
  = Ok ([Edge 0 1 [Some 10%float; Some 5%float];
         Edge 0 2 [Some 6%float; Some NaN];
         Edge 1 2 [Some 4%float; Some 1%float]],
        [Edge 0 1 [Some 10%float; Some 5%float];
         Edge 1 2 [Some 4%float; Some 1%float]],
        1, exampleStore).
Proof. vm_compute. reflexivity. Qed.

(** ** The dendrogram builder (C8) *)

Lemma lookupZ_is_Some {A} (l : list A) (z : Z) :
  is_Some (lookupZ l z) ↔ (0 ≤ z < Z.of_nat (length l))%Z.
Proof.
  unfold lookupZ. destruct (z <? 0)%Z eqn:Hz.
  - split; [by intros [? ?]|lia].
  - rewrite lookup_lt_is_Some. lia.
Qed.

Lemma resolve_is_Some (ns : list node) (built : list nat) (id : Z) :
  is_Some (resolve (length ns) ns built id)
  ↔ validId (length ns) (length built) id.
Proof.
  unfold resolve, validId. destruct (id >? _)%Z eqn:Hid.
  - rewrite fmap_is_Some, lookupZ_is_Some. lia.
  - rewrite fmap_is_Some, lookupZ_is_Some. lia.
Qed.

Lemma set_parent_length (r : ref) (p : nat) (s : list node * list treeNode) :
  length (set_parent r p s).1 = length s.1
  ∧ length (set_parent r p s).2 = length s.2.
Proof. destruct r; cbn; by rewrite length_alter. Qed.

Lemma linkStep_Ok (s s' : treeBuild) (i : nat) (row : linkageRow) :
  linkStep (length (tb_nodes s)) s (i, row) = Ok s' →
  validId (length (tb_nodes s)) (length (tb_treeNodes s)) (link_left row)
  ∧ validId (length (tb_nodes s)) (length (tb_treeNodes s)) (link_right row)
  ∧ length (tb_nodes s') = length (tb_nodes s)
  ∧ length (tb_treeNodes s') = S (length (tb_treeNodes s))
  ∧ length (tb_heap s') = S (length (tb_heap s)).
Proof.
  unfold linkStep. intros H.
  apply bind_Ok in H as (left & Hl & H). apply bind_Ok in H as (right & Hr & H).
  apply deref_Ok in Hl, Hr.
  split; [apply resolve_is_Some; by rewrite Hl|].
  split; [apply resolve_is_Some; by rewrite Hr|].
  pose proof (set_parent_length right (length (tb_heap s))
                (set_parent left (length (tb_heap s)) (tb_nodes s, tb_heap s)))
    as [Hn Hh].
  destruct (set_parent_length left (length (tb_heap s)) (tb_nodes s, tb_heap s))
    as [Hn' Hh'].
  rewrite Hn' in Hn. rewrite Hh' in Hh.
  destruct (set_parent right _ _) as [ns h]. injection H as <-. cbn in *.
  rewrite !length_app. cbn. lia.
Qed.

Lemma linkStep_Err (numNodes : nat) (s : treeBuild) (ir : nat * linkageRow)
    (e : error) :
  linkStep numNodes s ir = Err e → e = TypeError.
Proof.
  destruct ir as [i row]. unfold linkStep.
  destruct (resolve _ _ _ (link_left row)); cbn; [|congruence].
  destruct (resolve _ _ _ (link_right row)); cbn; [|congruence].
  by destruct (set_parent _ _ _).
Qed.

Lemma linkLoop_Ok (net : network) (linkages : list linkageRow)
    (s : treeBuild) :
  foldM (linkStep (length (nodes net))) (imap pair linkages)
        (TreeBuild (nodes net) (heap net) []) = Ok s →
  linked (length (nodes net)) (imap pair linkages) s.
Proof.
  apply foldM_invariant.
  { split; [done|]. split; [done|]. by intros r row. }
  intros done [i row] rest s1 s2 Hl (Hn & Ht & Hv) Hstep.
  rewrite <-Hn in Hstep. apply linkStep_Ok in Hstep as (Hvl & Hvr & Hn' & Ht' & _).
  split; [congruence|]. split; [rewrite length_app; cbn; lia|].
  assert (i = length done) as ->.
  { apply (f_equal (.!! length done)) in Hl.
    rewrite list_lookup_imap, list_lookup_middle in Hl by done.
    destruct (linkages !! length done); by simplify_eq/=. }
  intros r row' Hr. apply lookup_app_Some in Hr as [Hr|[Hlen Hr]]; [by apply Hv|].
  apply list_lookup_singleton_Some in Hr as [Hr0 [= Hr1 <-]].
  rewrite Hn, Ht in Hvl, Hvr. by rewrite <-Hr1.
Qed.

(** C8.  When some row of the linkage table has a left or right id
    outside the range that is valid at that row ([1 .. N] for the
    nodes, [N+1 .. N+r] for the tree nodes of the [r] rows before it;
    a forward reference is above that range), the dendrogram builder
    fails: the id resolves to [undefined], and setting its [parent]
    raises the runtime's TypeError. *)
Theorem makeNetworkDendrogramTree_rejects (net : network)
    (linkages : list linkageRow) (r : nat) (row : linkageRow) :
  linkages !! r = Some row →
  ¬ (validId (length (nodes net)) r (link_left row)
     ∧ validId (length (nodes net)) r (link_right row)) →
  makeNetworkDendrogramTree net linkages = Err TypeError.
Proof.
  intros Hrow Hbad. unfold makeNetworkDendrogramTree.
  destruct (foldM _ _ _) as [s|e] eqn:Hloop; cbn.
  - exfalso. apply Hbad. apply linkLoop_Ok in Hloop as (_ & _ & Hv).
    apply (Hv r row). by rewrite list_lookup_imap, Hrow.
  - apply foldM_Err in Hloop as (s' & b & _ & Hb).
    by rewrite (linkStep_Err _ _ _ _ Hb).
Qed.

Lemma makeNetworkDendrogramTree_rejects_witness :
  makeNetworkDendrogramTree exampleFourNodes
    [LinkageRow 1 2 (Some 0.5%float); LinkageRow 3 6 (Some 1%float)]
  = Err TypeError.
Proof.
  apply (makeNetworkDendrogramTree_rejects exampleFourNodes
           [LinkageRow 1 2 (Some 0.5%float); LinkageRow 3 6 (Some 1%float)]
           1 (LinkageRow 3 6 (Some 1%float))).
  - reflexivity.
  - unfold validId. cbn. lia.
Defined.

(** ** The dendrogram reducer (C4, C7) *)

(** *** [indexOf], [splice] and [getClusters] *)

Lemma indexOf_from_Some {A} `{EqDecision A} (x : A) (l : list A) (k i : nat) :
  indexOf_from (λ a b, bool_decide (a = b)) x l k = Some i →
  ∃ j, i = k + j ∧ l !! j = Some x.
Proof.
  revert k. induction l as [|y l IH]; intros k H; [done|]. cbn in H.
  case_bool_decide as Hy.
  - injection H as <-. exists 0. subst. split; [lia|done].
  - destruct (IH _ H) as (j & -> & Hj). exists (S j). split; [lia|done].
Qed.

Lemma indexOf_from_None {A} `{EqDecision A} (x : A) (l : list A) (k : nat) :
  indexOf_from (λ a b, bool_decide (a = b)) x l k = None → x ∉ l.
Proof.
  revert k. induction l as [|y l IH]; intros k H; [apply not_elem_of_nil|].
  cbn in H. case_bool_decide as Hy; [done|].
  apply not_elem_of_cons. split; [congruence|by eapply IH].
Qed.

Lemma indexOf_elem_of {A} `{EqDecision A} (l : list A) (x : A) :
  x ∈ l →
  ∃ i, indexOf (λ a b, bool_decide (a = b)) l x = Some i ∧ l !! i = Some x.
Proof.
  intros Hin. unfold indexOf.
  destruct (indexOf_from _ x l 0) as [i|] eqn:Hi.
  - apply indexOf_from_Some in Hi as (j & -> & Hj). by exists j.
  - by apply indexOf_from_None in Hi.
Qed.

Lemma elem_of_delete_ne {A} (l : list A) (i : nat) (x y : A) :
  l !! i = Some x → y ∈ l → y ≠ x → y ∈ delete i l.
Proof.
  intros Hi Hy Hne. apply (delete_Permutation l i x) in Hi.
  rewrite Hi in Hy. by apply elem_of_cons in Hy as [?|?].
Qed.

Lemma not_elem_of_delete_NoDup {A} (l : list A) (i : nat) (x : A) :
  NoDup l → l !! i = Some x → x ∉ delete i l.
Proof.
  intros Hnd Hi. apply (delete_Permutation l i x) in Hi.
  rewrite Hi in Hnd. by apply NoDup_cons in Hnd as [? _].
Qed.

Lemma uniq_spec (seen l : list (option nat)) :
  NoDup seen →
  NoDup (uniq seen l) ∧ ∀ c, c ∈ uniq seen l ↔ c ∈ seen ∨ c ∈ l.
Proof.
  revert seen. induction l as [|x l IH]; intros seen Hnd; cbn.
  - split; [done|]. intros c. rewrite elem_of_nil. tauto.
  - case_decide as Hx.
    + destruct (IH seen Hnd) as [Hnd' Hin]. split; [done|].
      intros c. rewrite Hin, elem_of_cons. split; [tauto|].
      intros [?|[->|?]]; tauto.
    + destruct (IH (seen ++ [x])) as [Hnd' Hin].
      { apply NoDup_app. split; [done|]. split; [|apply NoDup_singleton].
        intros y Hy Hy'. apply list_elem_of_singleton in Hy'. by subst. }
      split; [done|]. intros c.
      rewrite Hin, elem_of_app, list_elem_of_singleton, elem_of_cons. tauto.
Qed.

(** The number of clusters does not grow when the parents of the
    nodes are renamed. *)
Lemma uniq_fmap_length (g : option nat → option nat) (l : list (option nat)) :
  length (uniq [] (g <$> l)) ≤ length (uniq [] l).
Proof.
  destruct (uniq_spec [] (g <$> l) (NoDup_nil_2)) as [Hnd Hin].
  destruct (uniq_spec [] l (NoDup_nil_2)) as [_ Hin'].
  rewrite <-(length_fmap g (uniq [] l)).
  apply submseteq_length, NoDup_submseteq; [done|].
  intros c Hc. apply Hin in Hc as [Hc|Hc]; [by apply elem_of_nil in Hc|].
  apply list_elem_of_fmap in Hc as (y & -> & Hy).
  apply list_elem_of_fmap_2, Hin'. by right.
Qed.

Lemma elem_of_getClusters (net : network) (c : option nat) :
  c ∈ getClusters net ↔ ∃ n, n ∈ nodes net ∧ node_parent n = c.
Proof.
  unfold getClusters.
  destruct (uniq_spec [] (node_parent <$> nodes net) (NoDup_nil_2)) as [_ ->].
  rewrite elem_of_nil, list_elem_of_fmap. split.
  - intros [[]|(n & -> & Hn)]. eauto.
  - intros (n & Hn & <-). right. eauto.
Qed.

(** *** One round of the loop *)

Lemma reparent_spec (P : nat) (ns : list node) (h : list treeNode) (c : ref) :
  let r := reparent P (ns, h) c in
  length r.1 = length ns ∧ length r.2 = length h
  ∧ (∀ i, nodeParent r.1 i
          = if decide (c = RNode i) then (λ _, P) <$> ns !! i
            else nodeParent ns i)
  ∧ (∀ t, treeParent r.2 t
          = if decide (c = RTree t) then (λ _, P) <$> h !! t
            else treeParent h t)
  ∧ (∀ t, treeChildren r.2 t
          = if decide (t = P)
            then from_option (λ o, tree_children o ++ [c]) [] (h !! t)
            else treeChildren h t)
  ∧ (∀ t, tree_distance <$> r.2 !! t = tree_distance <$> h !! t).
Proof.
  unfold nodeParent, treeParent, treeChildren.
  destruct c as [j|u]; cbn; rewrite ?length_alter.
  - split; [done|]. split; [done|]. split; [|split; [|split]].
    + intros i. rewrite list_lookup_alter.
      repeat case_decide; simplify_eq; try done; by destruct (ns !! _).
    + intros t. rewrite list_lookup_alter.
      repeat case_decide; simplify_eq; try done; by destruct (h !! _).
    + intros t. rewrite list_lookup_alter.
      repeat case_decide; simplify_eq; try done; by destruct (h !! _).
    + intros t. rewrite list_lookup_alter.
      case_decide; simplify_eq; try done; by destruct (h !! _).
  - split; [done|]. split; [done|]. split; [|split; [|split]].
    + intros i. by rewrite decide_False.
    + intros t. rewrite !list_lookup_alter.
      repeat case_decide; simplify_eq; try done; by destruct (h !! _).
    + intros t. rewrite !list_lookup_alter.
      repeat case_decide; simplify_eq; try done; by destruct (h !! _).
    + intros t. rewrite !list_lookup_alter.
      repeat case_decide; simplify_eq; try done; by destruct (h !! _).
Qed.

Lemma lookup_const_length {A B} (l1 l2 : list A) (i : nat) (b : B) :
  length l1 = length l2 → (λ _, b) <$> l1 !! i = (λ _, b) <$> l2 !! i.
Proof.
  intros Hlen. destruct (l1 !! i) as [x|] eqn:H1.
  - apply lookup_lt_Some in H1. rewrite Hlen in H1.
    by apply lookup_lt_is_Some_2 in H1 as [y ->].
  - apply lookup_ge_None in H1. rewrite Hlen in H1.
    by apply lookup_ge_None in H1 as ->.
Qed.

Lemma if_elem_of_cons {A B} `{EqDecision A} (x c : A) (cs : list A) (X Y : B) :
  (if decide (x ∈ cs) then X else if decide (c = x) then X else Y)
  = if decide (x ∈ c :: cs) then X else Y.
Proof.
  destruct (decide (x ∈ c :: cs)) as [Hin|Hnin].
  - apply elem_of_cons in Hin as [->|Hin]; repeat case_decide; done.
  - apply not_elem_of_cons in Hnin as [? ?]. repeat case_decide; congruence.
Qed.

Lemma foldl_reparent_spec (P : nat) (cs : list ref) (ns : list node)
    (h : list treeNode) :
  let r := foldl (reparent P) (ns, h) cs in
  length r.1 = length ns ∧ length r.2 = length h
  ∧ (∀ i, nodeParent r.1 i
          = if decide (RNode i ∈ cs) then (λ _, P) <$> ns !! i
            else nodeParent ns i)
  ∧ (∀ t, treeParent r.2 t
          = if decide (RTree t ∈ cs) then (λ _, P) <$> h !! t
            else treeParent h t)
  ∧ (∀ t, treeChildren r.2 t
          = if decide (t = P)
            then from_option (λ o, tree_children o ++ cs) [] (h !! t)
            else treeChildren h t)
  ∧ (∀ t, tree_distance <$> r.2 !! t = tree_distance <$> h !! t).
Proof.
  revert ns h. induction cs as [|c cs IH]; intros ns h; cbn [foldl].
  - cbn. split; [done|]. split; [done|].
    split; [|split; [|split]]; intros x; try done.
    all: try (rewrite decide_False by apply not_elem_of_nil; done).
    unfold treeChildren. case_decide; [|done].
    destruct (h !! x); cbn; [by rewrite app_nil_r|done].
  - pose proof (reparent_spec P ns h c) as Hc.
    destruct (reparent P (ns, h) c) as [ns1 h1]. cbn in Hc.
    destruct Hc as (Hn1 & Hh1 & Hnp1 & Htp1 & Htc1 & Hd1).
    destruct (IH ns1 h1) as (Hn & Hh & Hnp & Htp & Htc & Hd).
    split; [congruence|]. split; [congruence|].
    split; [|split; [|split]].
    + intros i. rewrite Hnp, Hnp1, (lookup_const_length ns1 ns) by done.
      apply if_elem_of_cons.
    + intros t. rewrite Htp, Htp1, (lookup_const_length h1 h) by done.
      apply if_elem_of_cons.
    + intros t. rewrite Htc. specialize (Htc1 t). case_decide; [|done].
      unfold treeChildren in Htc1.
      pose proof (lookup_const_length h1 h t () Hh1) as He.
      destruct (h1 !! t) as [o1|], (h !! t) as [o|]; cbn in *; try done.
      by rewrite Htc1, <-(assoc_L (++)).
    + intros t. by rewrite Hd, Hd1.
Qed.

(** The parts of a round that returns: the cluster [X] that is
    squeezed out, its parent [P], and the state left behind. *)
Lemma squeeze_inv (net net' : network) (clusters : list (option nat)) :
  squeeze net clusters = Ok net' →
  ∃ X c P p,
    Some X ∈ clusters
    ∧ heap net !! X = Some c ∧ tree_parent c = Some P
    ∧ heap net !! P = Some p
    ∧ let h1 := alter (set_tree_children
                         (splice1 (tree_children p)
                            (indexOf (λ a b, bool_decide (a = b))
                               (tree_children p) (RTree X))))
                      P (heap net) in
      let r := foldl (reparent P) (nodes net, h1) (treeChildren h1 X) in
      net' = with_tree r.1
               (splice1 (treeNodes net)
                  (indexOf (λ a b, bool_decide (a = b)) (treeNodes net) X))
               r.2 net.
Proof.
  unfold squeeze. intros H.
  apply bind_Ok in H as (distances & _ & H).
  apply bind_Ok in H as (X & HX & H). apply deref_Ok in HX.
  apply bind_Ok in H as (c & Hc & H). apply deref_Ok in Hc.
  apply bind_Ok in H as (P & HP & H). apply deref_Ok in HP.
  apply bind_Ok in H as (p & Hp & H). apply deref_Ok in Hp.
  apply bind_Ok in H as (c1 & Hc1 & H). apply deref_Ok in Hc1.
  exists X, c, P, p. split.
  { destruct (indexOf strict_eq distances (d3.min distances)) as [k|]; [|done].
    cbn in HX. destruct (clusters !! k) as [o|] eqn:Hk; [|done].
    cbn in HX. subst o. by eapply list_elem_of_lookup_2. }
  repeat (split; [done|]). cbn zeta. unfold treeChildren. rewrite Hc1. cbn.
  destruct (foldl _ _ _) as [ns h]. by injection H as <-.
Qed.

Lemma mapM_Err {A B} (f : A → result B) (l : list A) (e : error) :
  mapM f l = Err e → ∃ x, x ∈ l ∧ f x = Err e.
Proof.
  induction l as [|x l IH]; [done|]. cbn.
  destruct (f x) as [y|e1] eqn:Hf; cbn.
  - destruct (mapM f l) as [k|e2]; cbn; [done|]. intros [= <-].
    destruct IH as (x' & Hin & Hx'); [done|]. exists x'.
    split; [by right|done].
  - intros [= <-]. exists x. split; [by left|done].
Qed.

Lemma deref_Err {A} (o : option A) (e : error) :
  deref o = Err e → e = TypeError.
Proof. destruct o; cbn; congruence. Qed.

Lemma squeeze_Err (net : network) (clusters : list (option nat)) (e : error) :
  squeeze net clusters = Err e → e = TypeError.
Proof.
  unfold squeeze. intros H.
  destruct (mapM _ clusters) as [distances|e1] eqn:H1; cbn in H.
  2:{ injection H as <-. apply mapM_Err in H1 as (x & _ & Hx).
      destruct (deref _) eqn:Hd; cbn in Hx; [done|].
      injection Hx as <-. by eapply deref_Err. }
  destruct (deref (mjoin _)) as [clust|e2] eqn:H2; cbn in H;
    [|injection H as <-; by eapply deref_Err].
  destruct (deref (heap net !! clust)) as [c|e3] eqn:H3; cbn in H;
    [|injection H as <-; by eapply deref_Err].
  destruct (deref (tree_parent c)) as [parent|e4] eqn:H4; cbn in H;
    [|injection H as <-; by eapply deref_Err].
  destruct (deref (heap net !! parent)) as [p|e5] eqn:H5; cbn in H;
    [|injection H as <-; by eapply deref_Err].
  cbv zeta in H.
  match type of H with
  | (?m ≫= _) = _ => destruct m as [c1|e6] eqn:H6; cbn in H
  end; [|injection H as <-; by eapply deref_Err].
  by destruct (foldl _ _ _).
Qed.

(** *** Well-formed dendrograms *)

Lemma getClusters_live (net : network) (X : nat) :
  Some X ∈ getClusters net →
  ∃ i, i < length (nodes net) ∧ nodeParent (nodes net) i = Some X.
Proof.
  intros H. apply elem_of_getClusters in H as (n & Hn & Hp).
  apply list_elem_of_lookup in Hn as [i Hi]. exists i.
  split; [by eapply lookup_lt_Some|]. unfold nodeParent. by rewrite Hi.
Qed.

Lemma treeChildren_alter (h : list treeNode) (P t : nat) (cs : list ref) :
  P < length h →
  treeChildren (alter (set_tree_children cs) P h) t
  = if decide (t = P) then cs else treeChildren h t.
Proof.
  intros HP. unfold treeChildren. rewrite list_lookup_alter.
  case_decide as Ht; [subst|]; [|by rewrite decide_False by done].
  rewrite decide_True by done.
  by apply lookup_lt_is_Some_2 in HP as [o ->].
Qed.

Lemma treeParent_alter (h : list treeNode) (P t : nat) (cs : list ref) :
  treeParent (alter (set_tree_children cs) P h) t = treeParent h t.
Proof.
  unfold treeParent. rewrite list_lookup_alter.
  case_decide; [subst|done]. by destruct (h !! t).
Qed.

Lemma squeeze_squeezed (net net' : network) :
  wellFormed net →
  squeeze net (getClusters net) = Ok net' →
  ∃ X P, squeezed net net' X P.
Proof.
  intros [Hnd Hheap Hch Hpar Hord] H.
  apply squeeze_inv in H as (X & c & P & p & HX & Hc & HcP & Hp & ->).
  exists X, P.
  destruct (getClusters_live _ _ HX) as (i & Hi & HiX).
  destruct (Hpar (RNode i) X Hi HiX) as [HXT HiCX].
  assert (treeParent (heap net) X = Some P) as HXP
    by (unfold treeParent; by rewrite Hc).
  destruct (Hpar (RTree X) P HXT HXP) as [HPT HXCP].
  pose proof (Hord X P HXT HXP) as HltXP.
  destruct (indexOf_elem_of _ _ HXCP) as (k & Hk & HkX).
  destruct (indexOf_elem_of _ _ HXT) as (kT & HkT & HkTX).
  assert (treeChildren (heap net) P = tree_children p) as HCP
    by (unfold treeChildren; by rewrite Hp).
  rewrite <-HCP, Hk, HkT. cbn [splice1].
  set (h1 := alter _ P (heap net)).
  assert (P < length (heap net)) as HPlen by (by apply Hheap).
  assert (treeChildren h1 X = treeChildren (heap net) X) as HCX.
  { unfold h1. rewrite treeChildren_alter by done.
    rewrite decide_False; [done|lia]. }
  rewrite HCX.
  pose proof (foldl_reparent_spec P (treeChildren (heap net) X) (nodes net) h1)
    as (Hn & Hh & Hnp & Htp & Htc & _).
  cbn zeta in *.
  destruct (foldl _ _ _) as [ns' h'] eqn:Hfold. cbn [fst snd] in *.
  assert (length h1 = length (heap net)) as Hh1
    by (unfold h1; by rewrite length_alter).
  assert (∀ r, r ∈ treeChildren (heap net) X → parentOf net r = Some X)
    as HCXpar by (intros r; by apply Hch).
  split; cbn [with_tree nodes heap treeNodes]; try done.
  - congruence.
  - by exists kT.
  - intros r Hr. pose proof (HCXpar r Hr) as Hrp. destruct r as [j|t]; cbn in *.
    + rewrite Hnp, decide_True by done. unfold nodeParent in Hrp.
      by destruct (nodes net !! j).
    + rewrite Htp, decide_True by done. unfold treeParent in Hrp.
      rewrite (lookup_const_length h1 (heap net)) by done.
      by destruct (heap net !! t).
  - intros r Hr. destruct r as [j|t]; cbn.
    + by rewrite Hnp, decide_False.
    + rewrite Htp, decide_False by done. apply treeParent_alter.
  - exists k. split; [done|]. rewrite Htc, decide_True by done.
    pose proof (treeChildren_alter (heap net) P P
                  (delete k (treeChildren (heap net) P)) HPlen) as HP1.
    rewrite decide_True in HP1 by done. fold h1 in HP1.
    unfold treeChildren in HP1 at 1.
    destruct (h1 !! P) as [o|] eqn:Ho; cbn in *; [by rewrite HP1|].
    apply lookup_ge_None in Ho. lia.
  - intros t Ht. rewrite Htc, decide_False by done.
    unfold h1. rewrite treeChildren_alter by done. by rewrite decide_False.
Qed.

Lemma live_children_iff (net : network) (X : nat) (r : ref) :
  wellFormed net → X ∈ treeNodes net → live net r →
  r ∈ treeChildren (heap net) X ↔ parentOf net r = Some X.
Proof.
  intros Hwf HX Hr. split; [by apply (wf_children _ Hwf)|].
  intros Hp. by apply (wf_parent _ Hwf) in Hp as [_ ?].
Qed.

Lemma squeezed_wellFormed (net net' : network) (X P : nat) :
  wellFormed net → squeezed net net' X P → wellFormed net'.
Proof.
  intros Hwf [HX HP HXP _ Hn Hh (kT & HkT & HT) Hmv Hkp (k & Hk & HCP) HC].
  assert (X ∉ treeNodes net') as HXT'.
  { rewrite HT. apply not_elem_of_delete_NoDup; [apply (wf_NoDup _ Hwf)|done]. }
  assert (∀ t, t ∈ treeNodes net' → t ∈ treeNodes net ∧ t ≠ X) as HT'.
  { intros t Ht. split; [|by intros ->].
    rewrite HT in Ht. by eapply list_elem_of_delete_inv. }
  assert (∀ t, t ∈ treeNodes net → t ≠ X → t ∈ treeNodes net') as HT''.
  { intros t Ht Hne. rewrite HT. by eapply elem_of_delete_ne. }
  assert (∀ r, live net' r → live net r) as Hlive.
  { intros [j|t]; cbn; [by rewrite Hn|]. intros Ht. by apply HT'. }
  split.
  - rewrite HT.
    exact (sublist_NoDup _ _ (wf_NoDup _ Hwf) (sublist_delete _ _)).
  - intros t Ht. rewrite Hh. apply (wf_heap _ Hwf). by apply HT'.
  - intros t c Ht Hc. destruct (HT' t Ht) as [HtT HtX].
    destruct (decide (c ∈ treeChildren (heap net) X)) as [HcX|HcX].
    + rewrite (Hmv c HcX). f_equal.
      destruct (decide (t = P)) as [->|HtP]; [done|].
      rewrite (HC t HtP) in Hc.
      pose proof (wf_children _ Hwf t c HtT Hc) as H1.
      pose proof (wf_children _ Hwf X c HX HcX) as H2. congruence.
    + rewrite (Hkp c HcX).
      destruct (decide (t = P)) as [->|HtP].
      * rewrite HCP in Hc. apply elem_of_app in Hc as [Hc|Hc]; [|done].
        apply list_elem_of_delete_inv in Hc.
        by apply (wf_children _ Hwf).
      * rewrite (HC t HtP) in Hc. by apply (wf_children _ Hwf).
  - intros r q Hr Hq. pose proof (Hlive r Hr) as Hr0.
    destruct (decide (r ∈ treeChildren (heap net) X)) as [HrX|HrX].
    + rewrite (Hmv r HrX) in Hq. injection Hq as <-.
      split; [apply HT''; [done|lia]|].
      rewrite HCP. apply elem_of_app. by right.
    + rewrite (Hkp r HrX) in Hq.
      destruct (wf_parent _ Hwf r q Hr0 Hq) as [HqT Hrq].
      assert (q ≠ X) as HqX by (by intros ->).
      split; [by apply HT''|].
      destruct (decide (q = P)) as [->|HqP].
      * rewrite HCP. apply elem_of_app. left.
        eapply elem_of_delete_ne; [done..|].
        intros ->. cbn in Hr. by apply HT' in Hr as [_ ?].
      * by rewrite (HC q HqP).
  - intros t q Ht Hq. destruct (HT' t Ht) as [HtT HtX].
    change (parentOf net' (RTree t) = Some q) in Hq.
    destruct (decide (RTree t ∈ treeChildren (heap net) X)) as [HtC|HtC].
    + rewrite (Hmv _ HtC) in Hq. injection Hq as <-.
      pose proof (wf_children _ Hwf X _ HX HtC) as HtXp.
      pose proof (wf_order _ Hwf t X HtT HtXp). lia.
    + rewrite (Hkp _ HtC) in Hq. by apply (wf_order _ Hwf).
Qed.

(** After a round, the parent of a node is what it was, with [P] in
    the place of [X]. *)
Lemma squeezed_parents (net net' : network) (X P : nat) :
  wellFormed net → squeezed net net' X P →
  node_parent <$> nodes net'
  = (λ q, if decide (q = Some X) then Some P else q)
      <$> (node_parent <$> nodes net).
Proof.
  intros Hwf [HX HP HXP _ Hn Hh _ Hmv Hkp _ _].
  apply list_eq. intros i. rewrite !list_lookup_fmap.
  destruct (nodes net !! i) as [n|] eqn:Hi.
  - pose proof (lookup_lt_Some _ _ _ Hi) as Hlt. rewrite <-Hn in Hlt.
    apply lookup_lt_is_Some_2 in Hlt as [n' Hi']. rewrite Hi'. cbn. f_equal.
    assert (live net (RNode i)) as Hlive by (by eapply lookup_lt_Some).
    pose proof (live_children_iff net X (RNode i) Hwf HX Hlive) as Hiff.
    cbn in Hiff. unfold nodeParent in Hiff. rewrite Hi in Hiff. cbn in Hiff.
    case_decide as Hq.
    + specialize (Hmv (RNode i) (proj2 Hiff Hq)). cbn in Hmv.
      unfold nodeParent in Hmv. by rewrite Hi' in Hmv.
    + assert (RNode i ∉ treeChildren (heap net) X) as Hni by tauto.
      specialize (Hkp (RNode i) Hni). cbn in Hkp. unfold nodeParent in Hkp.
      by rewrite Hi, Hi' in Hkp.
  - apply lookup_ge_None in Hi. rewrite <-Hn in Hi.
    by apply lookup_ge_None in Hi as ->.
Qed.

Lemma squeezed_clusters (net net' : network) (X P : nat) :
  wellFormed net → squeezed net net' X P →
  length (getClusters net') ≤ length (getClusters net).
Proof.
  intros Hwf Hsq. unfold getClusters.
  rewrite (squeezed_parents _ _ _ _ Hwf Hsq). apply uniq_fmap_length.
Qed.

Lemma squeezed_treeNodes (net net' : network) (X P : nat) :
  squeezed net net' X P →
  S (length (treeNodes net')) = length (treeNodes net).
Proof.
  intros Hsq. destruct (sq_treeNodes _ _ _ _ Hsq) as (k & Hk & ->).
  rewrite length_delete by eauto. apply lookup_lt_Some in Hk. lia.
Qed.

(** *** The loop *)

Lemma flattenDendrogramTree_noop (fuel : nat) (net : network) (K : Z) :
  (Z.of_nat (length (getClusters net)) ≤ K)%Z →
  flattenDendrogramTree fuel net K = Ok net.
Proof.
  intros HK. destruct fuel; cbn;
    (destruct (_ >? _)%Z eqn:Hgt; [lia|done]).
Qed.

Lemma flattenDendrogramTree_step (fuel : nat) (net : network) (K : Z) :
  (K < Z.of_nat (length (getClusters net)))%Z →
  flattenDendrogramTree (S fuel) net K
  = (squeeze net (getClusters net)
     ≫= λ net', flattenDendrogramTree fuel net' K).
Proof. intros HK. cbn. destruct (_ >? _)%Z eqn:Hgt; [done|lia]. Qed.

Lemma flattenDendrogramTree_wellFormed (fuel : nat) (net net' : network)
    (K : Z) :
  wellFormed net →
  flattenDendrogramTree fuel net K = Ok net' →
  wellFormed net'
  ∧ length (getClusters net') ≤ length (getClusters net)
  ∧ (Z.of_nat (length (getClusters net')) ≤ K)%Z.
Proof.
  revert net. induction fuel as [|fuel IH]; intros net Hwf H.
  - cbn in H. destruct (_ >? _)%Z eqn:Hgt; [done|].
    injection H as <-. split; [done|]. split; [done|lia].
  - destruct (decide (K < Z.of_nat (length (getClusters net)))%Z) as [HK|HK].
    + rewrite flattenDendrogramTree_step in H by done.
      apply bind_Ok in H as (net1 & H1 & H).
      destruct (squeeze_squeezed _ _ Hwf H1) as (X & P & Hsq).
      pose proof (squeezed_wellFormed _ _ _ _ Hwf Hsq) as Hwf1.
      pose proof (squeezed_clusters _ _ _ _ Hwf Hsq) as Hc1.
      destruct (IH net1 Hwf1 H) as (Hwf' & Hc' & HK').
      split; [done|]. split; [lia|done].
    + rewrite flattenDendrogramTree_noop in H by lia.
      injection H as <-. split; [done|]. split; [done|lia].
Qed.

(** On a well-formed dendrogram the loop runs at most once per tree
    node: it does not run out of fuel when it has more fuel than there
    are tree nodes. *)
Lemma flattenDendrogramTree_fuel (fuel : nat) (net : network) (K : Z) :
  wellFormed net → length (treeNodes net) < fuel →
  flattenDendrogramTree fuel net K ≠ Err OutOfFuel.
Proof.
  revert net. induction fuel as [|fuel IH]; intros net Hwf Hfuel; [lia|].
  destruct (decide (K < Z.of_nat (length (getClusters net)))%Z) as [HK|HK].
  - rewrite flattenDendrogramTree_step by done.
    destruct (squeeze net (getClusters net)) as [net1|e] eqn:H1; cbn.
    + destruct (squeeze_squeezed _ _ Hwf H1) as (X & P & Hsq).
      apply IH; [by eapply squeezed_wellFormed|].
      pose proof (squeezed_treeNodes _ _ _ _ Hsq). lia.
    + by rewrite (squeeze_Err _ _ _ H1).
  - by rewrite flattenDendrogramTree_noop by lia.
Qed.

Lemma getClusters_nonempty (net : network) :
  nodes net ≠ [] → 0 < length (getClusters net).
Proof.
  intros Hne. destruct (nodes net) as [|n ns] eqn:Hn; [done|].
  assert (node_parent n ∈ getClusters net) as Hin.
  { apply elem_of_getClusters. exists n. split; [|done]. rewrite Hn. by left. }
  destruct (getClusters net); [by apply elem_of_nil in Hin|cbn; lia].
Qed.

Lemma squeeze_nodes_length (net net' : network) (cl : list (option nat)) :
  squeeze net cl = Ok net' → length (nodes net') = length (nodes net).
Proof.
  intros H. apply squeeze_graphOf in H.
  apply (f_equal (λ n, length (nodes n))) in H. cbn in H.
  by rewrite !length_fmap in H.
Qed.

(** With a cluster count below one the loop cannot stop: there is
    always at least one cluster left. *)
Lemma flattenDendrogramTree_below_one (fuel : nat) (net : network) (K : Z) :
  nodes net ≠ [] → (K < 1)%Z →
  ∃ e, flattenDendrogramTree fuel net K = Err e
       ∧ (e = TypeError ∨ e = OutOfFuel).
Proof.
  revert net. induction fuel as [|fuel IH]; intros net Hne HK;
    pose proof (getClusters_nonempty net Hne) as Hc.
  - exists OutOfFuel. split; [|by right]. cbn.
    destruct (_ >? _)%Z eqn:Hgt; [done|lia].
  - rewrite flattenDendrogramTree_step by lia.
    destruct (squeeze net (getClusters net)) as [net1|e] eqn:H1; cbn.
    + apply IH; [|done]. apply squeeze_nodes_length in H1.
      intros Hnil. rewrite Hnil in H1. cbn in H1.
      by destruct (nodes net).
    + exists e. split; [done|]. left. by eapply squeeze_Err.
Qed.

Lemma wellFormedCheck_sound (net : network) :
  bool_decide (wellFormedCheck net) = true → wellFormed net.
Proof.
  intros H. apply bool_decide_eq_true in H as (Hnd & Hh & Hc & Hp & Ho).
  rewrite Forall_forall in Hh. rewrite Forall_forall in Hc.
  rewrite Forall_forall in Hp. rewrite Forall_forall in Ho.
  split; [done|done| | |].
  - intros t c Ht Hin. specialize (Hc t Ht). rewrite Forall_forall in Hc. eauto.
  - intros r p Hr Hrp.
    assert (r ∈ (RNode <$> seq 0 (length (nodes net)))
                ++ (RTree <$> treeNodes net)) as Hin.
    { apply elem_of_app. destruct r as [i|t]; cbn in Hr.
      - left. apply list_elem_of_fmap. exists i. split; [done|].
        apply elem_of_seq. lia.
      - right. by apply list_elem_of_fmap_2. }
    specialize (Hp r Hin). by rewrite Hrp in Hp.
  - intros t p Ht Htp. specialize (Ho t Ht). by rewrite Htp in Ho.
Qed.

Example exampleTree_built :
  makeNetworkDendrogramTree exampleFourNodes exampleLinkage
  = Ok (with_tree (nodes exampleTree) (treeNodes exampleTree)
                  (heap exampleTree) exampleFourNodes).
Proof. reflexivity. Qed.

Lemma exampleTree_wellFormed : wellFormed exampleTree.
Proof. apply wellFormedCheck_sound. vm_compute. reflexivity. Defined.

(** C4.  On a well-formed dendrogram, reducing to [K2] clusters after
    reducing to [K1] clusters never increases the number of distinct
    active clusters (the distinct parents of the nodes), whatever [K1]
    and [K2] are, so in particular for [K2 < K1]; and reducing to a
    [K] that is at least the current number of clusters returns the
    network as it is. *)
Theorem reduce_monotone_and_noop :
  (∀ (fuel1 fuel2 : nat) (t t1 t2 : network) (K1 K2 : Z),
     wellFormed t →
     flattenDendrogramTree fuel1 t K1 = Ok t1 →
     (K2 < K1)%Z →
     flattenDendrogramTree fuel2 t1 K2 = Ok t2 →
     length (getClusters t2) ≤ length (getClusters t1))
  ∧ (∀ (fuel : nat) (t : network) (K : Z),
       (Z.of_nat (length (getClusters t)) ≤ K)%Z →
       flattenDendrogramTree fuel t K = Ok t).
Proof.
  split.
  - intros fuel1 fuel2 t t1 t2 K1 K2 Hwf H1 _ H2.
    apply flattenDendrogramTree_wellFormed in H1 as (Hwf1 & _); [|done].
    by apply flattenDendrogramTree_wellFormed in H2 as (_ & ? & _).
  - intros fuel t K. apply flattenDendrogramTree_noop.
Qed.

Lemma reduce_monotone_and_noop_witness :
  ∃ t1 t2,
    flattenDendrogramTree 3 exampleTree 2%Z = Ok t1
    ∧ flattenDendrogramTree 3 t1 1%Z = Ok t2
    ∧ length (getClusters t1) = 2 ∧ length (getClusters t2) = 1
    ∧ length (getClusters t2) ≤ length (getClusters t1).
Proof.
  eexists _, _. split; [vm_compute; reflexivity|].
  split; [vm_compute; reflexivity|].
  split; [reflexivity|]. split; [reflexivity|].
  eapply (proj1 reduce_monotone_and_noop 3 3 exampleTree _ _ 2%Z 1%Z).
  - exact exampleTree_wellFormed.
  - vm_compute. reflexivity.
  - lia.
  - vm_compute. reflexivity.
Defined.

Lemma makeNetworkDendrogramTree_Err (net : network)
    (linkages : list linkageRow) (e : error) :
  makeNetworkDendrogramTree net linkages = Err e → e = TypeError.
Proof.
  unfold makeNetworkDendrogramTree.
  destruct (foldM _ _ _) as [s|e'] eqn:Hloop; cbn; [done|].
  intros [= <-]. apply foldM_Err in Hloop as (s' & b & _ & Hb).
  by eapply linkStep_Err.
Qed.

(** C7, as the specification states it, fails on the dendrogram of an
    extracted sub-network (the single synthetic root): with the cluster
    count [0], [setNumClusters] returns, and the dendrogram and
    [numClusters] are what they were. *)
Lemma setNumClusters_zero_returns :
  subNetworkBelowOne = Ok ([0], 1%Z, 1).
Proof. vm_compute. reflexivity. Qed.

(** ** Sub-networks (C3) *)

(** C3 on the code.  Nodes 1 and 2 are both neighbours of node 0 and
    are not joined in the network (the entry [7] is below 75 percent of
    the largest entry of row 1, which is [10]); the sub-network around
    node 0 has the nodes 0, 1 and 2 under their names, and an edge
    between 1 and 2 that the network does not have.  The sub-network
    is thresholded afresh on its sub-matrix, and with the array of
    labels (position 1 of the store) as its threshold values. *)
Theorem extractSubNetwork_adds_edge :
  subNetworkOfFour
  = Ok ([Edge 0 1 [Some 8%float]; Edge 0 2 [Some 8%float];
         Edge 1 3 [Some 10%float]],
        [Edge 0 1 [Some 8%float]; Edge 0 2 [Some 8%float];
         Edge 1 2 [Some 7%float]],
        [Some 0; Some 1; Some 2], ["1"; "2"; "3"], 1).
Proof. vm_compute. reflexivity. Qed.

(** The same sub-matrix thresholded with the threshold values of the
    network (the arguments in the order [createNetwork] declares them)
    also has the edge between 1 and 2: on the sub-matrix the largest
    entry of row 1 is [8]. *)
Example subMatrix_rethresholded :
  (ms ← mapM (λ m, extractSubMatrix m [0; 1; 2]) [exampleFour];
   sub ← createNetwork exampleStore75 0 ms ["Z"] [] [] None
           thresholdMatrix 0 1 0 1;
   Ok (edges sub))
  = Ok [Edge 0 1 [Some 8%float]; Edge 0 2 [Some 8%float];
        Edge 1 2 [Some 7%float]].
Proof. vm_compute. reflexivity. Qed.

(** ** What the builder builds

    The builder turns a standard linkage table into a well-formed
    dendrogram. *)

Lemma refOf_inj (numNodes H : nat) (a b : Z) :
  (1 ≤ a)%Z → (1 ≤ b)%Z → refOf numNodes H a = refOf numNodes H b → a = b.
Proof.
  unfold refOf. intros Ha Hb.
  destruct (a >? _)%Z eqn:Ea, (b >? _)%Z eqn:Eb; intros [= Heq]; lia.
Qed.

Lemma resolve_seq (ns : list node) (h : list treeNode) (H k : nat) (id : Z) :
  validId (length ns) k id → length h = H + k →
  resolve (length ns) ns (seq H k) id = Some (refOf (length ns) H id)
  ∧ exists_in ns h (refOf (length ns) H id).
Proof.
  unfold validId, resolve, refOf. intros Hv Hh.
  destruct (id >? _)%Z eqn:Hid.
  - unfold lookupZ. destruct (_ <? 0)%Z eqn:H0; [lia|].
    rewrite lookup_seq_lt by lia. cbn.
    split; [done|lia].
  - unfold lookupZ. destruct (_ <? 0)%Z eqn:H0; [lia|].
    destruct (ns !! Z.to_nat (id - 1)) eqn:Hn; cbn.
    + split; [done|]. by eapply lookup_lt_Some.
    + apply lookup_ge_None in Hn. lia.
Qed.

Lemma set_parent_spec (r : ref) (p : nat) (ns : list node)
    (h : list treeNode) :
  let s := set_parent r p (ns, h) in
  length s.1 = length ns ∧ length s.2 = length h
  ∧ (∀ r', parentIn s.1 s.2 r'
           = if decide (r' = r)
             then (if decide (exists_in ns h r) then Some p else None)
             else parentIn ns h r')
  ∧ (∀ t, treeChildren s.2 t = treeChildren h t).
Proof.
  destruct r as [i|u]; cbn; rewrite ?length_alter.
  - split; [done|]. split; [done|]. split; [|done].
    intros [j|t]; cbn; [|by rewrite decide_False].
    unfold nodeParent. rewrite list_lookup_alter.
    destruct (decide (i = j)) as [->|Hij].
    + rewrite decide_True by done. case_decide as Hlt.
      * apply lookup_lt_is_Some_2 in Hlt as [n ->]. done.
      * by rewrite (proj2 (lookup_ge_None _ _)) by lia.
    + rewrite decide_False; [done|congruence].
  - split; [done|]. split; [done|]. split.
    + intros [j|t]; cbn; [by rewrite decide_False|].
      unfold treeParent. rewrite list_lookup_alter.
      destruct (decide (u = t)) as [->|Hut].
      * rewrite decide_True by done. case_decide as Hlt.
        -- apply lookup_lt_is_Some_2 in Hlt as [n ->]. done.
        -- by rewrite (proj2 (lookup_ge_None _ _)) by lia.
      * rewrite decide_False; [done|congruence].
    + intros t. unfold treeChildren. rewrite list_lookup_alter.
      case_decide; [subst|done]. by destruct (h !! t).
Qed.

Lemma foldM_total_invariant {S B} (f : S → B → result S)
    (P : list B → S → Prop) (l : list B) (s0 : S) :
  P [] s0 →
  (∀ done b rest s, l = done ++ b :: rest → P done s →
     ∃ s', f s b = Ok s' ∧ P (done ++ [b]) s') →
  ∃ s, foldM f l s0 = Ok s ∧ P l s.
Proof.
  intros H0 Hstep.
  enough (∀ l' pre s1, l = pre ++ l' → P pre s1 →
            ∃ s, foldM f l' s1 = Ok s ∧ P (pre ++ l') s) as Hgen
    by (apply (Hgen l [] s0); done).
  induction l' as [|b l' IH]; intros pre s1 Hl Hpre.
  - exists s1. by rewrite app_nil_r.
  - destruct (Hstep pre b l' s1 Hl Hpre) as (s2 & Hs2 & HP2).
    destruct (IH (pre ++ [b]) s2) as (s & Hs & HP);
      [by rewrite <-(assoc_L (++))|done|].
    exists s. cbn. rewrite Hs2. cbn.
    by rewrite (cons_middle b pre l'), (assoc_L (++)).
Qed.

(** The effect of one row on the parents and the children. *)
Lemma linkStep_effect (numNodes i : nat) (s : treeBuild) (row : linkageRow)
    (L R : ref) :
  resolve numNodes (tb_nodes s) (tb_treeNodes s) (link_left row) = Some L →
  resolve numNodes (tb_nodes s) (tb_treeNodes s) (link_right row) = Some R →
  exists_in (tb_nodes s) (tb_heap s) L →
  exists_in (tb_nodes s) (tb_heap s) R →
  ∃ s', linkStep numNodes s (i, row) = Ok s'
    ∧ length (tb_nodes s') = length (tb_nodes s)
    ∧ length (tb_heap s') = S (length (tb_heap s))
    ∧ tb_treeNodes s' = tb_treeNodes s ++ [length (tb_heap s)]
    ∧ (∀ r, exists_in (tb_nodes s) (tb_heap s) r →
         parentIn (tb_nodes s') (tb_heap s') r
         = if decide (r = L ∨ r = R) then Some (length (tb_heap s))
           else parentIn (tb_nodes s) (tb_heap s) r)
    ∧ treeParent (tb_heap s') (length (tb_heap s)) = None
    ∧ treeChildren (tb_heap s') (length (tb_heap s)) = [L; R]
    ∧ (∀ t, t < length (tb_heap s) →
         treeChildren (tb_heap s') t = treeChildren (tb_heap s) t).
Proof.
  intros HL HR HeL HeR. unfold linkStep. rewrite HL, HR. cbn.
  pose proof (set_parent_spec L (length (tb_heap s)) (tb_nodes s) (tb_heap s))
    as (Hn1 & Hh1 & Hp1 & Hc1).
  destruct (set_parent L _ _) as [ns1 h1]. cbn [fst snd] in *.
  pose proof (set_parent_spec R (length (tb_heap s)) ns1 h1)
    as (Hn2 & Hh2 & Hp2 & Hc2).
  destruct (set_parent R _ _) as [ns2 h2]. cbn [fst snd] in *.
  eexists. split; [done|]. cbn [tb_nodes tb_heap tb_treeNodes].
  split; [congruence|]. split; [rewrite length_app; cbn; lia|].
  split; [done|].
  assert (exists_in ns1 h1 R) as HeR1.
  { destruct R; cbn in *; congruence. }
  split; [|split; [|split]].
  - intros r Hr.
    assert (parentIn ns2 (h2 ++ [TreeNode [L; R] (link_distance row)
                                   (i + numNodes) None]) r
            = parentIn ns2 h2 r) as ->.
    { destruct r as [j|t]; cbn; [done|]. unfold treeParent.
      rewrite lookup_app_l; [done|]. cbn in Hr. lia. }
    rewrite Hp2, Hp1.
    rewrite (decide_True (P := exists_in ns1 h1 R)) by done.
    rewrite (decide_True (P := exists_in _ _ L)) by done.
    repeat case_decide; try done; tauto.
  - unfold treeParent. rewrite lookup_app_r by lia.
    replace (length (tb_heap s) - length h2) with 0 by lia. done.
  - unfold treeChildren. rewrite lookup_app_r by lia.
    replace (length (tb_heap s) - length h2) with 0 by lia. done.
  - intros t Ht. rewrite <-Hc1, <-Hc2. unfold treeChildren.
    rewrite lookup_app_l; [done|lia].
Qed.

Lemma linkIds_app (l1 l2 : list linkageRow) :
  linkIds (l1 ++ l2) = linkIds l1 ++ linkIds l2.
Proof. unfold linkIds. apply bind_app. Qed.

Lemma elem_of_linkIds (l : list linkageRow) (id : Z) :
  id ∈ linkIds l ↔
  ∃ r row, l !! r = Some row ∧ id ∈ [link_left row; link_right row].
Proof.
  unfold linkIds. rewrite list_elem_of_bind. split.
  - intros (row & Hid & Hrow). apply list_elem_of_lookup in Hrow as [r Hr]. eauto.
  - intros (r & row & Hr & Hid). exists row. split; [done|].
    by eapply list_elem_of_lookup_2.
Qed.

Lemma linkStep_treeBuilt (numNodes H i : nat) (done : list linkageRow)
    (row : linkageRow) (s : treeBuild) :
  treeBuilt numNodes H done s →
  (∀ id, id ∈ linkIds done → (1 ≤ id)%Z) →
  validId numNodes (length done) (link_left row) →
  validId numNodes (length done) (link_right row) →
  link_left row ∉ linkIds done → link_right row ∉ linkIds done →
  ∃ s', linkStep numNodes s (i, row) = Ok s'
        ∧ treeBuilt numNodes H (done ++ [row]) s'.
Proof.
  intros [Hn Hh HT Hch Hpar Hfr] Hpos HvL HvR HnL HnR.
  set (L := refOf numNodes H (link_left row)).
  set (R := refOf numNodes H (link_right row)).
  rewrite <-Hn in HvL, HvR.
  destruct (resolve_seq (tb_nodes s) (tb_heap s) H (length done) _ HvL Hh)
    as [HL HeL].
  destruct (resolve_seq (tb_nodes s) (tb_heap s) H (length done) _ HvR Hh)
    as [HR HeR].
  rewrite Hn, <-HT in HL, HR. rewrite Hn in HeL, HeR, HvL, HvR.
  fold L in HL, HeL. fold R in HR, HeR.
  destruct (linkStep_effect numNodes i s row L R HL HR HeL HeR)
    as (s' & Hs' & Hn' & Hh' & HT' & Hp' & Hnone & Hnew & Hold).
  exists s'. split; [done|].
  assert (∀ id, id ∈ linkIds done → refOf numNodes H id ≠ L
                                   ∧ refOf numNodes H id ≠ R) as Hne.
  { intros id Hid. pose proof (Hpos id Hid).
    split; intros Heq; apply refOf_inj in Heq;
      try (unfold validId in *; lia); by subst. }
  split.
  - congruence.
  - rewrite Hh', Hh, length_app. cbn. lia.
  - rewrite HT', HT, Hh, length_app. cbn. by rewrite seq_app.
  - intros r row' Hr. apply lookup_app_Some in Hr as [Hr|[Hlen Hr]].
    + rewrite Hold by (apply lookup_lt_Some in Hr; lia). by apply Hch.
    + apply list_lookup_singleton_Some in Hr as [Hr <-].
      replace (H + r) with (length (tb_heap s)) by lia. done.
  - intros r row' id Hr Hid. apply lookup_app_Some in Hr as [Hr|[Hlen Hr]].
    + assert (id ∈ linkIds done) as Hin by (apply elem_of_linkIds; eauto).
      destruct (Hne id Hin) as [HneL HneR].
      pose proof (Hpar r row' id Hr Hid) as Hp.
      rewrite Hp'; [by rewrite decide_False by tauto|].
      destruct (refOf numNodes H id) as [j|t]; cbn in *.
      * unfold nodeParent in Hp. destruct (tb_nodes s !! j) eqn:E; [|done].
        by eapply lookup_lt_Some.
      * unfold treeParent in Hp. destruct (tb_heap s !! t) eqn:E; [|done].
        by eapply lookup_lt_Some.
    + apply list_lookup_singleton_Some in Hr as [Hr <-].
      assert (refOf numNodes H id = L ∨ refOf numNodes H id = R) as Hor.
      { apply elem_of_cons in Hid as [->|Hid]; [by left|].
        apply list_elem_of_singleton in Hid as ->. by right. }
      rewrite Hp'; [|by destruct Hor as [-> | ->]].
      rewrite decide_True by done. f_equal. lia.
  - intros t Ht Hid. rewrite length_app in Ht. cbn in Ht.
    rewrite linkIds_app in Hid. apply not_elem_of_app in Hid as [Hid1 Hid2].
    destruct (decide (t = length (tb_heap s))) as [->|Hlt]; [done|].
    assert (refOf numNodes H (Z.of_nat (numNodes + 1 + (t - H))) = RTree t)
      as Hreft.
    { unfold refOf. destruct (_ >? _)%Z eqn:E; [f_equal; lia|lia]. }
    assert (RTree t ≠ L ∧ RTree t ≠ R) as [HtL HtR].
    { rewrite <-Hreft. split; intros Heq; apply refOf_inj in Heq;
        try (unfold validId in *; lia); apply Hid2; rewrite Heq; cbn;
        [by left|right; by left]. }
    specialize (Hp' (RTree t)). cbn in Hp'.
    rewrite Hp' by lia. rewrite decide_False by tauto.
    apply Hfr; [lia|done].
Qed.

Lemma refOf_node (numNodes H i : nat) :
  i < numNodes → refOf numNodes H (Z.of_nat (S i)) = RNode i.
Proof.
  intros Hi. unfold refOf. destruct (_ >? _)%Z eqn:E; [lia|]. f_equal. lia.
Qed.

Lemma refOf_tree (numNodes H t : nat) :
  H ≤ t → refOf numNodes H (Z.of_nat (numNodes + 1 + (t - H))) = RTree t.
Proof.
  intros Ht. unfold refOf. destruct (_ >? _)%Z eqn:E; [|lia]. f_equal. lia.
Qed.

Lemma treeBuilt_parent_inv (numNodes H : nat) (l : list linkageRow)
    (s : treeBuild) (id : Z) :
  treeBuilt numNodes H l s → id ∈ linkIds l →
  ∃ r row, l !! r = Some row ∧ id ∈ [link_left row; link_right row]
    ∧ parentIn (tb_nodes s) (tb_heap s) (refOf numNodes H id) = Some (H + r)
    ∧ refOf numNodes H id ∈ treeChildren (tb_heap s) (H + r).
Proof.
  intros Hb Hid. apply elem_of_linkIds in Hid as (r & row & Hr & Hid).
  exists r, row. split; [done|]. split; [done|].
  split; [by eapply tbt_parent|].
  rewrite (tbt_children _ _ _ _ Hb r row Hr).
  apply elem_of_cons in Hid as [->|Hid]; [by left|].
  apply list_elem_of_singleton in Hid as ->. right. by left.
Qed.

Lemma treeBuilt_wellFormed (net : network) (l : list linkageRow)
    (s : treeBuild) :
  standardLinkage (length (nodes net)) l →
  treeBuilt (length (nodes net)) (length (heap net)) l s →
  wellFormed (with_tree (tb_nodes s) (tb_treeNodes s) (tb_heap s) net).
Proof.
  intros [Hvalid Hnd Hall] Hb.
  pose proof Hb as [Hn Hh HT Hch Hpar Hfr].
  set (N := length (nodes net)) in *. set (H := length (heap net)) in *.
  assert (∀ t, t ∈ seq H (length l) → treeParent (tb_heap s) t ≠ None →
            Z.of_nat (N + 1 + (t - H)) ∈ linkIds l) as Hused.
  { intros t Ht Hp. apply elem_of_seq in Ht.
    destruct (decide (Z.of_nat (N + 1 + (t - H)) ∈ linkIds l)); [done|].
    exfalso. apply Hp, Hfr; [lia|done]. }
  split; cbn [with_tree nodes heap treeNodes]; rewrite ?HT.
  - apply NoDup_seq.
  - intros t Ht. apply elem_of_seq in Ht. lia.
  - intros t c Ht Hc. apply elem_of_seq in Ht.
    destruct (lookup_lt_is_Some_2 l (t - H)) as [row Hrow]; [lia|].
    replace t with (H + (t - H)) in Hc |- * by lia.
    rewrite (Hch _ _ Hrow) in Hc.
    change (parentIn (tb_nodes s) (tb_heap s) c = Some (H + (t - H))).
    apply elem_of_cons in Hc as [->|Hc].
    + apply (Hpar _ row); [done|by left].
    + apply list_elem_of_singleton in Hc as ->.
      apply (Hpar _ row); [done|right; by left].
  - intros r p Hr Hp.
    change (parentIn (tb_nodes s) (tb_heap s) r = Some p) in Hp.
    assert (∃ id, id ∈ linkIds l ∧ refOf N H id = r) as (id & Hid & <-).
    { destruct r as [i|t]; cbn in Hr.
      - rewrite Hn in Hr. exists (Z.of_nat (S i)).
        split; [by apply Hall|by apply refOf_node].
      - pose proof Hr as Hr'. apply elem_of_seq in Hr'.
        exists (Z.of_nat (N + 1 + (t - H))). split; [|apply refOf_tree; lia].
        apply Hused; [done|]. cbn in Hp. by rewrite Hp. }
    destruct (treeBuilt_parent_inv _ _ _ _ _ Hb Hid)
      as (k & row & Hk & _ & Hpk & Hck).
    rewrite Hpk in Hp. injection Hp as <-. split; [|done].
    apply elem_of_seq. apply lookup_lt_Some in Hk. lia.
  - intros t p Ht Hp. pose proof Ht as Ht'. apply elem_of_seq in Ht'.
    assert (Z.of_nat (N + 1 + (t - H)) ∈ linkIds l) as Hid
      by (apply Hused; [done|by rewrite Hp]).
    destruct (treeBuilt_parent_inv _ _ _ _ _ Hb Hid)
      as (k & row & Hk & Hin & Hpk & _).
    rewrite refOf_tree in Hpk by lia. cbn in Hpk.
    rewrite Hpk in Hp. injection Hp as <-.
    destruct (Hvalid k row Hk) as [HvL HvR]. unfold validId in *.
    apply elem_of_cons in Hin as [Hin|Hin];
      [|apply list_elem_of_singleton in Hin]; lia.
Qed.

(** On a standard linkage table the builder returns, and what it
    returns is a well-formed dendrogram with one tree node per row. *)
Lemma makeNetworkDendrogramTree_wellFormed (net : network)
    (l : list linkageRow) :
  standardLinkage (length (nodes net)) l →
  ∃ net', makeNetworkDendrogramTree net l = Ok net'
    ∧ wellFormed net'
    ∧ treeNodes net' = seq (length (heap net)) (length l)
    ∧ length (nodes net') = length (nodes net).
Proof.
  intros Hstd. pose proof Hstd as [Hvalid Hnd Hall].
  unfold makeNetworkDendrogramTree.
  destruct (foldM_total_invariant
              (linkStep (length (nodes net)))
              (λ done s, treeBuilt (length (nodes net)) (length (heap net))
                                   (snd <$> done) s)
              (imap pair l) (TreeBuild (nodes net) (heap net) []))
    as (s & Hs & Hb).
  { split; cbn; try done; try lia; intros; lia. }
  { intros done [i row] rest s Hl Hb.
    apply (f_equal (fmap snd)) in Hl.
    rewrite snd_imap_pair, fmap_app, fmap_cons in Hl. cbn in Hl.
    assert (l !! length (snd <$> done) = Some row) as Hrow
      by (rewrite Hl; by apply list_lookup_middle).
    destruct (Hvalid _ _ Hrow) as [HvL HvR].
    rewrite Hl, linkIds_app in Hnd. cbn in Hnd.
    apply NoDup_app in Hnd as (_ & Hdis & Hnd2).
    rewrite fmap_app. cbn.
    apply linkStep_treeBuilt; try done.
    - intros id Hid. apply elem_of_linkIds in Hid as (r & row' & Hr & Hid).
      assert (l !! r = Some row') as Hr'
        by (rewrite Hl; apply lookup_app_l_Some; done).
      destruct (Hvalid _ _ Hr') as [H1 H2]. unfold validId in *.
      apply elem_of_cons in Hid as [->|Hid];
        [|apply list_elem_of_singleton in Hid as ->]; lia.
    - intros Hin. apply (Hdis _ Hin). by left.
    - intros Hin. apply (Hdis _ Hin). right. by left. }
  rewrite snd_imap_pair in Hb.
  rewrite Hs. cbn. eexists. split; [done|].
  split; [by apply (treeBuilt_wellFormed net l s)|].
  destruct Hb as [Hn _ HT _ _ _]. by split.
Qed.

(** *** The nodes of a sub-network

    The part of C3 that the code keeps: every node of the sub-network
    carries the index of the root or of one of its neighbours, and the
    name of that node. *)

Lemma mapM_Ok_elem_of {A B} (f : A → result B) (l : list A) (k : list B)
    (y : B) :
  mapM f l = Ok k → y ∈ k → ∃ x, x ∈ l ∧ f x = Ok y.
Proof.
  intros H Hy. apply mapM_Ok_lookup in H as [Hlen Hl].
  apply list_elem_of_lookup in Hy as [i Hi].
  destruct (lookup_lt_is_Some_2 l i) as [x Hx];
    [rewrite <-Hlen; by eapply lookup_lt_Some|].
  destruct (Hl i x Hx) as (y' & Hy' & Hf). exists x.
  split; [by eapply list_elem_of_lookup_2|congruence].
Qed.

Lemma subNodeIdxs_elem_of (net : network) (rootIdx idx : nat)
    (nodeIdxs : list nat) :
  indexed net →
  subNodeIdxs net rootIdx = Ok nodeIdxs → idx ∈ nodeIdxs →
  idx = rootIdx ∨ neighbour net rootIdx idx.
Proof.
  intros Hix H Hin. unfold subNodeIdxs in H.
  apply bind_Ok in H as (oldRoot & Hroot & H). apply deref_Ok in Hroot.
  apply bind_Ok in H as (nbs & Hnbs & H). injection H as <-.
  rewrite merge_sort_Permutation in Hin.
  apply elem_of_cons in Hin as [->|Hin]; [by left|]. right.
  destruct (mapM_Ok_elem_of _ _ _ _ Hnbs Hin) as (k & Hk & Hf).
  apply bind_Ok in Hf as (n & Hn & Hf). apply deref_Ok in Hn.
  injection Hf as <-. rewrite (Hix _ _ Hn). by exists oldRoot.
Qed.

Lemma extractSubNetwork_nodes (σ : store) (net sub : network)
    (rootIdx k : nat) (n : node) :
  indexed net →
  extractSubNetwork σ net rootIdx = Ok sub →
  nodes sub !! k = Some n →
  ∃ idx old,
    node_fullNetIndex n = Some idx
    ∧ (idx = rootIdx ∨ neighbour net rootIdx idx)
    ∧ nodes net !! idx = Some old
    ∧ node_name n = node_name old.
Proof.
  intros Hix H Hk.
  apply extractSubNetwork_inv in H
    as (nodeIdxs & subMatrices & subnet & ns & Hidx & _ & _ & Hns & ->).
  cbn in Hk. rewrite list_lookup_fmap in Hk.
  destruct (ns !! k) as [n1|] eqn:Hn1; [|done]. injection Hk as <-.
  apply mapM_Ok_lookup in Hns as [Hlen Hl].
  destruct (lookup_lt_is_Some_2 (imap pair (nodes subnet)) k) as [x Hx];
    [rewrite <-Hlen; by eapply lookup_lt_Some|].
  destruct (Hl k x Hx) as (y & Hy & Hrel).
  assert (y = n1) as -> by congruence.
  apply list_lookup_imap_Some in Hx as (n0 & Hn0 & ->).
  unfold relabel in Hrel. cbn in Hrel.
  apply bind_Ok in Hrel as (old & Hold & Hrel). apply deref_Ok in Hold.
  injection Hrel as <-.
  destruct (nodeIdxs !! k) as [idx|] eqn:Hik; [|done]. cbn in Hold.
  exists idx, old. cbn. rewrite (Hix _ _ Hold).
  split; [done|]. split; [|done].
  eapply subNodeIdxs_elem_of; [done..|]. by eapply list_elem_of_lookup_2.
Qed.

Lemma indexed_fmap (net net' : network) :
  node_index <$> nodes net' = node_index <$> nodes net →
  indexed net → indexed net'.
Proof.
  intros Heq Hix i n' Hn'.
  assert ((node_index <$> nodes net') !! i = Some (node_index n')) as Hi
    by (by rewrite list_lookup_fmap, Hn').
  rewrite Heq, list_lookup_fmap in Hi.
  destruct (nodes net !! i) as [n|] eqn:Hn; [|done].
  injection Hi as <-. by apply Hix.
Qed.

Lemma createNetwork_indexed (σ : store) (fuel : nat) ms mls nd ndls lk tf
    tv tvl ti nc (net : network) :
  createNetwork σ fuel ms mls nd ndls lk tf tv tvl ti nc = Ok net →
  indexed net.
Proof.
  intros H. apply createNetwork_inv in H as (first & net1 & _ & H1 & H2).
  apply setNumClusters_graphOf in H2.
  apply (indexed_fmap net1).
  { apply (f_equal nodes) in H2. cbn in H2.
    apply (f_equal (fmap node_index)) in H2.
    by rewrite <-!list_fmap_compose in H2. }
  destruct (thresholdNetwork_thresholded _ _ _ H1) as [tm Htm].
  destruct (thresholdNetwork_spec _ _ _ _ Htm H1) as (_ & _ & Hn & _).
  intros i n' Hn'. destruct (Hn i n' Hn') as (_ & _ & n & Hni & -> & _).
  cbn in Hni. rewrite list_lookup_fmap in Hni.
  destruct (seq 0 (length first) !! i) as [j|] eqn:Hj; [|done].
  injection Hni as <-. cbn. apply lookup_seq in Hj. lia.
Qed.

(** *** Standard linkage tables, as a check that can be run *)

Lemma standardLinkageCheck_sound (numNodes : nat) (l : list linkageRow) :
  bool_decide (standardLinkageCheck numNodes l) = true →
  standardLinkage numNodes l.
Proof.
  intros H. apply bool_decide_eq_true in H as (Hv & Hnd & Hall).
  rewrite Forall_forall in Hv. rewrite Forall_forall in Hall.
  split; [|done|].
  - intros r row Hr. apply (Hv (r, row)).
    apply list_elem_of_lookup. exists r. by rewrite list_lookup_imap, Hr.
  - intros i Hi. apply Hall, elem_of_seq. lia.
Qed.

Lemma exampleLinkage_standard : standardLinkage 4 exampleLinkage.
Proof. apply standardLinkageCheck_sound. vm_compute. reflexivity. Defined.

(** ** Cluster counts below one (C7) *)

(** C7, amended.  The cluster count is not validated and no
    [ClusterError] exists.  On a network without linkage data, such as
    an extracted sub-network, [setNumClusters] returns the network
    unchanged for every cluster count.  On a network with linkage data
    and at least one node, [setNumClusters] with a count below one
    never returns normally: the builder or the reducer fails.  On a well-formed
    dendrogram with at least one node the reducer goes on squeezing
    clusters out until it reads the [parent] of a cluster that has
    none, and fails with the runtime's TypeError after at most one
    round per tree node; so does [setNumClusters] on a network with a
    standard linkage table. *)
Theorem reduce_below_one :
  (∀ (fuel : nat) (net : network) (K : Z),
     linkage net = None → setNumClusters fuel net K = Ok net)
  ∧ (∀ (fuel : nat) (net : network) (K : Z),
       linkage net ≠ None → nodes net ≠ [] → (K < 1)%Z →
       ∃ e, setNumClusters fuel net K = Err e
            ∧ (e = TypeError ∨ e = OutOfFuel))
  ∧ (∀ (fuel : nat) (net : network) (K : Z),
       wellFormed net → nodes net ≠ [] → (K < 1)%Z →
       length (treeNodes net) < fuel →
       flattenDendrogramTree fuel net K = Err TypeError)
  ∧ (∀ (fuel : nat) (net : network) (l : list linkageRow) (K : Z),
       linkage net = Some l → standardLinkage (length (nodes net)) l →
       nodes net ≠ [] → (K < 1)%Z → length l < fuel →
       setNumClusters fuel net K = Err TypeError).
Proof.
  assert (∀ (fuel : nat) (net : network) (K : Z),
            wellFormed net → nodes net ≠ [] → (K < 1)%Z →
            length (treeNodes net) < fuel →
            flattenDendrogramTree fuel net K = Err TypeError) as Hflat.
  { intros fuel net K Hwf Hne HK Hfuel.
    destruct (flattenDendrogramTree_below_one fuel net K Hne HK)
      as (e & He & [->| ->]); [done|].
    by apply flattenDendrogramTree_fuel in He. }
  split; [|split; [|split]].
  - intros fuel net K Hl. unfold setNumClusters. by rewrite Hl.
  - intros fuel net K Hl Hne HK. unfold setNumClusters.
    destruct (linkage net) as [l|]; [|done].
    destruct (makeNetworkDendrogramTree net l) as [net1|e] eqn:H1; cbn.
    + assert (nodes net1 ≠ []) as Hne1.
      { apply makeNetworkDendrogramTree_graphOf in H1.
        apply (f_equal (λ n, length (nodes n))) in H1. cbn in H1.
        rewrite !length_fmap in H1. intros Hnil. rewrite Hnil in H1.
        by destruct (nodes net). }
      destruct (flattenDendrogramTree_below_one fuel net1 K Hne1 HK)
        as (e & -> & He).
      by exists e.
    + exists e. split; [done|]. left.
      by eapply makeNetworkDendrogramTree_Err.
  - exact Hflat.
  - intros fuel net l K Hl Hstd Hne HK Hfuel. unfold setNumClusters.
    rewrite Hl.
    destruct (makeNetworkDendrogramTree_wellFormed net l Hstd)
      as (net1 & -> & Hwf & HT & Hn). cbn.
    rewrite Hflat; [done..| |done|by rewrite HT, length_seq].
    intros Hnil. rewrite Hnil in Hn. by destruct (nodes net).
Qed.

Lemma reduce_below_one_witness :
  setNumClusters 4 exampleLinked 0 = Err TypeError.
Proof.
  apply (proj2 (proj2 (proj2 reduce_below_one)) 4 exampleLinked
           exampleLinkage 0%Z).
  - reflexivity.
  - exact exampleLinkage_standard.
  - discriminate.
  - lia.
  - cbn. lia.
Defined.

(** [setNumClusters], the exported entry point, builds the dendrogram
    anew from the linkage table before it reduces it: after a
    reduction to one cluster, a call with the count [2] brings the two
    clusters of the table back. *)
Example setNumClusters_rebuilds :
  (n1 ← setNumClusters 4 exampleLinked 1;
   n2 ← setNumClusters 4 n1 2;
   Ok (length (getClusters n1), length (treeNodes n1),
       length (getClusters n2), length (treeNodes n2)))
  = Ok (1, 1, 2, 3).
Proof. vm_compute. reflexivity. Qed.

(** * Further properties of the code *)

(** ** Sub-matrices ([extractSubMatrix]) *)

Lemma extractSubMatrix_total (m : matrix) (indices : list nat) :
  Forall (λ i, i < length m) indices →
  extractSubMatrix m indices
  = Ok ((λ i, (λ j, entry m i j) <$> indices) <$> indices).
Proof.
  intros H. rewrite Forall_forall in H. apply mapM_total. intros i Hi.
  apply mapM_total. intros j _. apply cell_total. by apply H.
Qed.

Lemma extractSubMatrix_Ok (m sub : matrix) (indices : list nat) :
  extractSubMatrix m indices = Ok sub → Forall (λ i, i < length m) indices.
Proof.
  intros Hs. apply Forall_forall. intros i Hi.
  apply list_elem_of_lookup in Hi as [a Ha].
  apply mapM_Ok_lookup in Hs as [_ Hs].
  destruct (Hs a i Ha) as (row & _ & Hrow).
  apply mapM_Ok_lookup in Hrow as [_ Hrow].
  destruct (Hrow a i Ha) as (v & _ & Hv).
  unfold cell in Hv. apply bind_Ok in Hv as (r & Hr & _).
  apply deref_Ok in Hr. by eapply lookup_lt_Some.
Qed.

Lemma extractSubMatrix_Err (m : matrix) (indices : list nat) (e : error) :
  extractSubMatrix m indices = Err e → e = TypeError.
Proof.
  intros Hs. apply mapM_Err in Hs as (i & _ & Hi).
  apply mapM_Err in Hi as (j & _ & Hj). unfold cell in Hj.
  destruct (deref (m !! i)) eqn:Hd; cbn in Hj; [done|].
  injection Hj as <-. by eapply deref_Err.
Qed.

Lemma omap_lookup_total {A} (d : A) (l : list A) (ks : list nat) :
  Forall (λ k, k < length l) ks →
  omap (l !!.) ks = (λ k, default d (l !! k)) <$> ks.
Proof.
  induction 1 as [|k ks Hk _ IH]; [done|]. cbn.
  apply lookup_lt_is_Some_2 in Hk as [x Hx]. rewrite Hx. cbn. by rewrite IH.
Qed.

(** X1.  [extractSubMatrix] returns exactly when every index is a row
    of the matrix, and fails with the runtime's TypeError otherwise;
    the sub-matrix has one row and one column per index, and its entry
    at [a][b] is the entry of the matrix at [indices[a]][indices[b]]
    ([undefined] where the matrix has no such cell). *)
Theorem extractSubMatrix_entries (m : matrix) (indices : list nat) :
  extractSubMatrix m indices
  = if bool_decide (Forall (λ i, i < length m) indices)
    then Ok ((λ i, (λ j, entry m i j) <$> indices) <$> indices)
    else Err TypeError.
Proof.
  case_bool_decide as H; [by apply extractSubMatrix_total|].
  destruct (extractSubMatrix m indices) as [sub|e] eqn:Hs.
  - by apply extractSubMatrix_Ok in Hs.
  - by apply extractSubMatrix_Err in Hs as ->.
Qed.

(** X2.  Extracting a sub-matrix of a sub-matrix is extracting once with
    the composed indices: the sub-matrices of a sub-network of a
    sub-network are sub-matrices of the full network. *)
Theorem extractSubMatrix_compose (m : matrix) (is1 is2 : list nat) :
  Forall (λ i, i < length m) is1 →
  Forall (λ k, k < length is1) is2 →
  (extractSubMatrix m is1 ≫= λ sub, extractSubMatrix sub is2)
  = extractSubMatrix m (omap (is1 !!.) is2).
Proof.
  intros H1 H2. rewrite (extractSubMatrix_total m is1 H1). cbn.
  rewrite (omap_lookup_total 0 is1 is2 H2).
  rewrite !extractSubMatrix_total.
  - f_equal. rewrite <- list_fmap_compose.
    apply Forall_fmap_ext_1. rewrite Forall_forall in H2 |- *.
    intros a Ha. cbn. rewrite <- list_fmap_compose.
    apply Forall_fmap_ext_1. apply Forall_forall. intros b Hb. cbn.
    apply H2 in Ha, Hb.
    apply lookup_lt_is_Some_2 in Ha as [ia Hia].
    apply lookup_lt_is_Some_2 in Hb as [ib Hib].
    rewrite Hia, Hib. cbn. unfold entry at 1.
    rewrite list_lookup_fmap, Hia. cbn.
    by rewrite list_lookup_fmap, Hib.
  - apply Forall_fmap. rewrite Forall_forall in H1, H2 |- *.
    intros k Hk. cbn. apply H2 in Hk.
    apply lookup_lt_is_Some_2 in Hk as [i Hi]. rewrite Hi. cbn.
    apply H1. by eapply list_elem_of_lookup_2.
  - by rewrite length_fmap.
Qed.

Lemma extractSubMatrix_compose_witness :
  (extractSubMatrix exampleFour [0; 1; 3] ≫= λ sub, extractSubMatrix sub [2; 0])
  = extractSubMatrix exampleFour (omap ([0; 1; 3] !!.) [2; 0]).
Proof.
  apply extractSubMatrix_compose.
  - repeat constructor.
  - repeat constructor.
Defined.

(** ** The graph that [thresholdNetwork] builds *)

Lemma NoDup_pairs (n : nat) : NoDup (pairs n).
Proof.
  unfold pairs. apply NoDup_bind.
  - intros i1 i2 [a b] _ _ H1 H2.
    apply list_elem_of_bind in H1 as (j1 & H1 & _).
    apply list_elem_of_bind in H2 as (j2 & H2 & _).
    apply list_elem_of_singleton in H1, H2. congruence.
  - intros i _. apply NoDup_bind.
    + intros j1 j2 [a b] _ _ H1 H2.
      apply list_elem_of_singleton in H1, H2. congruence.
    + intros j _. apply NoDup_singleton.
    + apply NoDup_seq.
  - apply NoDup_seq.
Qed.

Lemma NoDup_kept (tm : matrix) (n : nat) : NoDup (kept tm (pairs n)).
Proof. unfold kept. apply NoDup_filter, NoDup_pairs. Qed.

Lemma ends_edgeOf (mats : list matrix) (ps : list (nat * nat)) :
  ends <$> (edgeOf mats <$> ps) = ps.
Proof.
  rewrite <- list_fmap_compose. rewrite <- (list_fmap_id ps) at 2.
  apply list_fmap_ext. by intros _ [i j] _.
Qed.

Lemma NoDup_omap_otherEnd (a : nat) (ps : list (nat * nat)) :
  NoDup ps → (∀ ij, ij ∈ ps → ij.1 < ij.2) →
  NoDup (omap (otherEnd a) ps).
Proof.
  induction 1 as [|ij ps Hnin Hnd IH]; intros Hlt; [constructor|].
  cbn. destruct (otherEnd a ij) as [b|] eqn:Hb.
  - constructor.
    + intros Hin. apply list_elem_of_omap in Hin as (ij' & Hin' & Hb').
      assert (ij.1 < ij.2) by (apply Hlt; by left).
      assert (ij'.1 < ij'.2) by (apply Hlt; by right).
      apply otherEnd_Some in Hb; [|lia]. apply otherEnd_Some in Hb'; [|lia].
      destruct ij as [i j], ij' as [i' j']. cbn in *.
      destruct Hb as [Hb|Hb], Hb' as [Hb'|Hb']; simplify_eq; try lia; done.
    + apply IH. intros ? ?. apply Hlt. by right.
  - apply IH. intros ? ?. apply Hlt. by right.
Qed.

Lemma filter_fmap_edgeOf (mats : list matrix) (a : nat)
    (ps : list (nat * nat)) :
  filter (incidentTo a) (edgeOf mats <$> ps)
  = edgeOf mats <$> filter (incident a) ps.
Proof.
  induction ps as [|ij ps IH]; [done|].
  rewrite fmap_cons, !filter_cons.
  destruct (decide (incident a ij)) as [Hi|Hi];
    destruct (decide (incidentTo a (edgeOf mats ij))) as [Hi'|Hi'];
    rewrite ?fmap_cons, ?IH; try done; exfalso; apply Hi' || apply Hi; done.
Qed.

Lemma omap_otherEnd_filter (mats : list matrix) (a : nat)
    (ps : list (nat * nat)) :
  omap (otherEnd a) ps
  = otherEndOf a <$> (edgeOf mats <$> filter (incident a) ps).
Proof.
  induction ps as [|[i j] ps IH]; [done|]. rewrite filter_cons.
  cbn [omap list_omap]. unfold otherEnd at 1, incident at 1. cbn [fst snd].
  destruct (decide (i = a)) as [->|Hi].
  - rewrite decide_True by (by left). rewrite !fmap_cons.
    unfold otherEndOf at 1. cbn. rewrite decide_True by done.
    by rewrite IH.
  - destruct (decide (j = a)) as [->|Hj].
    + rewrite decide_True by (by right). rewrite !fmap_cons.
      unfold otherEndOf at 1. cbn. rewrite decide_False by done.
      by rewrite IH.
    + rewrite decide_False by (intros [?|?]; done). done.
Qed.

(** X3.  The graph [thresholdNetwork] builds is a simple graph: every
    edge runs from a lower to a higher node position, both inside the
    network; no two edges join the same two nodes; no node is its own
    neighbour, no neighbour is listed twice, and every neighbour is a
    node of the network. *)
Theorem thresholdNetwork_simple_graph (σ : store) (net net' : network) :
  thresholdNetwork σ net = Ok net' →
  (∀ e, e ∈ edges net' → edge_i e < edge_j e < length (nodes net'))
  ∧ NoDup (ends <$> edges net')
  ∧ ∀ a n, nodes net' !! a = Some n →
      NoDup (node_neighbours n) ∧ (a ∉ node_neighbours n)
      ∧ (∀ b, b ∈ node_neighbours n → b < length (nodes net')).
Proof.
  intros H. destruct (thresholdNetwork_thresholded _ _ _ H) as [tm Htm].
  destruct (thresholdNetwork_spec σ net net' tm Htm H)
    as (He & Hlen & Hn & _).
  assert (∀ ij, ij ∈ kept tm (pairs (length (nodes net))) →
                ij.1 < ij.2 < length (nodes net)) as Hps.
  { intros [i j] Hij. by apply elem_of_kept in Hij as [? _]. }
  split; [|split].
  - intros e Hin. rewrite He in Hin.
    apply list_elem_of_fmap in Hin as (ij & -> & Hij). cbn. rewrite Hlen.
    by apply Hps.
  - rewrite He, ends_edgeOf. apply NoDup_kept.
  - intros a n Ha. destruct (Hn a n Ha) as (-> & _ & _).
    split; [|split].
    + apply NoDup_omap_otherEnd; [apply NoDup_kept|].
      intros ij Hij. apply Hps in Hij. lia.
    + intros Hin. apply list_elem_of_omap in Hin as (ij & Hij & Hb).
      apply Hps in Hij. apply otherEnd_Some in Hb; [|lia].
      destruct ij as [i j]. cbn in *. destruct Hb; simplify_eq; lia.
    + intros b Hin. apply list_elem_of_omap in Hin as (ij & Hij & Hb).
      apply Hps in Hij. apply otherEnd_Some in Hb; [|lia].
      destruct ij as [i j]. cbn in *. rewrite Hlen.
      destruct Hb; simplify_eq; lia.
Qed.

(** X4.  After [thresholdNetwork], [node.edges] is the part of
    [network.edges] that touches the node, in the same order, and
    [node.neighbours] lists the other ends of these edges, one by
    one. *)
Theorem thresholdNetwork_node_edges (σ : store) (net net' : network)
    (a : nat) (n : node) :
  thresholdNetwork σ net = Ok net' →
  nodes net' !! a = Some n →
  node_edges n = filter (incidentTo a) (edges net')
  ∧ node_neighbours n = otherEndOf a <$> node_edges n.
Proof.
  intros H Ha. destruct (thresholdNetwork_thresholded _ _ _ H) as [tm Htm].
  destruct (thresholdNetwork_spec σ net net' tm Htm H)
    as (He & Hlen & Hn & _).
  destruct (Hn a n Ha) as (Hnb & Hne & _).
  rewrite Hne, Hnb, He. split.
  - by rewrite filter_fmap_edgeOf.
  - apply omap_otherEnd_filter.
Qed.

Lemma thresholdNetwork_simple_graph_witness :
  ∃ net', thresholdNetwork [[]; []] exampleUnbuilt = Ok net'
    ∧ (∀ e, e ∈ edges net' → edge_i e < edge_j e < length (nodes net'))
    ∧ NoDup (ends <$> edges net')
    ∧ ∀ a n, nodes net' !! a = Some n →
        NoDup (node_neighbours n) ∧ (a ∉ node_neighbours n)
        ∧ (∀ b, b ∈ node_neighbours n → b < length (nodes net')).
Proof.
  eexists. split; [vm_compute; reflexivity|].
  apply (thresholdNetwork_simple_graph [[]; []] exampleUnbuilt).
  vm_compute. reflexivity.
Defined.

Lemma thresholdNetwork_node_edges_witness :
  ∃ net' n, thresholdNetwork [[]; []] exampleUnbuilt = Ok net'
    ∧ nodes net' !! 1 = Some n
    ∧ node_edges n = filter (incidentTo 1) (edges net')
    ∧ node_neighbours n = otherEndOf 1 <$> node_edges n.
Proof.
  eexists _, _. split; [vm_compute; reflexivity|].
  split; [reflexivity|].
  apply (thresholdNetwork_node_edges [[]; []] exampleUnbuilt);
    vm_compute; reflexivity.
Defined.

Lemma sum_list_with_seq {A} (g : A → nat) (f : nat → nat) (l : list A)
    (s : nat) :
  (∀ a x, l !! a = Some x → g x = f (s + a)) →
  sum_list_with g l = sum_list_with f (seq s (length l)).
Proof.
  revert s. induction l as [|x l IH]; intros s H; [done|]. cbn.
  rewrite (H 0 x eq_refl), Nat.add_0_r. f_equal. apply IH.
  intros a y Ha. rewrite (H (S a) y Ha). f_equal. lia.
Qed.

Lemma sum_list_with_add {A} (f g : A → nat) (l : list A) :
  sum_list_with (λ x, f x + g x) l = sum_list_with f l + sum_list_with g l.
Proof. induction l as [|x l IH]; [done|]. cbn. rewrite IH. lia. Qed.

Lemma sum_list_with_ext {A} (f g : A → nat) (l : list A) :
  (∀ x, x ∈ l → f x = g x) → sum_list_with f l = sum_list_with g l.
Proof.
  induction l as [|x l IH]; intros H; [done|]. cbn.
  rewrite (H x) by (by left). rewrite IH; [done|].
  intros ? ?. apply H. by right.
Qed.

Lemma sum_list_with_indicator (i s n : nat) :
  sum_list_with (λ a, if decide (a = i) then 1 else 0) (seq s n)
  = if decide (s ≤ i < s + n) then 1 else 0.
Proof.
  revert s. induction n as [|n IH]; intros s; cbn.
  - rewrite decide_False by lia. done.
  - rewrite IH. repeat case_decide; lia.
Qed.

Lemma sum_degrees (n : nat) (ps : list (nat * nat)) :
  (∀ ij, ij ∈ ps → ij.1 < ij.2 < n) →
  sum_list_with (λ a, length (omap (otherEnd a) ps)) (seq 0 n)
  = 2 * length ps.
Proof.
  induction ps as [|[i j] ps IH]; intros H.
  - cbn. induction (seq 0 n); [done|]. cbn. done.
  - rewrite (sum_list_with_ext _
      (λ a, ((if decide (a = i) then 1 else 0)
             + (if decide (a = j) then 1 else 0))
            + length (omap (otherEnd a) ps))).
    + rewrite !sum_list_with_add, !sum_list_with_indicator, IH.
      * assert (i < j < n) by (apply (H (i, j)); by left).
        rewrite !decide_True by lia. cbn. lia.
      * intros ? ?. apply H. by right.
    + intros a _. cbn. unfold otherEnd at 1. cbn.
      assert (i < j) by (apply (H (i, j)); by left).
      repeat case_decide; cbn; lia.
Qed.

(** X5.  After [thresholdNetwork] the lengths of the neighbour lists
    add up to twice the number of edges. *)
Theorem thresholdNetwork_degree_sum (σ : store) (net net' : network) :
  thresholdNetwork σ net = Ok net' →
  sum_list_with (λ n, length (node_neighbours n)) (nodes net')
  = 2 * length (edges net').
Proof.
  intros H. destruct (thresholdNetwork_thresholded _ _ _ H) as [tm Htm].
  destruct (thresholdNetwork_spec σ net net' tm Htm H)
    as (He & Hlen & Hn & _).
  rewrite (sum_list_with_seq _
    (λ a, length (omap (otherEnd a)
                    (kept tm (pairs (length (nodes net)))))) _ 0).
  - rewrite Hlen, sum_degrees, He, length_fmap; [done|].
    intros [i j] Hij. by apply elem_of_kept in Hij as [? _].
  - intros a n Ha. by destruct (Hn a n Ha) as (-> & _).
Qed.

Lemma thresholdNetwork_degree_sum_witness :
  ∃ net', thresholdNetwork [[]; []] exampleUnbuilt = Ok net'
    ∧ sum_list_with (λ n, length (node_neighbours n)) (nodes net')
      = 2 * length (edges net').
Proof.
  eexists. split; [vm_compute; reflexivity|].
  apply (thresholdNetwork_degree_sum [[]; []] exampleUnbuilt).
  vm_compute. reflexivity.
Defined.

(** X6.  [thresholdNetwork] rebuilds edges, neighbours and statistics
    and nothing else: the parents of the nodes, hence the clusters,
    the tree nodes, the cluster count, the linkage table and the
    names and indices of the nodes are what they were. *)
Theorem thresholdNetwork_keeps_dendrogram (σ : store) (net net' : network) :
  thresholdNetwork σ net = Ok net' →
  node_parent <$> nodes net' = node_parent <$> nodes net
  ∧ getClusters net' = getClusters net
  ∧ treeNodes net' = treeNodes net ∧ heap net' = heap net
  ∧ numClusters net' = numClusters net ∧ linkage net' = linkage net
  ∧ node_name <$> nodes net' = node_name <$> nodes net
  ∧ node_index <$> nodes net' = node_index <$> nodes net
  ∧ node_fullNetIndex <$> nodes net' = node_fullNetIndex <$> nodes net.
Proof.
  intros H. destruct (thresholdNetwork_thresholded _ _ _ H) as [tm Htm].
  destruct (thresholdNetwork_spec σ net net' tm Htm H)
    as (_ & Hlen & Hn & _ & _ & _ & _ & Hl & Hk & Ht & Hh).
  assert (∀ {C} (g : node → C),
            (∀ a n' n, nodes net' !! a = Some n' → nodes net !! a = Some n →
               g n' = g n) →
            g <$> nodes net' = g <$> nodes net) as Hext.
  { intros C g Hg. apply list_eq. intros a. rewrite !list_lookup_fmap.
    destruct (nodes net' !! a) as [n'|] eqn:Hn'.
    - destruct (Hn a n' Hn') as (_ & _ & n & Hna & _).
      rewrite Hna. cbn. f_equal. by eapply Hg.
    - apply lookup_ge_None in Hn'. rewrite Hlen in Hn'.
      apply lookup_ge_None in Hn'. by rewrite Hn'. }
  assert (node_parent <$> nodes net' = node_parent <$> nodes net) as Hp.
  { apply Hext. intros a n' n Hn' Hna.
    destruct (Hn a n' Hn') as (_ & _ & n0 & Hn0 & ? & ? & ? & ?).
    congruence. }
  split; [done|]. split; [unfold getClusters; by rewrite Hp|].
  repeat (split; [done|]).
  split; [|split]; apply Hext; intros a n' n Hn' Hna;
    destruct (Hn a n' Hn') as (_ & _ & n0 & Hn0 & ? & ? & ? & ?);
    congruence.
Qed.

Lemma thresholdNetwork_keeps_dendrogram_witness :
  ∃ net', thresholdNetwork [[]; []] exampleClustered = Ok net'
    ∧ node_parent <$> nodes net' = node_parent <$> nodes exampleClustered
    ∧ getClusters net' = getClusters exampleClustered
    ∧ treeNodes net' = treeNodes exampleClustered ∧ heap net' = heap exampleClustered
    ∧ numClusters net' = numClusters exampleClustered
    ∧ linkage net' = linkage exampleClustered
    ∧ node_name <$> nodes net' = node_name <$> nodes exampleClustered
    ∧ node_index <$> nodes net' = node_index <$> nodes exampleClustered
    ∧ node_fullNetIndex <$> nodes net'
      = node_fullNetIndex <$> nodes exampleClustered.
Proof.
  eexists. split; [vm_compute; reflexivity|].
  apply (thresholdNetwork_keeps_dendrogram [[]; []] exampleClustered).
  vm_compute. reflexivity.
Defined.

(** ** What [setNumClusters] keeps, and the nodes of [createNetwork] *)

Lemma graphOf_proj {C} (g : node → C) (net net' : network) :
  (∀ n, g (forgetParent n) = g n) →
  graphOf net' = graphOf net →
  g <$> nodes net' = g <$> nodes net.
Proof.
  intros Hg H. apply (f_equal nodes) in H. cbn in H.
  apply (f_equal (fmap g)) in H. rewrite <- !list_fmap_compose in H.
  rewrite (list_fmap_ext (g ∘ forgetParent) g (nodes net')) in H
    by (intros; apply Hg).
  rewrite (list_fmap_ext (g ∘ forgetParent) g (nodes net)) in H
    by (intros; apply Hg).
  done.
Qed.

(** X7.  [setNumClusters] changes the dendrogram only: the edges, the
    edge and neighbour lists of the nodes, their names, indices and
    data, the matrices, the threshold settings and the four
    statistics are what they were. *)
Theorem setNumClusters_keeps_graph (fuel : nat) (net net' : network) (k : Z) :
  setNumClusters fuel net k = Ok net' →
  edges net' = edges net
  ∧ node_neighbours <$> nodes net' = node_neighbours <$> nodes net
  ∧ node_edges <$> nodes net' = node_edges <$> nodes net
  ∧ node_name <$> nodes net' = node_name <$> nodes net
  ∧ node_index <$> nodes net' = node_index <$> nodes net
  ∧ node_nodeData <$> nodes net' = node_nodeData <$> nodes net
  ∧ matrices net' = matrices net
  ∧ thresholdIdx net' = thresholdIdx net
  ∧ thresholdValues net' = thresholdValues net
  ∧ (matrixMins net', matrixMaxs net', matrixAbsMins net', matrixAbsMaxs net')
    = (matrixMins net, matrixMaxs net, matrixAbsMins net, matrixAbsMaxs net).
Proof.
  intros H. apply setNumClusters_graphOf in H.
  split; [exact (f_equal edges H)|].
  do 5 (split; [by apply graphOf_proj|]).
  split; [exact (f_equal matrices H)|].
  split; [exact (f_equal thresholdIdx H)|].
  split; [exact (f_equal thresholdValues H)|].
  exact (f_equal (λ n, (matrixMins n, matrixMaxs n, matrixAbsMins n,
                        matrixAbsMaxs n)) H).
Qed.

Lemma setNumClusters_keeps_graph_witness :
  ∃ net', setNumClusters 4 exampleLinked 2 = Ok net'
    ∧ edges net' = edges exampleLinked
    ∧ node_neighbours <$> nodes net' = node_neighbours <$> nodes exampleLinked
    ∧ node_edges <$> nodes net' = node_edges <$> nodes exampleLinked
    ∧ node_name <$> nodes net' = node_name <$> nodes exampleLinked
    ∧ node_index <$> nodes net' = node_index <$> nodes exampleLinked
    ∧ node_nodeData <$> nodes net' = node_nodeData <$> nodes exampleLinked
    ∧ matrices net' = matrices exampleLinked
    ∧ thresholdIdx net' = thresholdIdx exampleLinked
    ∧ thresholdValues net' = thresholdValues exampleLinked
    ∧ (matrixMins net', matrixMaxs net', matrixAbsMins net',
       matrixAbsMaxs net')
      = (matrixMins exampleLinked, matrixMaxs exampleLinked,
         matrixAbsMins exampleLinked, matrixAbsMaxs exampleLinked).
Proof.
  eexists. split; [vm_compute; reflexivity|].
  apply (setNumClusters_keeps_graph 4 exampleLinked _ 2).
  vm_compute. reflexivity.
Defined.

Lemma thresholdNetwork_node (σ : store) (net net' : network) :
  thresholdNetwork σ net = Ok net' →
  length (nodes net') = length (nodes net)
  ∧ ∀ a n', nodes net' !! a = Some n' →
      ∃ n, nodes net !! a = Some n
        ∧ node_index n' = node_index n ∧ node_name n' = node_name n
        ∧ node_nodeData n' = node_nodeData n
        ∧ node_parent n' = node_parent n
        ∧ node_fullNetIndex n' = node_fullNetIndex n.
Proof.
  intros H. destruct (thresholdNetwork_thresholded _ _ _ H) as [tm Htm].
  destruct (thresholdNetwork_built σ net net' tm Htm H) as (s & -> & Hb).
  destruct Hb as [_ Hlen Hn _ _ _ _]. cbn. split.
  - rewrite Hlen. cbn. by rewrite length_fmap.
  - intros a n' Hn'.
    destruct (Hn a n' Hn') as (n0 & Hn0 & Hi & Hnm & Hd & Hp & Hf & _).
    apply edgeBuild0_lookup in Hn0 as (_ & _ & n & Hna & ->).
    exists n. by repeat split.
Qed.

Lemma createNetwork_node (σ : store) (fuel : nat) ms mls nd ndls lk tf tv tvl
    ti nc (net : network) :
  createNetwork σ fuel ms mls nd ndls lk tf tv tvl ti nc = Ok net →
  ∃ first, ms !! 0 = Some first
    ∧ length (nodes net) = length first
    ∧ ∀ i n, nodes net !! i = Some n →
        node_index n = i ∧ node_name n = pretty (i + 1)
        ∧ node_nodeData n = (λ array, mjoin (array !! i)) <$> nd
        ∧ node_fullNetIndex n = None.
Proof.
  intros H. apply createNetwork_inv in H as (first & net1 & Hf & H1 & H2).
  exists first. split; [done|].
  apply thresholdNetwork_node in H1 as [Hlen H1]. cbn in Hlen, H1.
  rewrite length_fmap, length_seq in Hlen.
  apply setNumClusters_graphOf in H2.
  pose proof (graphOf_proj node_index _ _ (λ _, eq_refl) H2) as Hi.
  pose proof (graphOf_proj node_name _ _ (λ _, eq_refl) H2) as Hnm.
  pose proof (graphOf_proj node_nodeData _ _ (λ _, eq_refl) H2) as Hd.
  pose proof (graphOf_proj node_fullNetIndex _ _ (λ _, eq_refl) H2) as Hx.
  split.
  { apply (f_equal length) in Hi. rewrite !length_fmap in Hi. lia. }
  intros i n Hn.
  assert (∃ n1, nodes net1 !! i = Some n1
                ∧ node_index n = node_index n1 ∧ node_name n = node_name n1
                ∧ node_nodeData n = node_nodeData n1
                ∧ node_fullNetIndex n = node_fullNetIndex n1)
    as (n1 & Hn1 & -> & -> & -> & ->).
  { apply (f_equal (.!! i)) in Hi. apply (f_equal (.!! i)) in Hnm.
    apply (f_equal (.!! i)) in Hd. apply (f_equal (.!! i)) in Hx.
    rewrite !list_lookup_fmap, Hn in Hi. rewrite !list_lookup_fmap, Hn in Hnm.
    rewrite !list_lookup_fmap, Hn in Hd. rewrite !list_lookup_fmap, Hn in Hx.
    destruct (nodes net1 !! i) as [n1|]; [|done].
    exists n1. cbn in *. split; [done|]. repeat split; congruence. }
  destruct (H1 i n1 Hn1) as (n0 & Hn0 & -> & -> & -> & _ & ->).
  rewrite list_lookup_fmap in Hn0.
  destruct (seq 0 (length first) !! i) as [k|] eqn:Hk; [|done].
  apply lookup_seq in Hk as [-> _]. by injection Hn0 as <-.
Qed.

(** X8.  A network that [createNetwork] returns has one node per row
    of the first matrix; the node at position [i] has the index [i],
    the name [i+1] in decimal, the [i]-th entry of every node data
    array as its data, and no parent-network index; no two nodes
    share a name. *)
Theorem createNetwork_nodes (σ : store) (fuel : nat) ms mls nd ndls lk tf tv
    tvl ti nc (net : network) :
  createNetwork σ fuel ms mls nd ndls lk tf tv tvl ti nc = Ok net →
  ∃ first, ms !! 0 = Some first
    ∧ length (nodes net) = length first
    ∧ (∀ i n, nodes net !! i = Some n →
         node_index n = i ∧ node_name n = pretty (i + 1)
         ∧ node_nodeData n = (λ array, mjoin (array !! i)) <$> nd
         ∧ node_fullNetIndex n = None)
    ∧ NoDup (node_name <$> nodes net).
Proof.
  intros H. destruct (createNetwork_node _ _ _ _ _ _ _ _ _ _ _ _ _ H)
    as (first & Hf & Hlen & Hn).
  exists first. repeat (split; [done|]).
  apply NoDup_alt. intros i j name Hi Hj.
  rewrite list_lookup_fmap in Hi, Hj.
  destruct (nodes net !! i) as [ni|] eqn:Hni; [|done].
  destruct (nodes net !! j) as [nj|] eqn:Hnj; [|done].
  destruct (Hn i ni Hni) as (_ & Hnmi & _).
  destruct (Hn j nj Hnj) as (_ & Hnmj & _).
  cbn in Hi, Hj. assert (pretty (i + 1) = pretty (j + 1)) as Heq by congruence.
  apply (inj pretty) in Heq. lia.
Qed.

Lemma createNetwork_nodes_witness :
  ∃ net, createNetwork exampleStore 0 [exampleWeights] ["Z"]
           [[Some 1%float; Some 2%float; Some 1%float]] ["group"] None
           thresholdMatrix 0 1 0 1 = Ok net
    ∧ ∃ first, [exampleWeights] !! 0 = Some first
        ∧ length (nodes net) = length first
        ∧ (∀ i n, nodes net !! i = Some n →
             node_index n = i ∧ node_name n = pretty (i + 1)
             ∧ node_nodeData n
               = (λ array, mjoin (array !! i))
                   <$> [[Some 1%float; Some 2%float; Some 1%float]]
             ∧ node_fullNetIndex n = None)
        ∧ NoDup (node_name <$> nodes net).
Proof.
  eexists. split; [vm_compute; reflexivity|].
  apply (createNetwork_nodes exampleStore 0 [exampleWeights] ["Z"]
           [[Some 1%float; Some 2%float; Some 1%float]] ["group"] None
           thresholdMatrix 0 1 0 1).
  vm_compute. reflexivity.
Defined.

(** ** The shape of a sub-network ([extractSubNetwork]) *)

Lemma subNodeIdxs_indexed (net : network) (rootIdx : nat)
    (nodeIdxs : list nat) :
  indexed net →
  subNodeIdxs net rootIdx = Ok nodeIdxs →
  ∃ oldRoot, nodes net !! rootIdx = Some oldRoot
    ∧ nodeIdxs = merge_sort (≤) (rootIdx :: node_neighbours oldRoot).
Proof.
  intros Hix H. unfold subNodeIdxs in H.
  apply bind_Ok in H as (oldRoot & Hroot & H). apply deref_Ok in Hroot.
  apply bind_Ok in H as (nbs & Hnbs & H). injection H as <-.
  exists oldRoot. split; [done|]. do 2 f_equal.
  rewrite <- (list_fmap_id nbs), <- (list_fmap_id (node_neighbours oldRoot)).
  eapply mapM_Ok_fmap; [exact Hnbs|]. intros k y _ Hf. cbn.
  apply bind_Ok in Hf as (n & Hn & Hf). apply deref_Ok in Hn.
  injection Hf as <-. by apply Hix.
Qed.

Lemma extractSubNetwork_node (σ : store) (net sub : network) (rootIdx : nat) :
  extractSubNetwork σ net rootIdx = Ok sub →
  ∃ nodeIdxs root,
    subNodeIdxs net rootIdx = Ok nodeIdxs
    ∧ length (nodes sub) = length nodeIdxs
    ∧ (∀ k n, nodes sub !! k = Some n →
         ∃ idx old, nodeIdxs !! k = Some idx ∧ nodes net !! idx = Some old
           ∧ node_index n = k
           ∧ node_name n = node_name old
           ∧ node_fullNetIndex n = Some (node_index old)
           ∧ node_parent n = Some root)
    ∧ treeNodes sub = [root]
    ∧ heap sub !! root
      = Some (TreeNode (RNode <$> seq 0 (length (nodes sub))) None
                (length (nodes sub)) None)
    ∧ linkage sub = None ∧ numClusters sub = 1%Z.
Proof.
  intros H. apply extractSubNetwork_inv in H
    as (nodeIdxs & subMatrices & subnet & ns & Hidx & Hsm & Hc & Hns & ->).
  exists nodeIdxs, (length (heap subnet)). split; [done|].
  destruct (createNetwork_node _ _ _ _ _ _ _ _ _ _ _ _ _ Hc)
    as (first & Hf & Hlen & Hn).
  assert (length first = length nodeIdxs) as Hfl.
  { apply mapM_Ok_lookup in Hsm as [Hl Hsm].
    destruct (matrices net) as [|m0 ms]; [by destruct subMatrices|].
    destruct (Hsm 0 m0 eq_refl) as (y & Hy & Hex).
    assert (y = first) as -> by congruence.
    by apply mapM_Ok_lookup in Hex as [? _]. }
  pose proof Hns as Hns'. apply mapM_Ok_lookup in Hns' as [Hnl Hrel].
  rewrite length_imap in Hnl.
  assert (linkage subnet = None ∧ numClusters subnet = 1%Z) as [Hlk Hnc].
  { apply createNetwork_inv in Hc as (f1 & net1 & _ & H1 & H2).
    destruct (thresholdNetwork_thresholded _ _ _ H1) as [tm Htm].
    destruct (thresholdNetwork_spec _ _ _ _ Htm H1)
      as (_ & _ & _ & _ & _ & _ & _ & Hl1 & Hk1 & _).
    cbn in Hl1, Hk1. unfold setNumClusters in H2. rewrite Hl1 in H2.
    by injection H2 as <-. }
  cbn. rewrite !length_fmap. split; [lia|]. split; [|split; [done|split]].
  - intros k n Hk. rewrite list_lookup_fmap in Hk.
    destruct (ns !! k) as [n1|] eqn:Hn1; [|done]. injection Hk as <-.
    destruct (lookup_lt_is_Some_2 (nodes subnet) k) as [n0 Hn0];
      [rewrite <- Hnl; by eapply lookup_lt_Some|].
    destruct (Hrel k (k, n0)) as (y & Hy & Hr);
      [by rewrite list_lookup_imap, Hn0|].
    assert (y = n1) as -> by congruence.
    unfold relabel in Hr. cbn in Hr.
    apply bind_Ok in Hr as (old & Hold & Hr). apply deref_Ok in Hold.
    injection Hr as <-.
    destruct (nodeIdxs !! k) as [idx|] eqn:Hik; [|done]. cbn in Hold.
    exists idx, old. cbn. destruct (Hn k n0 Hn0) as (-> & _).
    by repeat split.
  - rewrite lookup_app_r, Nat.sub_diag by done. done.
  - done.
Qed.

(** X9.  The nodes of an extracted sub-network are the root and its
    neighbours in ascending order of their position in the parent
    network: [fullNetIndex] holds that position, [index] the position
    in the sub-network, and the name is the name of the parent's
    node. *)
Theorem extractSubNetwork_members (σ : store) (net sub : network)
    (rootIdx : nat) :
  indexed net →
  extractSubNetwork σ net rootIdx = Ok sub →
  ∃ oldRoot idxs,
    nodes net !! rootIdx = Some oldRoot
    ∧ Sorted (≤) idxs
    ∧ idxs ≡ₚ rootIdx :: node_neighbours oldRoot
    ∧ node_fullNetIndex <$> nodes sub = Some <$> idxs
    ∧ node_index <$> nodes sub = seq 0 (length idxs)
    ∧ ∀ k n, nodes sub !! k = Some n →
        ∃ idx old, idxs !! k = Some idx ∧ nodes net !! idx = Some old
          ∧ node_name n = node_name old.
Proof.
  intros Hix H.
  destruct (extractSubNetwork_node _ _ _ _ H)
    as (nodeIdxs & root & Hidx & Hlen & Hn & _).
  destruct (subNodeIdxs_indexed _ _ _ Hix Hidx) as (oldRoot & Hroot & ->).
  exists oldRoot, (merge_sort (≤) (rootIdx :: node_neighbours oldRoot)).
  split; [done|]. split; [apply (Sorted_merge_sort (≤))|].
  split; [apply merge_sort_Permutation|].
  split; [|split].
  - apply list_eq. intros k. rewrite !list_lookup_fmap.
    destruct (nodes sub !! k) as [n|] eqn:Hk.
    + destruct (Hn k n Hk) as (idx & old & Hi & Hold & _ & _ & Hf & _).
      rewrite Hi. cbn. by rewrite Hf, (Hix _ _ Hold).
    + apply lookup_ge_None in Hk. rewrite Hlen in Hk.
      apply lookup_ge_None in Hk. by rewrite Hk.
  - apply list_eq. intros k. rewrite list_lookup_fmap.
    destruct (nodes sub !! k) as [n|] eqn:Hk.
    + destruct (Hn k n Hk) as (idx & old & Hi & _ & Hki & _).
      cbn [fmap option_fmap option_map]. rewrite Hki. symmetry. apply lookup_seq. split; [done|].
      rewrite <- Hlen. by eapply lookup_lt_Some.
    + cbn [fmap option_fmap option_map]. symmetry.
      apply lookup_ge_None. rewrite length_seq, <- Hlen.
      by apply lookup_ge_None.
  - intros k n Hk.
    destruct (Hn k n Hk) as (idx & old & Hi & Hold & _ & Hnm & _).
    eauto.
Qed.

(** X10.  An extracted sub-network has a dummy dendrogram of one
    cluster: a single tree node without parent whose children are all
    the nodes, each of which has it as parent; the dendrogram is
    well-formed, there is no linkage table and the cluster count is
    one. *)
Theorem extractSubNetwork_one_cluster (σ : store) (net sub : network)
    (rootIdx : nat) :
  extractSubNetwork σ net rootIdx = Ok sub →
  ∃ root,
    treeNodes sub = [root]
    ∧ treeChildren (heap sub) root = RNode <$> seq 0 (length (nodes sub))
    ∧ treeParent (heap sub) root = None
    ∧ (∀ n, n ∈ nodes sub → node_parent n = Some root)
    ∧ getClusters sub = [Some root]
    ∧ wellFormed sub
    ∧ linkage sub = None ∧ numClusters sub = 1%Z.
Proof.
  intros H.
  destruct (extractSubNetwork_node _ _ _ _ H)
    as (nodeIdxs & root & Hidx & Hlen & Hn & Ht & Hh & Hl & Hk).
  assert (∀ n, n ∈ nodes sub → node_parent n = Some root) as Hp.
  { intros n Hin. apply list_elem_of_lookup in Hin as [k Hin].
    by destruct (Hn k n Hin) as (_ & _ & _ & _ & _ & _ & _ & ->). }
  assert (nodes sub ≠ []) as Hne.
  { intros Hnil. unfold subNodeIdxs in Hidx.
    apply bind_Ok in Hidx as (r0 & _ & Hidx).
    apply bind_Ok in Hidx as (nbs & _ & Hidx). injection Hidx as Hidx.
    pose proof (merge_sort_Permutation (≤) (rootIdx :: nbs)) as Hperm.
    apply Permutation_length in Hperm. rewrite Hidx, <- Hlen, Hnil in Hperm.
    done. }
  exists root. split; [done|].
  split; [unfold treeChildren; by rewrite Hh|].
  split; [unfold treeParent; by rewrite Hh|].
  split; [done|]. split; [|split; [|done]].
  - assert (NoDup (getClusters sub)
            ∧ ∀ c, c ∈ getClusters sub ↔ c = Some root) as [Hnd Hc].
    { split; [apply uniq_spec; constructor|].
      intros c. rewrite elem_of_getClusters. split.
      - intros (n & Hin & <-). by apply Hp.
      - intros ->. destruct (nodes sub) as [|n ns] eqn:Hns; [done|].
        exists n. split; [by left|]. apply Hp. by left. }
    destruct (getClusters sub) as [|c [|c' cs]].
    + exfalso. eapply elem_of_nil. by apply Hc.
    + f_equal. apply Hc. by left.
    + exfalso. apply NoDup_cons in Hnd as [Hnin _]. apply Hnin.
      rewrite (proj1 (Hc c)) by (by left).
      rewrite (proj1 (Hc c')) by (right; by left). by left.
  - split.
    + rewrite Ht. apply NoDup_singleton.
    + intros t Hin. rewrite Ht in Hin. apply list_elem_of_singleton in Hin as ->.
      by eapply lookup_lt_Some.
    + intros t c Hin Hc. rewrite Ht in Hin.
      apply list_elem_of_singleton in Hin as ->.
      unfold treeChildren in Hc. rewrite Hh in Hc. cbn in Hc.
      apply list_elem_of_fmap in Hc as (k & -> & Hk'). cbn.
      apply elem_of_seq in Hk'. unfold nodeParent.
      destruct (lookup_lt_is_Some_2 (nodes sub) k) as [n Hkn]; [lia|].
      rewrite Hkn. cbn. apply Hp. by eapply list_elem_of_lookup_2.
    + intros r p Hlive Hpar. destruct r as [k|t]; cbn in Hlive, Hpar.
      * unfold nodeParent in Hpar.
        destruct (nodes sub !! k) as [n|] eqn:Hkn; [|done]. cbn in Hpar.
        rewrite (Hp n) in Hpar by (by eapply list_elem_of_lookup_2).
        injection Hpar as <-. rewrite Ht. split; [by left|].
        unfold treeChildren. rewrite Hh. cbn.
        apply list_elem_of_fmap. exists k. split; [done|].
        apply elem_of_seq. lia.
      * rewrite Ht in Hlive. apply list_elem_of_singleton in Hlive as ->.
        unfold treeParent in Hpar. by rewrite Hh in Hpar.
    + intros t p Hin Hpar. rewrite Ht in Hin.
      apply list_elem_of_singleton in Hin as ->.
      unfold treeParent in Hpar. by rewrite Hh in Hpar.
Qed.

Lemma extractSubNetwork_members_witness :
  ∃ sub,
    extractSubNetwork exampleStore75 exampleFourNetwork 0 = Ok sub
    ∧ ∃ oldRoot idxs,
        nodes exampleFourNetwork !! 0 = Some oldRoot
        ∧ Sorted (≤) idxs
        ∧ idxs ≡ₚ 0 :: node_neighbours oldRoot
        ∧ node_fullNetIndex <$> nodes sub = Some <$> idxs
        ∧ node_index <$> nodes sub = seq 0 (length idxs)
        ∧ ∀ k n, nodes sub !! k = Some n →
            ∃ idx old, idxs !! k = Some idx
              ∧ nodes exampleFourNetwork !! idx = Some old
              ∧ node_name n = node_name old.
Proof.
  eexists. split; [vm_compute; reflexivity|].
  apply (extractSubNetwork_members exampleStore75 exampleFourNetwork _ 0).
  - eapply (createNetwork_indexed exampleStore75 0 [exampleFour] ["Z"] [] []
              None thresholdMatrix 0 1 0 1).
    vm_compute. reflexivity.
  - vm_compute. reflexivity.
Defined.

Lemma extractSubNetwork_one_cluster_witness :
  ∃ sub,
    extractSubNetwork exampleStore75 exampleFourNetwork 0 = Ok sub
    ∧ ∃ root,
        treeNodes sub = [root]
        ∧ treeChildren (heap sub) root = RNode <$> seq 0 (length (nodes sub))
        ∧ treeParent (heap sub) root = None
        ∧ (∀ n, n ∈ nodes sub → node_parent n = Some root)
        ∧ getClusters sub = [Some root]
        ∧ wellFormed sub
        ∧ linkage sub = None ∧ numClusters sub = 1%Z.
Proof.
  eexists. split; [vm_compute; reflexivity|].
  apply (extractSubNetwork_one_cluster exampleStore75 exampleFourNetwork _ 0).
  vm_compute. reflexivity.
Defined.

(** ** The dendrogram of a full linkage table *)

(** On a standard linkage table the builder returns, and what it has
    built is described by [treeBuilt]. *)
Lemma makeNetworkDendrogramTree_treeBuilt (net : network)
    (l : list linkageRow) :
  standardLinkage (length (nodes net)) l →
  ∃ s, makeNetworkDendrogramTree net l
       = Ok (with_tree (tb_nodes s) (tb_treeNodes s) (tb_heap s) net)
    ∧ treeBuilt (length (nodes net)) (length (heap net)) l s.
Proof.
  intros Hstd. pose proof Hstd as [Hvalid Hnd Hall].
  unfold makeNetworkDendrogramTree.
  destruct (foldM_total_invariant
              (linkStep (length (nodes net)))
              (λ done s, treeBuilt (length (nodes net)) (length (heap net))
                                   (snd <$> done) s)
              (imap pair l) (TreeBuild (nodes net) (heap net) []))
    as (s & Hs & Hb).
  { split; cbn; try done; try lia; intros; lia. }
  { intros done [i row] rest s Hl Hb.
    apply (f_equal (fmap snd)) in Hl.
    rewrite snd_imap_pair, fmap_app, fmap_cons in Hl. cbn in Hl.
    assert (l !! length (snd <$> done) = Some row) as Hrow
      by (rewrite Hl; by apply list_lookup_middle).
    destruct (Hvalid _ _ Hrow) as [HvL HvR].
    rewrite Hl, linkIds_app in Hnd. cbn in Hnd.
    apply NoDup_app in Hnd as (_ & Hdis & Hnd2).
    rewrite fmap_app. cbn.
    apply linkStep_treeBuilt; try done.
    - intros id Hid. apply elem_of_linkIds in Hid as (r & row' & Hr & Hid).
      assert (l !! r = Some row') as Hr'
        by (rewrite Hl; apply lookup_app_l_Some; done).
      destruct (Hvalid _ _ Hr') as [H1 H2]. unfold validId in *.
      apply elem_of_cons in Hid as [->|Hid];
        [|apply list_elem_of_singleton in Hid as ->]; lia.
    - intros Hin. apply (Hdis _ Hin). by left.
    - intros Hin. apply (Hdis _ Hin). right. by left. }
  rewrite snd_imap_pair in Hb.
  rewrite Hs. cbn. by exists s.
Qed.

Lemma length_linkIds (l : list linkageRow) : length (linkIds l) = 2 * length l.
Proof.
  unfold linkIds. induction l as [|row l IH]; [done|]. cbn in *. lia.
Qed.

Lemma linkIds_range (numNodes : nat) (l : list linkageRow) (id : Z) :
  standardLinkage numNodes l → id ∈ linkIds l →
  (1 ≤ id < Z.of_nat numNodes + Z.of_nat (length l))%Z.
Proof.
  intros [Hvalid _ _] Hid. apply elem_of_linkIds in Hid as (r & row & Hr & Hid).
  destruct (Hvalid _ _ Hr) as [H1 H2]. unfold validId in *.
  apply lookup_lt_Some in Hr.
  apply elem_of_cons in Hid as [->|Hid];
    [|apply list_elem_of_singleton in Hid as ->]; lia.
Qed.

(** A standard linkage table of [N - 1] rows uses every id but the
    last. *)
Lemma linkIds_full (numNodes : nat) (l : list linkageRow) (id : Z) :
  standardLinkage numNodes l → S (length l) = numNodes →
  (1 ≤ id < Z.of_nat numNodes + Z.of_nat (length l))%Z →
  id ∈ linkIds l.
Proof.
  intros Hstd Hlen Hid.
  assert (linkIds l ≡ₚ seqZ 1 (Z.of_nat (2 * length l))) as Hperm.
  { apply submseteq_length_Permutation.
    - apply NoDup_submseteq; [by destruct Hstd|].
      intros x Hx. apply elem_of_seqZ.
      pose proof (linkIds_range _ _ _ Hstd Hx). lia.
    - rewrite length_seqZ, length_linkIds. lia. }
  rewrite Hperm. apply elem_of_seqZ. lia.
Qed.

(** X11.  From a standard linkage table with one row less than there
    are nodes, [makeNetworkDendrogramTree] builds a single binary
    tree: one tree node per row, each with two children; every node
    has a parent among the tree nodes; the last tree node is the root,
    the only one without a parent, and every other parent was created
    after its child. *)
Theorem makeNetworkDendrogramTree_single_tree (net : network)
    (l : list linkageRow) :
  standardLinkage (length (nodes net)) l →
  S (length l) = length (nodes net) →
  ∃ net' root,
    makeNetworkDendrogramTree net l = Ok net'
    ∧ length (treeNodes net') = length l
    ∧ last (treeNodes net') = Some root
    ∧ (∀ i, i < length (nodes net') →
         ∃ p, nodeParent (nodes net') i = Some p ∧ p ∈ treeNodes net')
    ∧ (∀ t, t ∈ treeNodes net' →
         length (treeChildren (heap net') t) = 2
         ∧ (treeParent (heap net') t = None ↔ t = root)
         ∧ (∀ p, treeParent (heap net') t = Some p →
              p ∈ treeNodes net' ∧ t < p)).
Proof.
  intros Hstd Hlen.
  destruct (makeNetworkDendrogramTree_treeBuilt net l Hstd) as (s & Hs & Hb).
  pose proof (treeBuilt_wellFormed net l s Hstd Hb) as Hwf.
  destruct Hb as [Hn Hh HT Hch Hpar Hfr].
  set (N := length (nodes net)) in *. set (H := length (heap net)) in *.
  assert (l ≠ []) as Hne.
  { intros ->. destruct Hstd as [_ _ Hall]. cbn in Hlen.
    specialize (Hall 0). cbn in Hall. rewrite <- Hlen in Hall.
    eapply elem_of_nil, Hall. lia. }
  assert (0 < length l) as Hpos by (destruct l; [done|cbn; lia]).
  eexists _, (H + (length l - 1)). split; [exact Hs|].
  cbn [with_tree nodes heap treeNodes]. rewrite HT, length_seq.
  split; [done|]. split.
  { rewrite last_lookup, length_seq. apply lookup_seq. lia. }
  assert (∀ id, id ∈ linkIds l →
            ∃ r, r < length l
              ∧ parentIn (tb_nodes s) (tb_heap s) (refOf N H id) = Some (H + r))
    as Hparent.
  { intros id Hid. apply elem_of_linkIds in Hid as (r & row & Hr & Hid).
    exists r. split; [by eapply lookup_lt_Some|]. by eapply Hpar. }
  split.
  - intros i Hi. rewrite Hn in Hi.
    destruct (Hparent (Z.of_nat (S i))) as (r & Hr & Hp).
    { destruct Hstd as [_ _ Hall]. by apply Hall. }
    rewrite refOf_node in Hp by done. cbn in Hp.
    exists (H + r). split; [done|]. apply elem_of_seq. lia.
  - intros t Ht. pose proof Ht as Ht'. apply elem_of_seq in Ht'.
    split; [|split].
    + destruct (lookup_lt_is_Some_2 l (t - H)) as [row Hrow]; [lia|].
      replace t with (H + (t - H)) by lia. by rewrite (Hch _ _ Hrow).
    + split.
      * intros Hnone. destruct (decide (t = H + (length l - 1))); [done|].
        destruct (Hparent (Z.of_nat (N + 1 + (t - H)))) as (r & Hr & Hp).
        { apply linkIds_full with N; [done..|]. lia. }
        rewrite refOf_tree in Hp by lia. cbn in Hp. congruence.
      * intros ->. apply Hfr; [lia|]. intros Hin.
        pose proof (linkIds_range _ _ _ Hstd Hin). lia.
    + intros p Hp. destruct Hwf as [_ _ _ Hwp Hwo].
      cbn [with_tree nodes heap treeNodes] in Hwp, Hwo.
      rewrite HT in Hwp, Hwo. split; [|by apply Hwo].
      by apply (Hwp (RTree t) p).
Qed.

Lemma makeNetworkDendrogramTree_single_tree_witness :
  ∃ net' root,
    makeNetworkDendrogramTree exampleLinked exampleLinkage = Ok net'
    ∧ length (treeNodes net') = length exampleLinkage
    ∧ last (treeNodes net') = Some root
    ∧ (∀ i, i < length (nodes net') →
         ∃ p, nodeParent (nodes net') i = Some p ∧ p ∈ treeNodes net')
    ∧ (∀ t, t ∈ treeNodes net' →
         length (treeChildren (heap net') t) = 2
         ∧ (treeParent (heap net') t = None ↔ t = root)
         ∧ (∀ p, treeParent (heap net') t = Some p →
              p ∈ treeNodes net' ∧ t < p)).
Proof.
  apply (makeNetworkDendrogramTree_single_tree exampleLinked exampleLinkage).
  - exact exampleLinkage_standard.
  - reflexivity.
Defined.

(** ** The order of the numbers *)

Lemma SFcompare_refl (x : spec_float) :
  x ≠ S754_nan → SFcompare x x = Some Eq.
Proof.
  destruct x as [[]|[]| |[] m e]; cbn; try done; intros _;
    rewrite Z.compare_refl; f_equal;
    change (Pos.compare_cont Eq m m) with (Pos.compare m m);
    by rewrite Pos.compare_refl.
Qed.

Lemma SFcompare_None (x y : spec_float) :
  SFcompare x y = None ↔ x = S754_nan ∨ y = S754_nan.
Proof.
  destruct x as [[]|[]| |[] ? ?], y as [[]|[]| |[] ? ?]; cbn;
    split; try done; try tauto; intros [?|?]; done.
Qed.

Lemma SFcompare_antisym (x y : spec_float) (c : comparison) :
  SFcompare x y = Some c → SFcompare y x = Some (CompOpp c).
Proof.
  destruct x as [[]|[]| |[] m1 e1], y as [[]|[]| |[] m2 e2]; cbn;
    try done; intros [= <-]; try done; f_equal;
    rewrite (Z.compare_antisym e1 e2);
    change (Pos.compare_cont Eq m2 m1) with (Pos.compare m2 m1);
    change (Pos.compare_cont Eq m1 m2) with (Pos.compare m1 m2);
    rewrite (Pos.compare_antisym m1 m2);
    destruct (e1 ?= e2)%Z, (m1 ?= m2)%positive; done.
Qed.

Lemma SFcompare_Lt_trans (x y z : spec_float) :
  SFcompare x y = Some Lt → SFcompare y z = Some Lt → SFcompare x z = Some Lt.
Proof.
  destruct x as [[]|[]| |[] m1 e1], y as [[]|[]| |[] m2 e2],
    z as [[]|[]| |[] m3 e3]; cbn; try done;
    change (Pos.compare_cont Eq m1 m2) with (Pos.compare m1 m2);
    change (Pos.compare_cont Eq m2 m3) with (Pos.compare m2 m3);
    change (Pos.compare_cont Eq m1 m3) with (Pos.compare m1 m3);
    destruct (Z.compare_spec e1 e2), (Z.compare_spec e2 e3),
      (Z.compare_spec e1 e3); try done; try lia;
    destruct (Pos.compare_spec m1 m2), (Pos.compare_spec m2 m3),
      (Pos.compare_spec m1 m3); cbn; try done; lia.
Qed.

Lemma SFcompare_Eq_Lt (x y z : spec_float) :
  SFcompare x y = Some Eq → SFcompare y z = Some Lt → SFcompare x z = Some Lt.
Proof.
  destruct x as [[]|[]| |[] m1 e1], y as [[]|[]| |[] m2 e2],
    z as [[]|[]| |[] m3 e3]; cbn; try done;
    change (Pos.compare_cont Eq m1 m2) with (Pos.compare m1 m2);
    change (Pos.compare_cont Eq m2 m3) with (Pos.compare m2 m3);
    change (Pos.compare_cont Eq m1 m3) with (Pos.compare m1 m3);
    destruct (Z.compare_spec e1 e2), (Z.compare_spec e2 e3),
      (Z.compare_spec e1 e3); try done; try lia;
    destruct (Pos.compare_spec m1 m2), (Pos.compare_spec m2 m3),
      (Pos.compare_spec m1 m3); cbn; try done; lia.
Qed.

Lemma SFcompare_Lt_Eq (x y z : spec_float) :
  SFcompare x y = Some Lt → SFcompare y z = Some Eq → SFcompare x z = Some Lt.
Proof.
  destruct x as [[]|[]| |[] m1 e1], y as [[]|[]| |[] m2 e2],
    z as [[]|[]| |[] m3 e3]; cbn; try done;
    change (Pos.compare_cont Eq m1 m2) with (Pos.compare m1 m2);
    change (Pos.compare_cont Eq m2 m3) with (Pos.compare m2 m3);
    change (Pos.compare_cont Eq m1 m3) with (Pos.compare m1 m3);
    destruct (Z.compare_spec e1 e2), (Z.compare_spec e2 e3),
      (Z.compare_spec e1 e3); try done; try lia;
    destruct (Pos.compare_spec m1 m2), (Pos.compare_spec m2 m3),
      (Pos.compare_spec m1 m3); cbn; try done; lia.
Qed.

Lemma SFcompare_Eq_trans (x y z : spec_float) :
  SFcompare x y = Some Eq → SFcompare y z = Some Eq → SFcompare x z = Some Eq.
Proof.
  destruct x as [[]|[]| |[] m1 e1], y as [[]|[]| |[] m2 e2],
    z as [[]|[]| |[] m3 e3]; cbn; try done;
    change (Pos.compare_cont Eq m1 m2) with (Pos.compare m1 m2);
    change (Pos.compare_cont Eq m2 m3) with (Pos.compare m2 m3);
    change (Pos.compare_cont Eq m1 m3) with (Pos.compare m1 m3);
    destruct (Z.compare_spec e1 e2), (Z.compare_spec e2 e3),
      (Z.compare_spec e1 e3); try done; try lia;
    destruct (Pos.compare_spec m1 m2), (Pos.compare_spec m2 m3),
      (Pos.compare_spec m1 m3); cbn; try done; lia.
Qed.

Lemma is_nan_Prim2SF (x : float) :
  PrimFloat.is_nan x = true ↔ Prim2SF x = S754_nan.
Proof.
  unfold PrimFloat.is_nan. rewrite FloatAxioms.eqb_spec. unfold SFeqb. split.
  - intros H. destruct (SFcompare (Prim2SF x) (Prim2SF x)) as [c|] eqn:Hc.
    + destruct (Prim2SF x) as [[]|[]| |[] m e] eqn:Hx; try done;
        rewrite SFcompare_refl in Hc by done; by injection Hc as <-.
    + apply SFcompare_None in Hc. tauto.
  - intros ->. done.
Qed.

Lemma not_nan_Prim2SF (x : float) :
  PrimFloat.is_nan x = false ↔ Prim2SF x ≠ S754_nan.
Proof.
  rewrite <- is_nan_Prim2SF. by destruct (PrimFloat.is_nan x).
Qed.

Lemma ltb_not_nan (x y : float) :
  PrimFloat.ltb x y = true →
  PrimFloat.is_nan x = false ∧ PrimFloat.is_nan y = false.
Proof.
  rewrite FloatAxioms.ltb_spec, !not_nan_Prim2SF. unfold SFltb.
  destruct (SFcompare _ _) as [c|] eqn:Hc; [|done]. intros _.
  split; intros Hn; rewrite Hn in Hc; [done|].
  by destruct (Prim2SF x) as [[]|[]| |[] ? ?].
Qed.

Lemma leb_not_nan (x y : float) :
  PrimFloat.leb x y = true →
  PrimFloat.is_nan x = false ∧ PrimFloat.is_nan y = false.
Proof.
  rewrite FloatAxioms.leb_spec, !not_nan_Prim2SF. unfold SFleb.
  destruct (SFcompare _ _) as [c|] eqn:Hc; [|done]. intros _.
  split; intros Hn; rewrite Hn in Hc; [done|].
  by destruct (Prim2SF x) as [[]|[]| |[] ? ?].
Qed.

Lemma leb_refl (x : float) :
  PrimFloat.is_nan x = false → PrimFloat.leb x x = true.
Proof.
  rewrite FloatAxioms.leb_spec, not_nan_Prim2SF. intros Hn. unfold SFleb.
  by rewrite SFcompare_refl.
Qed.

Lemma ltb_leb (x y : float) :
  PrimFloat.ltb x y = true → PrimFloat.leb x y = true.
Proof.
  rewrite FloatAxioms.ltb_spec, FloatAxioms.leb_spec. unfold SFltb, SFleb.
  by destruct (SFcompare _ _) as [[]|].
Qed.

Lemma not_ltb_leb (x y : float) :
  PrimFloat.is_nan x = false → PrimFloat.is_nan y = false →
  PrimFloat.ltb x y = false → PrimFloat.leb y x = true.
Proof.
  rewrite FloatAxioms.ltb_spec, FloatAxioms.leb_spec, !not_nan_Prim2SF. unfold SFltb, SFleb.
  intros Hx Hy.
  destruct (SFcompare (Prim2SF x) (Prim2SF y)) as [c|] eqn:Hc.
  - rewrite (SFcompare_antisym _ _ _ Hc). by destruct c.
  - apply SFcompare_None in Hc. tauto.
Qed.

Lemma leb_trans (x y z : float) :
  PrimFloat.leb x y = true → PrimFloat.leb y z = true →
  PrimFloat.leb x z = true.
Proof.
  rewrite !FloatAxioms.leb_spec. unfold SFleb.
  destruct (SFcompare (Prim2SF x) (Prim2SF y)) as [[]|] eqn:H1; try done;
    destruct (SFcompare (Prim2SF y) (Prim2SF z)) as [[]|] eqn:H2; try done;
    intros _ _.
  - by rewrite (SFcompare_Eq_trans _ _ _ H1 H2).
  - by rewrite (SFcompare_Eq_Lt _ _ _ H1 H2).
  - by rewrite (SFcompare_Lt_Eq _ _ _ H1 H2).
  - by rewrite (SFcompare_Lt_trans _ _ _ H1 H2).
Qed.

Lemma abs_not_nan (x : float) :
  PrimFloat.is_nan x = false → PrimFloat.is_nan (PrimFloat.abs x) = false.
Proof.
  rewrite !not_nan_Prim2SF, FloatAxioms.abs_spec. by destruct (Prim2SF x).
Qed.

(** ** The statistics of the weights *)

Lemma lower_spec (w : val) (m : float) :
  PrimFloat.is_nan m = false →
  PrimFloat.is_nan (lower w m) = false
  ∧ PrimFloat.leb (lower w m) m = true
  ∧ (isNaN w = false → PrimFloat.leb (lower w m) (num w) = true).
Proof.
  intros Hm. unfold lower, lessThan, isNaN. cbn [num].
  destruct (PrimFloat.ltb (num w) m) eqn:Hlt.
  - pose proof (ltb_not_nan _ _ Hlt) as [Hw _].
    split; [done|]. split; [by apply ltb_leb|]. intros _. by apply leb_refl.
  - split; [done|]. split; [by apply leb_refl|]. intros Hw.
    by apply not_ltb_leb.
Qed.

Lemma raise_spec (w : val) (m : float) :
  PrimFloat.is_nan m = false →
  PrimFloat.is_nan (raise w m) = false
  ∧ PrimFloat.leb m (raise w m) = true
  ∧ (isNaN w = false → PrimFloat.leb (num w) (raise w m) = true).
Proof.
  intros Hm. unfold raise, greaterThan, isNaN. cbn [num].
  destruct (PrimFloat.ltb m (num w)) eqn:Hlt.
  - pose proof (ltb_not_nan _ _ Hlt) as [_ Hw].
    split; [done|]. split; [by apply ltb_leb|]. intros _. by apply leb_refl.
  - split; [done|]. split; [by apply leb_refl|]. intros Hw.
    by apply not_ltb_leb.
Qed.

(** The statistics bound the weights they were taken from, from below
    ([lower]) or from above ([raise]). *)
Lemma statsOf_bound (upd : val → float → float) (R : float → float → Prop)
    (pre : val → val) (mats : list matrix) (init : list float)
    (ps : list (nat * nat)) :
  (∀ w m, PrimFloat.is_nan m = false →
     PrimFloat.is_nan (upd w m) = false ∧ R (upd w m) m
     ∧ (isNaN w = false → R (upd w m) (num w))) →
  (∀ x y z, R x y → R y z → R x z) →
  length init = length mats →
  Forall (λ m, PrimFloat.is_nan m = false) init →
  let stats := statsOf upd pre mats init ps in
  length stats = length mats
  ∧ Forall (λ m, PrimFloat.is_nan m = false) stats
  ∧ ∀ ij k w, ij ∈ ps →
      edge_weights (edgeOf mats ij) !! k = Some w →
      isNaN (pre w) = false →
      ∃ m, stats !! k = Some m ∧ R m (num (pre w)).
Proof.
  intros Hupd Htrans Hlen Hinit.
  induction ps as [|ij ps IH] using rev_ind; cbn zeta.
  - split; [done|]. split; [done|]. intros ij k w Hin. by apply elem_of_nil in Hin.
  - rewrite statsOf_snoc. cbn zeta in IH. destruct IH as (IHl & IHn & IH).
    set (stats := statsOf upd pre mats init ps) in *.
    set (ws := pre <$> edge_weights (edgeOf mats ij)).
    assert (length ws = length mats) as Hws
      by (unfold ws; cbn; by rewrite !length_fmap).
    split; [rewrite length_zip_with; lia|].
    rewrite Forall_forall in IHn. split.
    + apply Forall_forall. intros m Hm.
      apply list_elem_of_lookup in Hm as [k Hk].
      apply lookup_zip_with_Some in Hk as (w & m0 & -> & _ & Hm0).
      apply Hupd, IHn. by eapply list_elem_of_lookup_2.
    + intros ij' k w Hin Hw Hnan.
      assert (∃ m0, stats !! k = Some m0) as [m0 Hm0].
      { apply lookup_lt_is_Some_2. rewrite IHl.
        apply lookup_lt_Some in Hw. cbn in Hw. by rewrite length_fmap in Hw. }
      assert (∃ w0, ws !! k = Some w0) as [w0 Hw0].
      { apply lookup_lt_is_Some_2. rewrite Hws, <- IHl.
        by eapply lookup_lt_Some. }
      assert (PrimFloat.is_nan m0 = false) as Hm0n
        by (apply IHn; by eapply list_elem_of_lookup_2).
      destruct (Hupd w0 m0 Hm0n) as (_ & Hle & Hw0le).
      exists (upd w0 m0). split.
      { apply lookup_zip_with_Some. eauto. }
      apply elem_of_app in Hin as [Hin|Hin].
      * destruct (IH ij' k w Hin Hw Hnan) as (m & Hm & HR).
        assert (m = m0) as -> by congruence. by eapply Htrans.
      * apply list_elem_of_singleton in Hin as ->.
        unfold ws in Hw0. rewrite list_lookup_fmap, Hw in Hw0.
        injection Hw0 as <-. by apply Hw0le.
Qed.

(** X13.  The statistics [thresholdNetwork] stores bound the weights
    of the edges: for every edge and every matrix [k] whose weight on
    that edge is a number, [matrixMins[k]] is at most the weight and
    [matrixMaxs[k]] at least, and [matrixAbsMins[k]] and
    [matrixAbsMaxs[k]] bound its absolute value. *)
Theorem thresholdNetwork_weight_bounds (σ : store) (net net' : network)
    (e : edge) (k : nat) (w : val) :
  thresholdNetwork σ net = Ok net' →
  e ∈ edges net' → edge_weights e !! k = Some w → isNaN w = false →
  ∃ lo hi alo ahi,
    matrixMins net' !! k = Some lo ∧ matrixMaxs net' !! k = Some hi
    ∧ matrixAbsMins net' !! k = Some alo
    ∧ matrixAbsMaxs net' !! k = Some ahi
    ∧ PrimFloat.leb lo (num w) = true ∧ PrimFloat.leb (num w) hi = true
    ∧ PrimFloat.leb alo (Math_abs w) = true
    ∧ PrimFloat.leb (Math_abs w) ahi = true.
Proof.
  intros H He Hw Hnan.
  destruct (thresholdNetwork_thresholded _ _ _ H) as [tm Htm].
  destruct (thresholdNetwork_built σ net net' tm Htm H) as (s & -> & Hb).
  destruct Hb as [Hedges _ _ Hmins Hmaxs Hamins Hamaxs]. cbn in *.
  rewrite Hedges in He. apply list_elem_of_fmap in He as (ij & -> & Hij).
  set (ps := kept tm (pairs (length (nodes net)))) in *.
  set (K := length (matrices net)) in *.
  assert (∀ x, PrimFloat.is_nan x = false →
            Forall (λ m, PrimFloat.is_nan m = false) (replicate K x)) as Hrep.
  { intros x Hx. apply Forall_forall. intros m Hm.
    by apply elem_of_replicate in Hm as [-> _]. }
  assert (isNaN (absval w) = false) as Hanan
    by (unfold isNaN, absval, Math_abs; cbn; by apply abs_not_nan).
  destruct (statsOf_bound lower (λ a b, PrimFloat.leb a b = true) id
              (matrices net) (replicate K MAX_VALUE) ps)
    as (_ & _ & Hlo);
    [apply lower_spec|apply leb_trans|by rewrite length_replicate
    |by apply Hrep|].
  destruct (statsOf_bound raise (λ a b, PrimFloat.leb b a = true) id
              (matrices net) (replicate K (- MAX_VALUE)%float) ps)
    as (_ & _ & Hhi);
    [apply raise_spec|intros x y z ? ?; by apply leb_trans with y
    |by rewrite length_replicate|by apply Hrep|].
  destruct (statsOf_bound lower (λ a b, PrimFloat.leb a b = true) absval
              (matrices net) (replicate K MAX_VALUE) ps)
    as (_ & _ & Halo);
    [apply lower_spec|apply leb_trans|by rewrite length_replicate
    |by apply Hrep|].
  destruct (statsOf_bound raise (λ a b, PrimFloat.leb b a = true) absval
              (matrices net) (replicate K (- MAX_VALUE)%float) ps)
    as (_ & _ & Hahi);
    [apply raise_spec|intros x y z ? ?; by apply leb_trans with y
    |by rewrite length_replicate|by apply Hrep|].
  destruct (Hlo ij k w Hij Hw Hnan) as (lo & Hlo1 & Hlo2).
  destruct (Hhi ij k w Hij Hw Hnan) as (hi & Hhi1 & Hhi2).
  destruct (Halo ij k w Hij Hw Hanan) as (alo & Halo1 & Halo2).
  destruct (Hahi ij k w Hij Hw Hanan) as (ahi & Hahi1 & Hahi2).
  exists lo, hi, alo, ahi. rewrite Hmins, Hmaxs, Hamins, Hamaxs.
  by repeat split.
Qed.

Lemma thresholdNetwork_weight_bounds_witness :
  ∃ net', thresholdNetwork [[]; []] exampleUnbuilt = Ok net'
    ∧ ∃ lo hi alo ahi,
        matrixMins net' !! 0 = Some lo ∧ matrixMaxs net' !! 0 = Some hi
        ∧ matrixAbsMins net' !! 0 = Some alo
        ∧ matrixAbsMaxs net' !! 0 = Some ahi
        ∧ PrimFloat.leb lo (num (Some 5%float)) = true
        ∧ PrimFloat.leb (num (Some 5%float)) hi = true
        ∧ PrimFloat.leb alo (Math_abs (Some 5%float)) = true
        ∧ PrimFloat.leb (Math_abs (Some 5%float)) ahi = true.
Proof.
  eexists. split; [vm_compute; reflexivity|].
  apply (thresholdNetwork_weight_bounds [[]; []] exampleUnbuilt _
           (Edge 0 1 [Some 5%float]) 0 (Some 5%float)).
  - vm_compute. reflexivity.
  - by left.
  - reflexivity.
  - reflexivity.
Defined.

(** ** Threshold percentages that suppress nothing *)








(** ** The domains of the scales ([genColourScales]) *)

Lemma SFcompare_opp (x y : spec_float) :
  SFcompare (SFopp y) (SFopp x) = SFcompare x y.
Proof.
  destruct x as [[]|[]| |[] m1 e1], y as [[]|[]| |[] m2 e2]; cbn;
    try done; f_equal;
    rewrite (Z.compare_antisym e1 e2);
    change (Pos.compare_cont Eq m2 m1) with (Pos.compare m2 m1);
    change (Pos.compare_cont Eq m1 m2) with (Pos.compare m1 m2);
    rewrite (Pos.compare_antisym m1 m2);
    destruct (e1 ?= e2)%Z, (m1 ?= m2)%positive; done.
Qed.

Lemma leb_opp (x y : float) :
  PrimFloat.leb x y = true → PrimFloat.leb (- y) (- x) = true.
Proof.
  rewrite !FloatAxioms.leb_spec, !FloatAxioms.opp_spec. unfold SFleb.
  by rewrite SFcompare_opp.
Qed.

Lemma abs_nonneg (x : float) :
  PrimFloat.is_nan (PrimFloat.abs x) = false →
  PrimFloat.leb 0 (PrimFloat.abs x) = true.
Proof.
  rewrite not_nan_Prim2SF, FloatAxioms.leb_spec, FloatAxioms.abs_spec.
  change (Prim2SF 0) with (S754_zero false).
  by destruct (Prim2SF x) as [[]|[]| |[] ? ?].
Qed.

Lemma opp_nonneg (x : float) :
  PrimFloat.leb 0 x = true → PrimFloat.leb (- x) 0 = true.
Proof.
  rewrite !FloatAxioms.leb_spec, FloatAxioms.opp_spec.
  change (Prim2SF 0) with (S754_zero false).
  by destruct (Prim2SF x) as [[]|[]| |[] ? ?].
Qed.

Lemma statsOf_Forall (P : float → Prop) (upd : val → float → float)
    (pre : val → val) (mats : list matrix) (init : list float)
    (ps : list (nat * nat)) :
  (∀ w m, P m → P (upd (pre w) m)) →
  Forall P init → Forall P (statsOf upd pre mats init ps).
Proof.
  intros Hupd Hinit. induction ps as [|ij ps IH] using rev_ind; [done|].
  rewrite statsOf_snoc. apply Forall_forall. intros m Hm.
  apply list_elem_of_lookup in Hm as [k Hk].
  apply lookup_zip_with_Some in Hk as (w & m0 & -> & Hw & Hm0).
  rewrite list_lookup_fmap in Hw.
  destruct (edge_weights (edgeOf mats ij) !! k) as [w0|]; [|done].
  injection Hw as <-. apply Hupd.
  rewrite Forall_forall in IH. apply IH. by eapply list_elem_of_lookup_2.
Qed.

Lemma lower_absval_nonneg (w : val) (m : float) :
  PrimFloat.leb 0 m = true → PrimFloat.leb 0 (lower (absval w) m) = true.
Proof.
  intros Hm. unfold lower, lessThan, absval, Math_abs. cbn [num].
  destruct (PrimFloat.ltb _ m) eqn:Hlt; [|done].
  apply ltb_not_nan in Hlt as [Hn _]. by apply abs_nonneg.
Qed.

Lemma scaleDomain_ascending (σ : store) (net net' : network) (e : edge)
    (idx : Z) (w : val) :
  thresholdNetwork σ net = Ok net' →
  e ∈ edges net' → lookupZ (edge_weights e) idx = Some w → isNaN w = false →
  ascending (scaleDomain net' idx).
Proof.
  intros H He Hw Hnan. unfold lookupZ in Hw.
  destruct (idx <? 0)%Z eqn:Hidx; [done|].
  assert (∃ alo ahi, matrixAbsMins net' !! Z.to_nat idx = Some alo
            ∧ matrixAbsMaxs net' !! Z.to_nat idx = Some ahi
            ∧ atMost 0 alo ∧ atMost alo ahi) as (alo & ahi & Hlo & Hhi & H0 & Hle).
  { destruct (thresholdNetwork_thresholded _ _ _ H) as [tm Htm].
    destruct (thresholdNetwork_built σ net net' tm Htm H) as (s & -> & Hb).
    destruct Hb as [Hedges _ _ _ _ Hamins Hamaxs]. cbn in *.
    rewrite Hedges in He. apply list_elem_of_fmap in He as (ij & -> & Hij).
    set (ps := kept tm (pairs (length (nodes net)))) in *.
    set (K := length (matrices net)) in *.
    assert (∀ x, PrimFloat.is_nan x = false →
              Forall (λ m, PrimFloat.is_nan m = false) (replicate K x))
      as Hrep.
    { intros x Hx. apply Forall_forall. intros m Hm.
      by apply elem_of_replicate in Hm as [-> _]. }
    assert (isNaN (absval w) = false) as Hanan
      by (unfold isNaN, absval, Math_abs; cbn; by apply abs_not_nan).
    destruct (statsOf_bound lower (λ a b, PrimFloat.leb a b = true) absval
                (matrices net) (replicate K MAX_VALUE) ps)
      as (_ & _ & Halo);
      [apply lower_spec|apply leb_trans|by rewrite length_replicate
      |by apply Hrep|].
    destruct (statsOf_bound raise (λ a b, PrimFloat.leb b a = true) absval
                (matrices net) (replicate K (- MAX_VALUE)%float) ps)
      as (_ & _ & Hahi);
      [apply raise_spec|intros x y z ? ?; by apply leb_trans with y
      |by rewrite length_replicate|by apply Hrep|].
    destruct (Halo ij _ w Hij Hw Hanan) as (alo & Halo1 & Halo2).
    destruct (Hahi ij _ w Hij Hw Hanan) as (ahi & Hahi1 & Hahi2).
    exists alo, ahi. rewrite Hamins, Hamaxs. repeat split; try done.
    - assert (Forall (λ m, PrimFloat.leb 0 m = true)
                (statsOf lower absval (matrices net) (replicate K MAX_VALUE)
                   ps)) as HF.
      { apply statsOf_Forall; [intros ? ?; apply lower_absval_nonneg|].
        apply Forall_forall. intros m Hm.
        by apply elem_of_replicate in Hm as [-> _]. }
      rewrite Forall_forall in HF. apply HF.
      by eapply list_elem_of_lookup_2.
    - by eapply leb_trans. }
  unfold scaleDomain, lookupZ. rewrite Hidx, Hlo, Hhi. cbn [num].
  eexists _, _, _, _, _. split; [done|]. unfold atMost in *.
  repeat split; try done.
  - by apply leb_opp.
  - by apply opp_nonneg.
Qed.

(** X14.  The domains of the two linear scales that [genColourScales]
    makes are ascending, [-max <= -min <= 0 <= min <= max], whenever
    the thresholded network has an edge whose weight in the matrix
    the scale is taken from is a number. *)
Theorem genColourScales_domains_ascending (σ : store) (net net' : network)
    (si : scaleInfo) (e : edge) :
  thresholdNetwork σ net = Ok net' →
  e ∈ edges net' →
  (∀ w, lookupZ (edge_weights e) (edgeWidthIdx si) = Some w →
        isNaN w = false →
        ∃ sc, edgeWidthScale (genColourScales net' si) = Some sc
          ∧ ascending (scale_domain sc))
  ∧ (∀ w, lookupZ (edge_weights e) (edgeColourIdx si) = Some w →
          isNaN w = false →
          ∃ sc, hltEdgeColourScale (genColourScales net' si) = Some sc
            ∧ ascending (scale_domain sc)).
Proof.
  intros H He. split; intros w Hw Hnan; eexists; (split; [done|]); cbn;
    by eapply scaleDomain_ascending.
Qed.

Lemma genColourScales_domains_ascending_witness :
  ∃ net', thresholdNetwork [[]; []] exampleUnbuilt = Ok net'
    ∧ (∀ w, lookupZ (edge_weights (Edge 0 1 [Some 5%float]))
              (edgeWidthIdx (ScaleInfo 0 0 0 None None)) = Some w →
            isNaN w = false →
            ∃ sc, edgeWidthScale
                    (genColourScales net' (ScaleInfo 0 0 0 None None))
                  = Some sc
              ∧ ascending (scale_domain sc))
    ∧ (∀ w, lookupZ (edge_weights (Edge 0 1 [Some 5%float]))
              (edgeColourIdx (ScaleInfo 0 0 0 None None)) = Some w →
            isNaN w = false →
            ∃ sc, hltEdgeColourScale
                    (genColourScales net' (ScaleInfo 0 0 0 None None))
                  = Some sc
              ∧ ascending (scale_domain sc)).
Proof.
  eexists. split; [vm_compute; reflexivity|].
  apply (genColourScales_domains_ascending [[]; []] exampleUnbuilt _
           (ScaleInfo 0 0 0 None None) (Edge 0 1 [Some 5%float])).
  - vm_compute. reflexivity.
  - by left.
Defined.

Lemma genColourScales_idem (net : network) (si : scaleInfo) :
  genColourScales net (genColourScales net si) = genColourScales net si.
Proof. done. Qed.

(** X15.  The three index setters, on a view whose scales are in sync
    with the network.  [setEdgeWidthIdx] and [setEdgeColourIdx] throw
    "Matrix index out of range." outside [0 .. matrices.length - 1]
    and [setNodeColourIdx] throws "Node data index out of range."
    outside [0 .. nodeDataLabels.length - 1]; inside, each sets its own
    index, the matrix setters rebuild their own scale from the matrix
    chosen, and everything else of the view is as it was
    ([setNodeColourIdx] writes [network.nodeColourIdx] and leaves
    [scaleInfo] alone).  The view that results is in sync again. *)
Theorem index_setters (net : network) (v : view) (idx : Z) :
  inSync net v →
  let si := view_scaleInfo v in
  setEdgeWidthIdx net v idx
  = (if bool_decide (0 ≤ idx < Z.of_nat (length (matrices net)))%Z
     then Ok (View (ScaleInfo idx (edgeColourIdx si) (nodeColourIdx si)
                      (Some (LinearScale (scaleDomain net idx)
                               [15; 2; 0; 2; 15]%float))
                      (hltEdgeColourScale si))
                (view_nodeColourIdx v))
     else Err (Thrown "Matrix index out of range."))
  ∧ setEdgeColourIdx net v idx
    = (if bool_decide (0 ≤ idx < Z.of_nat (length (matrices net)))%Z
       then Ok (View (ScaleInfo (edgeWidthIdx si) idx (nodeColourIdx si)
                        (edgeWidthScale si)
                        (Some (LinearScale (scaleDomain net idx)
                                 ["#0000dd"; "#ccccdd"; "#ffffff";
                                  "#ddaaaa"; "#dd0000"])))
                  (view_nodeColourIdx v))
       else Err (Thrown "Matrix index out of range."))
  ∧ setNodeColourIdx net v idx
    = (if bool_decide (0 ≤ idx < Z.of_nat (length (nodeDataLabels net)))%Z
       then Ok (View si (Some idx))
       else Err (Thrown "Node data index out of range."))
  ∧ ∀ v', (setEdgeWidthIdx net v idx = Ok v'
           ∨ setEdgeColourIdx net v idx = Ok v'
           ∨ setNodeColourIdx net v idx = Ok v') →
          inSync net v'.
Proof.
  intros Hsync si. unfold inSync in Hsync. fold si in Hsync.
  unfold setEdgeWidthIdx, setEdgeColourIdx, setNodeColourIdx. fold si.
  split; [|split; [|split]].
  - case_bool_decide as Hi.
    + replace ((idx <? 0) || (idx >=? _))%Z with false by lia.
      do 2 f_equal. rewrite <- Hsync. done.
    + replace ((idx <? 0) || (idx >=? _))%Z with true by lia. done.
  - case_bool_decide as Hi.
    + replace ((idx <? 0) || (idx >=? _))%Z with false by lia.
      do 2 f_equal. rewrite <- Hsync. done.
    + replace ((idx <? 0) || (idx >=? _))%Z with true by lia. done.
  - case_bool_decide as Hi.
    + replace ((idx <? 0) || (idx >=? _))%Z with false by lia.
      by rewrite Hsync.
    + replace ((idx <? 0) || (idx >=? _))%Z with true by lia. done.
  - intros v' [H|[H|H]];
      destruct ((idx <? 0) || (idx >=? _))%Z; try done;
      injection H as <-; unfold inSync; cbn; done.
Qed.

Lemma index_setters_witness :
  setEdgeWidthIdx exampleUnbuilt (createScaleInfo exampleUnbuilt) 5
  = Err (Thrown "Matrix index out of range.").
Proof.
  exact (proj1 (index_setters exampleUnbuilt (createScaleInfo exampleUnbuilt)
                  5 eq_refl)).
Defined.

Lemma scaleDomain_no_edges (σ : store) (net net' : network) (idx : Z) :
  thresholdNetwork σ net = Ok net' → edges net' = [] →
  (0 ≤ idx < Z.of_nat (length (matrices net)))%Z →
  scaleDomain net' idx
  = [MAX_VALUE; (- MAX_VALUE)%float; 0%float; MAX_VALUE; (- MAX_VALUE)%float].
Proof.
  intros H He Hidx.
  destruct (thresholdNetwork_thresholded _ _ _ H) as [tm Htm].
  destruct (thresholdNetwork_built σ net net' tm Htm H) as (s & -> & Hb).
  destruct Hb as [Hedges _ _ _ _ Hamins Hamaxs].
  cbn [with_edges edges] in He. rewrite He in Hedges.
  cbn [edgeBuild0 eb_edges app] in Hedges. symmetry in Hedges.
  apply fmap_nil_inv in Hedges.
  rewrite Hedges in Hamins, Hamaxs. cbn in Hamins, Hamaxs.
  unfold scaleDomain, lookupZ. cbn [with_edges matrixAbsMins matrixAbsMaxs].
  replace (idx <? 0)%Z with false by lia.
  rewrite Hamins, Hamaxs, !lookup_replicate_2 by lia. done.
Qed.

(** X16.  For a network without edges the domain of the edge width
    scale is [[MAX, -MAX, 0, MAX, -MAX]], made from the untouched
    sentinels: it is not ascending. *)
Theorem genColourScales_no_edges (σ : store) (net net' : network)
    (si : scaleInfo) :
  thresholdNetwork σ net = Ok net' → edges net' = [] →
  (0 ≤ edgeWidthIdx si < Z.of_nat (length (matrices net)))%Z →
  ∃ sc, edgeWidthScale (genColourScales net' si) = Some sc
    ∧ scale_domain sc
      = [MAX_VALUE; (- MAX_VALUE)%float; 0%float; MAX_VALUE;
         (- MAX_VALUE)%float]
    ∧ ¬ ascending (scale_domain sc).
Proof.
  intros H He Hidx. eexists. split; [done|]. cbn.
  rewrite (scaleDomain_no_edges _ _ _ _ H He Hidx). split; [done|].
  intros (a & b & c & d & e & Heq & Hab & _). injection Heq as <- <- _ _ _.
  vm_compute in Hab. done.
Qed.

Lemma genColourScales_no_edges_witness :
  ∃ net', thresholdNetwork [[]; []]
            (Network [newNode [] 0; newNode [] 1] [] []
               [exampleAllNaN] ["M"] None passThrough 0 1 0 1
               [] [] [] [] [] [] []) = Ok net'
    ∧ ∃ sc, edgeWidthScale (genColourScales net' (ScaleInfo 0 0 0 None None))
            = Some sc
        ∧ scale_domain sc
          = [MAX_VALUE; (- MAX_VALUE)%float; 0%float; MAX_VALUE;
             (- MAX_VALUE)%float]
        ∧ ¬ ascending (scale_domain sc).
Proof.
  eexists. split; [vm_compute; reflexivity|].
  apply (genColourScales_no_edges [[]; []]
           (Network [newNode [] 0; newNode [] 1] [] []
              [exampleAllNaN] ["M"] None passThrough 0 1 0 1
              [] [] [] [] [] [] [])).
  - vm_compute. reflexivity.
  - reflexivity.
  - cbn. lia.
Defined.

(** ** Reducing a proper dendrogram *)

Lemma leb_not_ltb (x y : float) :
  PrimFloat.leb x y = true → PrimFloat.ltb y x = false.
Proof.
  rewrite FloatAxioms.leb_spec, FloatAxioms.ltb_spec. unfold SFleb, SFltb.
  destruct (SFcompare (Prim2SF x) (Prim2SF y)) as [c|] eqn:Hc; [|done].
  rewrite (SFcompare_antisym _ _ _ Hc). by destruct c.
Qed.

Lemma ltb_trans (x y z : float) :
  PrimFloat.ltb x y = true → PrimFloat.ltb y z = true →
  PrimFloat.ltb x z = true.
Proof.
  rewrite !FloatAxioms.ltb_spec. unfold SFltb.
  destruct (SFcompare (Prim2SF x) (Prim2SF y)) as [[]|] eqn:H1; try done;
    destruct (SFcompare (Prim2SF y) (Prim2SF z)) as [[]|] eqn:H2; try done;
    intros _ _.
  by rewrite (SFcompare_Lt_trans _ _ _ H1 H2).
Qed.

Lemma eqb_ltb_r (x y z : float) :
  PrimFloat.eqb y z = true → PrimFloat.ltb x z = false →
  PrimFloat.ltb x y = false.
Proof.
  rewrite FloatAxioms.eqb_spec, !FloatAxioms.ltb_spec. unfold SFeqb, SFltb.
  destruct (SFcompare (Prim2SF y) (Prim2SF z)) as [[]|] eqn:H1; try done.
  intros _.
  destruct (SFcompare (Prim2SF x) (Prim2SF y)) as [[]|] eqn:H2; try done.
  by rewrite (SFcompare_Lt_Eq _ _ _ H2 H1).
Qed.

Lemma eqb_refl (x : float) :
  PrimFloat.is_nan x = false → PrimFloat.eqb x x = true.
Proof. unfold PrimFloat.is_nan. by destruct (PrimFloat.eqb x x). Qed.

(** [d3.min]: the running minimum. *)
Lemma extremum_from_min (a : float) (l : list val) :
  PrimFloat.is_nan a = false →
  let r := d3.extremum_from lessThan a l in
  PrimFloat.is_nan r = false
  ∧ PrimFloat.leb r a = true
  ∧ (∀ v, v ∈ l → lessThan v (Some r) = false)
  ∧ (r = a ∨ Some r ∈ l).
Proof.
  revert a. induction l as [|v l IH]; intros a Ha; cbn zeta.
  - cbn. split; [done|]. split; [by apply leb_refl|].
    split; [by intros v Hv; apply elem_of_nil in Hv|by left].
  - cbn [d3.extremum_from]. destruct (lessThan v (Some a)) eqn:Hlt.
    + unfold lessThan in Hlt. cbn [num] in Hlt.
      pose proof (ltb_not_nan _ _ Hlt) as [Hv _].
      destruct (IH (num v) Hv) as (Hr & Hle & Hall & Hin).
      split; [done|].
      split; [eapply leb_trans; [done|by apply ltb_leb]|].
      split.
      * intros v' Hv'. apply elem_of_cons in Hv' as [->|Hv']; [|by apply Hall].
        unfold lessThan. cbn [num]. by apply leb_not_ltb.
      * right. destruct Hin as [Hin|Hin]; [|by right].
        rewrite Hin. destruct v as [x|]; [by left|done].
    + destruct (IH a Ha) as (Hr & Hle & Hall & Hin).
      split; [done|]. split; [done|]. split.
      * intros v' Hv'. apply elem_of_cons in Hv' as [->|Hv']; [|by apply Hall].
        unfold lessThan in *. cbn [num] in *.
        destruct (PrimFloat.is_nan (num v)) eqn:Hvn.
        -- destruct (PrimFloat.ltb (num v) (d3.extremum_from _ a l)) eqn:Hx;
             [|done].
           apply ltb_not_nan in Hx as [? _]. congruence.
        -- apply leb_not_ltb. eapply leb_trans; [done|].
           by apply not_ltb_leb.
      * destruct Hin as [->|Hin]; [by left|right; by right].
Qed.

Lemma d3_min_spec (l : list val) (v0 : val) :
  v0 ∈ l → isNaN v0 = false →
  ∃ m, d3.min l = Some m
    ∧ PrimFloat.is_nan m = false
    ∧ Some m ∈ l
    ∧ ∀ v, v ∈ l → lessThan v (Some m) = false.
Proof.
  unfold d3.min. induction l as [|v l IH]; intros Hin Hnan.
  - by apply elem_of_nil in Hin.
  - cbn [d3.extremum]. destruct (isNaN v) eqn:Hv.
    + apply elem_of_cons in Hin as [->|Hin]; [congruence|].
      destruct (IH Hin Hnan) as (m & Hm & Hmn & Hmin & Hall).
      exists m. split; [done|]. split; [done|]. split; [by right|].
      intros v' Hv'. apply elem_of_cons in Hv' as [->|Hv']; [|by apply Hall].
      unfold lessThan, isNaN in *. cbn [num].
      destruct (PrimFloat.ltb (num v) m) eqn:Hx; [|done].
      apply ltb_not_nan in Hx as [? _]. congruence.
    + unfold isNaN in Hv.
      destruct (extremum_from_min (num v) l Hv) as (Hr & Hle & Hall & Hi).
      eexists. split; [done|]. split; [done|]. split.
      * destruct Hi as [Hi|Hi]; [|by right].
        rewrite Hi. destruct v as [x|]; [by left|done].
      * intros v' Hv'. apply elem_of_cons in Hv' as [->|Hv']; [|by apply Hall].
        unfold lessThan. cbn [num]. by apply leb_not_ltb.
Qed.

Lemma indexOf_from_found {A} (eqb : A → A → bool) (x : A) (l : list A)
    (k : nat) :
  (∃ y, y ∈ l ∧ eqb y x = true) →
  ∃ i y, indexOf_from eqb x l k = Some (k + i) ∧ l !! i = Some y
    ∧ eqb y x = true.
Proof.
  revert k. induction l as [|z l IH]; intros k (y & Hy & He).
  - by apply elem_of_nil in Hy.
  - cbn. destruct (eqb z x) eqn:Hz.
    + exists 0, z. rewrite Nat.add_0_r. done.
    + apply elem_of_cons in Hy as [->|Hy]; [congruence|].
      destruct (IH (S k)) as (i & y' & Hi & Hl & He'); [by exists y|].
      exists (S i), y'. rewrite Hi. split; [f_equal; lia|done].
Qed.

Lemma squeeze_distance (net net' : network) (cl : list (option nat))
    (t : nat) :
  squeeze net cl = Ok net' → distanceOf net' t = distanceOf net t.
Proof.
  intros H. apply squeeze_inv in H as (X & c & P & p & _ & _ & _ & _ & ->).
  cbn zeta. set (h1 := alter _ P (heap net)).
  pose proof (foldl_reparent_spec P (treeChildren h1 X) (nodes net) h1)
    as (_ & _ & _ & _ & _ & Hd).
  cbn zeta in Hd. unfold distanceOf. cbn [with_tree heap].
  specialize (Hd t).
  assert (tree_distance <$> h1 !! t = tree_distance <$> heap net !! t) as H1.
  { unfold h1. rewrite list_lookup_alter. case_decide; [subst|done].
    by destruct (heap net !! t). }
  rewrite H1 in Hd. f_equal.
  destruct ((foldl _ _ _).2 !! t), (heap net !! t); cbn in *; congruence.
Qed.

Lemma proper_cluster (net : network) (c : option nat) :
  properDendrogram net → c ∈ getClusters net →
  ∃ t, c = Some t ∧ t ∈ treeNodes net.
Proof.
  intros [Hwf Hn _ _] Hc.
  apply elem_of_getClusters in Hc as (n & Hin & <-).
  pose proof (Hn n Hin) as Hp.
  destruct (node_parent n) as [t|] eqn:Ht; [|done].
  exists t. split; [done|].
  apply list_elem_of_lookup in Hin as [i Hi].
  destruct Hwf as [_ _ _ Hpar _].
  apply (Hpar (RNode i) t).
  - cbn. by eapply lookup_lt_Some.
  - cbn. unfold nodeParent. by rewrite Hi.
Qed.

(** Every tree node lies below a tree node without parent, at a
    smaller distance. *)
Lemma proper_climb (net : network) (t : nat) :
  properDendrogram net → t ∈ treeNodes net →
  ∃ r, r ∈ treeNodes net ∧ treeParent (heap net) r = None
    ∧ (t = r ∨ PrimFloat.ltb (distanceOf net t) (distanceOf net r) = true).
Proof.
  intros [Hwf _ _ Hd]. destruct Hwf as [_ Hheap _ Hpar Hord].
  remember (length (heap net) - t) as k eqn:Hk.
  revert t Hk. induction (lt_wf k) as [k _ IH]. intros t -> Ht.
  destruct (treeParent (heap net) t) as [p|] eqn:Hp.
  - destruct (Hpar (RTree t) p Ht Hp) as [Hpt _].
    pose proof (Hord t p Ht Hp) as Hlt. pose proof (Hheap p Hpt) as Hpl.
    destruct (IH (length (heap net) - p)) with (t := p)
      as (r & Hr & Hrn & Hpr); [lia|done|done|].
    exists r. split; [done|]. split; [done|]. right.
    destruct Hpr as [->|Hpr]; [by apply Hd|].
    eapply ltb_trans; [by apply Hd|done].
  - exists t. by repeat split; [..|left].
Qed.

Lemma squeeze_total (net : network) :
  properDendrogram net → 2 ≤ length (getClusters net) →
  ∃ net', squeeze net (getClusters net) = Ok net'.
Proof.
  intros Hpd Hlen. pose proof Hpd as [Hwf Hn Hroot Hd].
  pose proof Hwf as [_ Hheap _ Hpar _].
  set (cl := getClusters net) in *.
  set (g := λ c : option nat, (c ≫= (heap net !!.)) ≫= tree_distance).
  assert (NoDup cl) as Hnd by (apply uniq_spec; constructor).
  unfold squeeze.
  rewrite (mapM_total _ g).
  2:{ intros c Hc. destruct (proper_cluster net c Hpd Hc) as (t & -> & Ht).
      cbn. destruct (lookup_lt_is_Some_2 (heap net) t) as [o Ho];
        [by apply Hheap|].
      unfold g. cbn. by rewrite Ho. }
  cbn [mbind result_bind].
  (* a cluster whose distance is a number *)
  assert (∃ Y, Some Y ∈ cl ∧ PrimFloat.is_nan (distanceOf net Y) = false)
    as (Y0 & HY0 & HY0n).
  { destruct cl as [|c1 [|c2 cl']] eqn:Hcl; cbn in Hlen; try lia.
    destruct (proper_cluster net c1 Hpd) as (t1 & -> & Ht1);
      [fold cl; rewrite Hcl; by left|].
    destruct (proper_cluster net c2 Hpd) as (t2 & -> & Ht2);
      [fold cl; rewrite Hcl; right; by left|].
    assert (t1 ≠ t2) as Hne.
    { intros ->. apply NoDup_cons in Hnd as [Hnin _]. apply Hnin. by left. }
    destruct (treeParent (heap net) t1) as [p1|] eqn:Hp1.
    - exists t1. split; [by left|].
      by destruct (ltb_not_nan _ _ (Hd t1 p1 Ht1 Hp1)).
    - destruct (treeParent (heap net) t2) as [p2|] eqn:Hp2.
      + exists t2. split; [right; by left|].
        by destruct (ltb_not_nan _ _ (Hd t2 p2 Ht2 Hp2)).
      + destruct Hne. by apply Hroot. }
  destruct (d3_min_spec (g <$> cl) (g (Some Y0))) as (m & Hm & Hmn & Hmin & Hall).
  { apply list_elem_of_fmap. by exists (Some Y0). }
  { done. }
  rewrite Hm.
  destruct (indexOf_from_found strict_eq (Some m) (g <$> cl) 0)
    as (i & y & Hi & Hy & Hym).
  { exists (Some m). split; [done|]. cbn. by apply eqb_refl. }
  unfold indexOf. rewrite Hi. cbn [mbind option_bind Nat.add].
  rewrite list_lookup_fmap in Hy.
  destruct (cl !! i) as [c|] eqn:Hci; [|done]. cbn in Hy. injection Hy as <-.
  assert (c ∈ cl) as Hcin by (by eapply list_elem_of_lookup_2).
  destruct (proper_cluster net c Hpd Hcin) as (X & -> & HX).
  cbn [mjoin option_join deref mbind result_bind].
  destruct (lookup_lt_is_Some_2 (heap net) X) as [cX HcX]; [by apply Hheap|].
  rewrite HcX. cbn [deref mbind result_bind].
  (* the cluster at the least distance is not the root *)
  assert (∃ P, tree_parent cX = Some P) as [P HP].
  { destruct (tree_parent cX) as [P|] eqn:HP; [by exists P|]. exfalso.
    assert (treeParent (heap net) X = None) as HXn
      by (unfold treeParent; by rewrite HcX).
    assert (∃ Y, Some Y ∈ cl ∧ Y ≠ X) as (Y & HY & HYX).
    { destruct cl as [|c1 [|c2 cl']] eqn:Hcl; cbn in Hlen; try lia.
      destruct (proper_cluster net c1 Hpd) as (t1 & -> & Ht1);
        [fold cl; rewrite Hcl; by left|].
      destruct (proper_cluster net c2 Hpd) as (t2 & -> & Ht2);
        [fold cl; rewrite Hcl; right; by left|].
      destruct (decide (t1 = X)) as [->|Hne].
      - exists t2. split; [right; by left|]. intros ->.
        apply NoDup_cons in Hnd as [Hnin _]. apply Hnin. by left.
      - exists t1. split; [by left|done]. }
    destruct (proper_cluster net _ Hpd HY) as (Y' & [= <-] & HYt).
    destruct (proper_climb net Y Hpd HYt) as (r & Hr & Hrn & Hclimb).
    assert (r = X) as -> by (by apply Hroot).
    destruct Hclimb as [->|Hlt]; [done|].
    assert (lessThan (g (Some Y)) (Some m) = false) as HYm.
    { apply Hall. apply list_elem_of_fmap. by exists (Some Y). }
    unfold lessThan in HYm. cbn [num] in HYm.
    change (num (g (Some Y))) with (distanceOf net Y) in HYm.
    unfold strict_eq in Hym.
    destruct (g (Some X)) as [x|] eqn:HgX; [|done].
    assert (distanceOf net X = x) as HdX.
    { unfold distanceOf. unfold g in HgX. cbn in HgX. by rewrite HgX. }
    rewrite HdX in Hlt.
    by rewrite (eqb_ltb_r _ _ _ Hym HYm) in Hlt. }
  rewrite HP. cbn [deref mbind result_bind].
  assert (treeParent (heap net) X = Some P) as HXP
    by (unfold treeParent; by rewrite HcX).
  destruct (Hpar (RTree X) P HX HXP) as [HPt _].
  destruct (lookup_lt_is_Some_2 (heap net) P) as [p Hp]; [by apply Hheap|].
  rewrite Hp. cbn [deref mbind result_bind]. cbv zeta.
  match goal with
  | |- ∃ _, (deref (?h !! X) ≫= _) = _ =>
      destruct (lookup_lt_is_Some_2 h X) as [c1 Hc1];
        [rewrite length_alter; by apply Hheap|rewrite Hc1]
  end.
  cbn [deref mbind result_bind]. destruct (foldl _ _ _). by eexists.
Qed.

Lemma squeezed_proper (net net' : network) (X P : nat) :
  properDendrogram net → squeezed net net' X P →
  (∀ t, distanceOf net' t = distanceOf net t) →
  properDendrogram net'.
Proof.
  intros Hpd Hsq Hdist. pose proof Hpd as [Hwf Hn Hroot Hd].
  pose proof Hwf as [_ Hheap Hch Hpar _].
  pose proof Hsq as [HX HPt HXP _ _ _ (kT & HkT & HT) Hmoved Hkept
                       (k & Hk & _) _].
  assert (parentOf net (RTree X) = Some P) as HXpar.
  { apply Hch; [done|]. by eapply list_elem_of_lookup_2. }
  cbn in HXpar.
  assert (∀ t, t ∈ treeNodes net' → t ∈ treeNodes net) as Hsub.
  { intros t Ht. rewrite HT in Ht.
    eapply list_elem_of_delete_inv. exact Ht. }
  assert (∀ t, treeParent (heap net') t
               = if decide (RTree t ∈ treeChildren (heap net) X)
                 then Some P else treeParent (heap net) t) as Hpt.
  { intros t. case_decide as Hin.
    - exact (Hmoved (RTree t) Hin).
    - exact (Hkept (RTree t) Hin). }
  split.
  - by eapply squeezed_wellFormed.
  - intros n' Hin'.
    assert (node_parent n' ∈ node_parent <$> nodes net') as Hp
      by (apply list_elem_of_fmap; eauto).
    rewrite (squeezed_parents net net' X P Hwf Hsq) in Hp.
    apply list_elem_of_fmap in Hp as (q & -> & Hq).
    apply list_elem_of_fmap in Hq as (n & -> & Hnin).
    case_decide; [done|]. by apply Hn.
  - intros t1 t2 Ht1 Ht2 H1 H2. rewrite Hpt in H1, H2.
    case_decide; [done|]. case_decide; [done|].
    apply Hroot; auto.
  - intros t p Ht Hp. rewrite !Hdist. rewrite Hpt in Hp.
    case_decide as Hin.
    + injection Hp as <-.
      assert (parentOf net (RTree t) = Some X) as HtX by (by apply Hch).
      cbn in HtX.
      eapply ltb_trans; [apply Hd; [by apply Hsub|exact HtX]|by apply Hd].
    + apply Hd; [by apply Hsub|done].
Qed.

Lemma filter_ne_notin {A} `{EqDecision A} (x : A) (l : list A) :
  x ∉ l → filter (λ y, y ≠ x) l = l.
Proof.
  induction l as [|y l IH]; intros Hx; [done|].
  apply not_elem_of_cons in Hx as [Hne Hx].
  rewrite filter_cons, decide_True by done. f_equal. by apply IH.
Qed.

Lemma length_filter_ne {A} `{EqDecision A} (x : A) (l : list A) :
  NoDup l → length l ≤ S (length (filter (λ y, y ≠ x) l)).
Proof.
  induction 1 as [|y l Hnin Hnd IH]; [cbn; lia|].
  rewrite filter_cons. destruct (decide (y ≠ x)) as [Hne|Heq]; cbn; [lia|].
  assert (y = x) as -> by (by destruct (decide (y = x))).
  by rewrite filter_ne_notin.
Qed.

(** A round of the loop takes at most one cluster away. *)
Lemma squeezed_clusters_lower (net net' : network) (X P : nat) :
  wellFormed net → squeezed net net' X P →
  length (getClusters net) ≤ S (length (getClusters net')).
Proof.
  intros Hwf Hsq. unfold getClusters.
  rewrite (squeezed_parents net net' X P Hwf Hsq).
  set (l := node_parent <$> nodes net).
  set (g := λ q : option nat, if decide (q = Some X) then Some P else q).
  destruct (uniq_spec [] l) as [Hnd Hin]; [constructor|].
  destruct (uniq_spec [] (g <$> l)) as [Hnd' Hin']; [constructor|].
  etrans; [apply (length_filter_ne (Some X)); done|].
  apply le_n_S. apply submseteq_length. apply NoDup_submseteq.
  - by apply NoDup_filter.
  - intros q Hq. apply list_elem_of_filter in Hq as [Hne Hq].
    apply Hin'. right. apply Hin in Hq as [Hq|Hq]; [by apply elem_of_nil in Hq|].
    apply list_elem_of_fmap. exists q. split; [|done].
    unfold g. by rewrite decide_False.
Qed.

Lemma flattenDendrogramTree_proper (fuel : nat) (net : network) (K : Z) :
  properDendrogram net → (1 ≤ K)%Z → length (treeNodes net) < fuel →
  ∃ net', flattenDendrogramTree fuel net K = Ok net'
    ∧ length (getClusters net')
      = Nat.min (Z.to_nat K) (length (getClusters net))
    ∧ properDendrogram net'
    ∧ length (treeNodes net') ≤ length (treeNodes net).
Proof.
  revert net. induction fuel as [|fuel IH]; intros net Hpd HK Hfuel; [lia|].
  destruct (decide (Z.of_nat (length (getClusters net)) ≤ K)%Z) as [Hle|Hgt].
  - exists net. rewrite flattenDendrogramTree_noop by done.
    split; [done|]. split; [lia|done].
  - rewrite flattenDendrogramTree_step by lia.
    destruct (squeeze_total net Hpd) as [net1 H1]; [lia|].
    rewrite H1. cbn [mbind result_bind].
    pose proof Hpd as [Hwf _ _ _].
    destruct (squeeze_squeezed net net1 Hwf H1) as (X & P & Hsq).
    assert (properDendrogram net1) as Hpd1.
    { eapply squeezed_proper; [done..|]. intros t.
      by eapply squeeze_distance. }
    pose proof (squeezed_treeNodes _ _ _ _ Hsq) as HT.
    pose proof (squeezed_clusters_lower _ _ _ _ Hwf Hsq) as Hlo.
    pose proof (squeezed_clusters _ _ _ _ Hwf Hsq) as Hhi.
    destruct (IH net1 Hpd1 HK) as (net' & Hr & Hlen & Hpd' & HT'); [lia|].
    exists net'. split; [done|]. split; [lia|]. split; [done|lia].
Qed.

(** ** The builder and the reducer together *)

Lemma monotoneLinkageCheck_sound (numNodes : nat) (l : list linkageRow) :
  bool_decide (monotoneLinkageCheck numNodes l) = true →
  monotoneLinkage numNodes l.
Proof.
  intros H. apply bool_decide_eq_true in H. unfold monotoneLinkageCheck in H.
  rewrite Forall_forall in H. intros r row id Hr Hid Hgt.
  specialize (H row (list_elem_of_lookup_2 _ _ _ Hr)).
  rewrite Forall_forall in H. specialize (H id Hid Hgt).
  destruct (l !! _) as [row'|]; [by exists row'|done].
Qed.

Lemma fmap_distance_alter (f : treeNode → treeNode) (t : nat)
    (h : list treeNode) :
  (∀ x, tree_distance (f x) = tree_distance x) →
  tree_distance <$> alter f t h = tree_distance <$> h.
Proof.
  intros Hf. apply list_eq. intros j. rewrite !list_lookup_fmap.
  rewrite list_lookup_alter. case_decide; [subst|done].
  destruct (h !! j); cbn; [by rewrite Hf|done].
Qed.

Lemma set_parent_distance (r : ref) (p : nat) (s : list node * list treeNode) :
  tree_distance <$> (set_parent r p s).2 = tree_distance <$> s.2.
Proof.
  destruct r as [i|t]; cbn; [done|]. by apply fmap_distance_alter.
Qed.

Lemma linkStep_distance (numNodes : nat) (s s' : treeBuild)
    (ir : nat * linkageRow) :
  linkStep numNodes s ir = Ok s' →
  tree_distance <$> tb_heap s'
  = (tree_distance <$> tb_heap s) ++ [link_distance ir.2].
Proof.
  destruct ir as [i row]. unfold linkStep. intros H.
  apply bind_Ok in H as (L & _ & H). apply bind_Ok in H as (R & _ & H).
  pose proof (set_parent_distance R (length (tb_heap s))
                (set_parent L (length (tb_heap s)) (tb_nodes s, tb_heap s)))
    as HR.
  rewrite (set_parent_distance L) in HR. cbn [snd] in HR.
  destruct (set_parent R _ _) as [ns h]. injection H as <-.
  cbn [tb_heap snd] in *. by rewrite fmap_app, HR.
Qed.

Lemma makeNetworkDendrogramTree_distance (net net' : network)
    (l : list linkageRow) :
  makeNetworkDendrogramTree net l = Ok net' →
  tree_distance <$> heap net'
  = (tree_distance <$> heap net) ++ (link_distance <$> l).
Proof.
  unfold makeNetworkDendrogramTree. intros H.
  apply bind_Ok in H as (s & Hs & H). injection H as <-.
  cbn [with_tree heap].
  pose proof (foldM_invariant (linkStep (length (nodes net)))
    (λ done s, tree_distance <$> tb_heap s
               = (tree_distance <$> heap net)
                 ++ (link_distance <$> (snd <$> done)))
    (imap pair l) (TreeBuild (nodes net) (heap net) []) s) as Hinv.
  cbv beta in Hinv. rewrite snd_imap_pair in Hinv.
  apply Hinv; [|clear Hinv|done].
  - cbn. by rewrite app_nil_r.
  - intros done b rest s1 s1' _ HP Hstep.
    rewrite (linkStep_distance _ _ _ _ Hstep), HP.
    by rewrite !fmap_app, <- app_assoc.
Qed.

(** What the builder builds from a full standard linkage table with
    growing distances is a proper dendrogram. *)
Lemma makeNetworkDendrogramTree_proper (net : network)
    (l : list linkageRow) :
  standardLinkage (length (nodes net)) l →
  S (length l) = length (nodes net) →
  monotoneLinkage (length (nodes net)) l →
  ∃ net', makeNetworkDendrogramTree net l = Ok net'
    ∧ properDendrogram net'
    ∧ length (treeNodes net') = length l.
Proof.
  intros Hstd Hlen Hmono.
  destruct (makeNetworkDendrogramTree_treeBuilt net l Hstd) as (s & Hs & Hb).
  pose proof (makeNetworkDendrogramTree_distance _ _ _ Hs) as Hdist.
  pose proof (treeBuilt_wellFormed net l s Hstd Hb) as Hwf.
  pose proof Hb as [Hn Hh HT Hch Hpar Hfr].
  set (N := length (nodes net)) in *. set (H := length (heap net)) in *.
  eexists. split; [exact Hs|]. split; [|cbn; by rewrite HT, length_seq].
  assert (∀ id, id ∈ linkIds l →
            ∃ r row, l !! r = Some row
              ∧ id ∈ [link_left row; link_right row]
              ∧ parentIn (tb_nodes s) (tb_heap s) (refOf N H id)
                = Some (H + r))
    as Hparent.
  { intros id Hid. apply elem_of_linkIds in Hid as (r & row & Hr & Hid).
    exists r, row. split; [done|]. split; [done|]. by eapply Hpar. }
  assert (∀ t, t ∈ seq H (length l) →
            treeParent (tb_heap s) t = None ↔ t = H + (length l - 1))
    as Hrootiff.
  { intros t Ht. apply elem_of_seq in Ht. split.
    - intros Hnone. destruct (decide (t = H + (length l - 1))); [done|].
      destruct (Hparent (Z.of_nat (N + 1 + (t - H))))
        as (r & row & _ & _ & Hp).
      { apply linkIds_full with N; [done..|]. lia. }
      rewrite refOf_tree in Hp by lia. cbn in Hp. congruence.
    - intros ->. apply Hfr; [lia|]. intros Hin.
      pose proof (linkIds_range _ _ _ Hstd Hin). lia. }
  split; cbn [with_tree nodes heap treeNodes]; [done| | |].
  - intros n Hin. apply list_elem_of_lookup in Hin as [i Hi].
    destruct (Hparent (Z.of_nat (S i))) as (r & row & _ & _ & Hp).
    { destruct Hstd as [_ _ Hall]. apply Hall.
      apply lookup_lt_Some in Hi. lia. }
    rewrite refOf_node in Hp by (apply lookup_lt_Some in Hi; lia).
    cbn in Hp. unfold nodeParent in Hp. rewrite Hi in Hp. cbn in Hp.
    by rewrite Hp.
  - rewrite HT. intros t1 t2 Ht1 Ht2 H1 H2.
    apply Hrootiff in H1, H2; [|done..]. congruence.
  - rewrite HT. intros t p Ht Hp. pose proof Ht as Ht'.
    apply elem_of_seq in Ht'.
    assert (Z.of_nat (N + 1 + (t - H)) ∈ linkIds l) as Hid.
    { destruct (decide (Z.of_nat (N + 1 + (t - H)) ∈ linkIds l)); [done|].
      rewrite Hfr in Hp by (done || lia). done. }
    destruct (Hparent _ Hid) as (r & row & Hr & Hin & Hpr).
    rewrite refOf_tree in Hpr by lia. cbn in Hpr.
    rewrite Hpr in Hp. injection Hp as <-.
    destruct (Hmono r row _ Hr Hin) as (row' & Hrow' & Hlt); [lia|].
    replace (Z.to_nat (Z.of_nat (N + 1 + (t - H)) - 1 - Z.of_nat N))
      with (t - H) in Hrow' by lia.
    assert (∀ tns k rowk, l !! k = Some rowk →
              distanceOf (with_tree (tb_nodes s) tns (tb_heap s) net) (H + k)
              = num (link_distance rowk)) as Hdk.
    { intros tns k rowk Hk. unfold distanceOf. cbn [with_tree heap].
      cbn [with_tree heap] in Hdist.
      apply (f_equal (.!! (H + k))) in Hdist.
      rewrite lookup_app_r in Hdist by (rewrite length_fmap; unfold H; lia).
      rewrite length_fmap in Hdist. fold H in Hdist.
      replace (H + k - H) with k in Hdist by lia.
      rewrite !list_lookup_fmap, Hk in Hdist. cbn in Hdist.
      destruct (tb_heap s !! (H + k)) as [o|]; [|done].
      cbn in *. by injection Hdist as ->. }
    remember (t - H) as k eqn:Hk. assert (t = H + k) as -> by lia.
    by rewrite (Hdk _ _ _ Hrow'), (Hdk _ _ _ Hr).
Qed.

Lemma exampleLinkage_monotone : monotoneLinkage 4 exampleLinkage.
Proof. apply monotoneLinkageCheck_sound. vm_compute. reflexivity. Defined.

Lemma exampleTree_proper : properDendrogram exampleTree.
Proof.
  destruct (makeNetworkDendrogramTree_proper exampleLinked exampleLinkage)
    as (net' & H & Hp & _).
  - exact exampleLinkage_standard.
  - reflexivity.
  - exact exampleLinkage_monotone.
  - assert (makeNetworkDendrogramTree exampleLinked exampleLinkage
            = Ok exampleTree) as H' by reflexivity.
    rewrite H' in H. by injection H as <-.
Defined.

(** X17.  On a proper dendrogram (well-formed, every node inside a
    cluster, one root, every parent at a strictly greater distance
    than its child) [flattenDendrogramTree] with a cluster count of at
    least one returns, after at most one round per tree node, and
    leaves exactly that many clusters when there were more, and the
    clusters there were otherwise; what it leaves is a proper
    dendrogram again. *)
Theorem flattenDendrogramTree_exact (fuel : nat) (net : network) (K : Z) :
  properDendrogram net → (1 ≤ K)%Z → length (treeNodes net) < fuel →
  ∃ net', flattenDendrogramTree fuel net K = Ok net'
    ∧ length (getClusters net')
      = Nat.min (Z.to_nat K) (length (getClusters net))
    ∧ properDendrogram net'.
Proof.
  intros Hpd HK Hfuel.
  destruct (flattenDendrogramTree_proper fuel net K Hpd HK Hfuel)
    as (net' & H & Hlen & Hpd' & _).
  by exists net'.
Qed.

Lemma flattenDendrogramTree_exact_witness :
  ∃ net', flattenDendrogramTree 4 exampleTree 1 = Ok net'
    ∧ length (getClusters net')
      = Nat.min (Z.to_nat 1) (length (getClusters exampleTree))
    ∧ properDendrogram net'.
Proof.
  apply (flattenDendrogramTree_exact 4 exampleTree 1).
  - exact exampleTree_proper.
  - lia.
  - cbn. lia.
Defined.

(** X18.  For a network whose linkage table is standard, has one row
    less than there are nodes and has growing distances,
    [setNumClusters] with a cluster count [K >= 1] returns; the network
    it returns has [K] clusters when the dendrogram of the table has
    at least [K], all the clusters of that dendrogram otherwise, and
    [numClusters] is [K]. *)
Theorem setNumClusters_exact (fuel : nat) (net : network)
    (l : list linkageRow) (K : Z) :
  linkage net = Some l →
  standardLinkage (length (nodes net)) l →
  S (length l) = length (nodes net) →
  monotoneLinkage (length (nodes net)) l →
  (1 ≤ K)%Z → length l < fuel →
  ∃ net0 net',
    makeNetworkDendrogramTree net l = Ok net0
    ∧ setNumClusters fuel net K = Ok net'
    ∧ length (getClusters net')
      = Nat.min (Z.to_nat K) (length (getClusters net0))
    ∧ numClusters net' = K.
Proof.
  intros Hl Hstd Hlen Hmono HK Hfuel.
  destruct (makeNetworkDendrogramTree_proper net l Hstd Hlen Hmono)
    as (net0 & H0 & Hpd & HT).
  destruct (flattenDendrogramTree_proper fuel net0 K Hpd HK)
    as (net1 & H1 & Hc & _); [lia|].
  exists net0, (with_numClusters K net1). split; [done|].
  unfold setNumClusters. rewrite Hl, H0. cbn. rewrite H1. cbn.
  by repeat split.
Qed.

Lemma setNumClusters_exact_witness :
  ∃ net0 net',
    makeNetworkDendrogramTree exampleLinked exampleLinkage = Ok net0
    ∧ setNumClusters 4 exampleLinked 1 = Ok net'
    ∧ length (getClusters net')
      = Nat.min (Z.to_nat 1) (length (getClusters net0))
    ∧ numClusters net' = 1%Z.
Proof.
  apply (setNumClusters_exact 4 exampleLinked exampleLinkage 1).
  - reflexivity.
  - exact exampleLinkage_standard.
  - reflexivity.
  - exact exampleLinkage_monotone.
  - lia.
  - cbn. lia.
Defined.

(** ** Loading a network ([loadNetwork], [onDataLoad]) *)

Lemma createNetwork_fields (σ : store) (fuel : nat) ms mls nd ndls lk tf tv
    tvl ti nc (net : network) :
  createNetwork σ fuel ms mls nd ndls lk tf tv tvl ti nc = Ok net →
  matrices net = ms ∧ matrixLabels net = mls ∧ nodeData net = nd
  ∧ nodeDataLabels net = ndls ∧ thresholdIdx net = ti
  ∧ thresholdValues net = tv ∧ thresholdValueLabels net = tvl
  ∧ linkage net = lk.
Proof.
  intros H. apply createNetwork_inv in H as (first & net1 & _ & H1 & H2).
  destruct (thresholdNetwork_thresholded _ _ _ H1) as [tm Htm].
  destruct (thresholdNetwork_built _ _ _ _ Htm H1) as (s & -> & _).
  apply setNumClusters_graphOf in H2.
  repeat split.
  - exact (f_equal matrices H2).
  - exact (f_equal matrixLabels H2).
  - exact (f_equal nodeData H2).
  - exact (f_equal nodeDataLabels H2).
  - exact (f_equal thresholdIdx H2).
  - exact (f_equal thresholdValues H2).
  - exact (f_equal thresholdValueLabels H2).
  - exact (f_equal linkage H2).
Qed.

Lemma checkRows_Ok (n : nat) (msg : string) (m : matrix) (u : unit) :
  foldM (checkRow n msg) m tt = Ok u → Forall (λ row, length row = n) m.
Proof.
  induction m as [|row m IH]; [done|]. cbn [foldM]. intros H.
  apply bind_Ok in H as ([] & H1 & H). unfold checkRow in H1.
  destruct (length row =? n) eqn:Hr; [|done].
  constructor; [by apply Nat.eqb_eq|by apply IH].
Qed.

Lemma checkMatrix_Ok (n : nat) (labels : list string) (i : nat) (m : matrix)
    (u u' : unit) :
  checkMatrix n labels u (i, m) = Ok u' → squareOf n m.
Proof.
  unfold checkMatrix. destruct (length m =? n) eqn:Hm; cbn; [|done].
  intros H. split; [by apply Nat.eqb_eq|]. by eapply checkRows_Ok.
Qed.

Lemma checkMatrices_Ok (n : nat) (labels : list string) (ms : list matrix)
    (u : unit) :
  foldM (checkMatrix n labels) (imap pair ms) tt = Ok u →
  Forall (squareOf n) ms.
Proof.
  intros H.
  pose proof (foldM_invariant (checkMatrix n labels)
    (λ done _, Forall (squareOf n) (snd <$> done)) (imap pair ms) tt u)
    as Hinv.
  cbv beta in Hinv. rewrite snd_imap_pair in Hinv. apply Hinv; [done| |done].
  intros done [i m] rest s s' _ HP Hc. rewrite fmap_app.
  apply Forall_app. split; [done|]. cbn. constructor; [|done].
  by eapply checkMatrix_Ok.
Qed.

Lemma checkNodeData_Ok (n : nat) (labels : list string)
    (l : list (option (list val))) (k : list (list val)) :
  mapM (checkNodeData n labels) (imap pair l) = Ok k →
  Forall (λ a, length a = n) k ∧ l = Some <$> k.
Proof.
  intros H. apply mapM_Ok_lookup in H as [Hlen H].
  rewrite length_imap in Hlen.
  assert (∀ i a, k !! i = Some a → length a = n ∧ l !! i = Some (Some a))
    as Hk.
  { intros i a Ha.
    destruct (lookup_lt_is_Some_2 l i) as [o Ho];
      [rewrite <- Hlen; by eapply lookup_lt_Some|].
    destruct (H i (i, o)) as (y & Hy & Hc); [by rewrite list_lookup_imap, Ho|].
    assert (y = a) as -> by congruence.
    unfold checkNodeData in Hc. apply bind_Ok in Hc as (a' & Hd & Hc).
    apply deref_Ok in Hd as ->.
    destruct (length a' =? n) eqn:Hn; cbn in Hc; [|done].
    injection Hc as <-. split; [by apply Nat.eqb_eq|done]. }
  split.
  - apply Forall_forall. intros a Ha.
    apply list_elem_of_lookup in Ha as [i Ha]. by apply (Hk i a).
  - apply list_eq. intros i. rewrite list_lookup_fmap.
    destruct (k !! i) as [a|] eqn:Ha.
    + by destruct (Hk i a Ha) as [_ ->].
    + cbn. apply lookup_ge_None. rewrite <- Hlen. by apply lookup_ge_None.
Qed.

Lemma onDataLoad_inv (parseTextMatrix : string → matrix) (σ : store)
    (fuel : nat) (stdArgs : loadArgs) (linkage : option string)
    (texts : list string) (net : network) :
  onDataLoad parseTextMatrix σ fuel stdArgs linkage texts = Ok net →
  let ms := parseTextMatrix
              <$> take (length (args_matrixLabels stdArgs))
                    (drop (length (args_nodeDataLabels stdArgs)) texts) in
  ∃ first,
    ms !! 0 = Some first
    ∧ matrices net = ms
    ∧ Forall (squareOf (length first)) ms
    ∧ Forall (λ a, length a = length first) (nodeData net)
    ∧ (λ t, parseTextMatrix t !! 0)
        <$> take (length (args_nodeDataLabels stdArgs)) texts
      = Some <$> nodeData net
    ∧ length (nodes net) = length first
    ∧ matrixLabels net = args_matrixLabels stdArgs
    ∧ nodeDataLabels net = args_nodeDataLabels stdArgs
    ∧ thresholdIdx net = 0.
Proof.
  unfold onDataLoad. intros H.
  apply bind_Ok in H as (first & Hf & H). apply deref_Ok in Hf.
  apply bind_Ok in H as (u & Hms & H).
  apply bind_Ok in H as (nd & Hnd & H).
  apply bind_Ok in H as (lk & _ & H).
  apply checkMatrices_Ok in Hms.
  apply checkNodeData_Ok in Hnd as [Hnd1 Hnd2].
  pose proof (createNetwork_fields _ _ _ _ _ _ _ _ _ _ _ _ _ H)
    as (Hm & Hml & Hn & Hnl & Hti & _).
  destruct (createNetwork_node _ _ _ _ _ _ _ _ _ _ _ _ _ H)
    as (first' & Hf' & Hlen & _).
  assert (first' = first) as -> by congruence.
  cbn zeta. exists first. rewrite Hm, Hn.
  repeat split; try done.
  by rewrite <- list_fmap_compose in Hnd2.
Qed.

(** X19.  A network that [onDataLoad] hands over has data of one size:
    there is at least one matrix, every matrix has as many rows and as
    many entries in every row as the network has nodes, every node
    data array has one value per node, there are no more matrices and
    node data arrays than labels, and the edges are thresholded on the
    first matrix. *)
Theorem onDataLoad_sizes (parseTextMatrix : string → matrix) (σ : store)
    (fuel : nat) (stdArgs : loadArgs) (linkage : option string)
    (texts : list string) (net : network) :
  onDataLoad parseTextMatrix σ fuel stdArgs linkage texts = Ok net →
  let n := length (nodes net) in
  matrices net ≠ []
  ∧ Forall (squareOf n) (matrices net)
  ∧ Forall (λ a, length a = n) (nodeData net)
  ∧ length (matrices net) ≤ length (matrixLabels net)
  ∧ length (nodeData net) ≤ length (nodeDataLabels net)
  ∧ thresholdIdx net = 0.
Proof.
  intros H. apply onDataLoad_inv in H. cbn zeta in H.
  destruct H as (first & Hf & Hm & Hsq & Hnd & Hnd2 & Hlen & Hml & Hnl & Hti).
  cbn zeta. rewrite Hlen, Hm, Hml, Hnl. repeat split; try done.
  - intros Hnil. by rewrite Hnil in Hf.
  - rewrite length_fmap, length_take. lia.
  - apply (f_equal length) in Hnd2.
    rewrite !length_fmap, length_take in Hnd2. lia.
Qed.

Lemma onDataLoad_sizes_witness :
  ∃ net, onDataLoad exampleParse exampleStore75 4 exampleArgs (Some "L") ["Z"]
         = Ok net
    ∧ matrices net ≠ []
    ∧ Forall (squareOf (length (nodes net))) (matrices net)
    ∧ Forall (λ a, length a = length (nodes net)) (nodeData net)
    ∧ length (matrices net) ≤ length (matrixLabels net)
    ∧ length (nodeData net) ≤ length (nodeDataLabels net)
    ∧ thresholdIdx net = 0.
Proof.
  eexists. split; [vm_compute; reflexivity|].
  apply (onDataLoad_sizes exampleParse exampleStore75 4 exampleArgs
           (Some "L") ["Z"]).
  vm_compute. reflexivity.
Defined.

Lemma loadNetwork_inv (d3_text : string → option string)
    (parseTextMatrix : string → matrix) (σ : store) (fuel : nat)
    (args : loadArgs) (net : network) :
  loadNetwork d3_text parseTextMatrix σ fuel args = Ok net →
  ∃ linkage texts,
    length (args_matrices args) = length (args_matrixLabels args)
    ∧ length (args_nodeData args) = length (args_nodeDataLabels args)
    ∧ mapM (λ url, deref (d3_text url))
        (args_nodeData args ++ args_matrices args) = Ok texts
    ∧ onDataLoad parseTextMatrix σ fuel args linkage texts = Ok net.
Proof.
  unfold loadNetwork. intros H.
  destruct (length (args_matrices args) =? _) eqn:H1; cbn [negb] in H;
    [|done].
  destruct (length (args_nodeData args) =? _) eqn:H2; cbn [negb] in H;
    [|done].
  apply bind_Ok in H as (tv & _ & H). apply bind_Ok in H as (tl & _ & H).
  destruct (length tv =? length tl); cbn [negb] in H; [|done].
  apply bind_Ok in H as (linkage & _ & H).
  apply bind_Ok in H as (texts & Ht & H).
  exists linkage, texts. apply Nat.eqb_eq in H1, H2. done.
Qed.

(** X20.  What [loadNetwork] loads: when it returns a network, the
    [k]-th matrix of the network is the parse of the text behind the
    [k]-th matrix URL and the [k]-th node data array is the first row
    of the parse of the text behind the [k]-th node data URL; the
    labels are the labels given, one per matrix and one per node data
    array. *)
Theorem loadNetwork_loads (d3_text : string → option string)
    (parseTextMatrix : string → matrix) (σ : store) (fuel : nat)
    (args : loadArgs) (net : network) :
  loadNetwork d3_text parseTextMatrix σ fuel args = Ok net →
  Forall2 (λ m url, ∃ text, d3_text url = Some text
                      ∧ m = parseTextMatrix text)
          (matrices net) (args_matrices args)
  ∧ Forall2 (λ a url, ∃ text, d3_text url = Some text
                        ∧ parseTextMatrix text !! 0 = Some a)
            (nodeData net) (args_nodeData args)
  ∧ matrixLabels net = args_matrixLabels args
  ∧ nodeDataLabels net = args_nodeDataLabels args
  ∧ length (matrixLabels net) = length (matrices net)
  ∧ length (nodeDataLabels net) = length (nodeData net).
Proof.
  intros H. apply loadNetwork_inv in H
    as (linkage & texts & Hlm & Hln & Ht & H).
  apply onDataLoad_inv in H. cbn zeta in H.
  destruct H as (first & _ & Hm & _ & _ & Hnd & _ & Hml & Hnl & _).
  apply mapM_Ok_lookup in Ht as [Htl Ht]. rewrite length_app in Htl.
  assert (length (matrices net) = length (args_matrices args)) as Hlen1.
  { rewrite Hm, length_fmap, length_take, length_drop. lia. }
  assert (length (nodeData net) = length (args_nodeData args)) as Hlen2.
  { apply (f_equal length) in Hnd.
    rewrite !length_fmap, length_take in Hnd. lia. }
  split; [|split; [|split; [done|split; [done|split; congruence]]]].
  - apply Forall2_same_length_lookup_2; [done|]. intros i m url Hi Hurl.
    rewrite Hm, list_lookup_fmap, lookup_take, lookup_drop in Hi.
    case_decide; [|done].
    destruct (Ht (length (args_nodeDataLabels args) + i) url)
      as (text & Htext & Hd).
    { rewrite lookup_app_r by lia. rewrite <- Hurl. f_equal. lia. }
    rewrite Htext in Hi. cbn in Hi. injection Hi as <-.
    apply deref_Ok in Hd. by exists text.
  - apply Forall2_same_length_lookup_2; [done|]. intros i a url Hi Hurl.
    apply (f_equal (.!! i)) in Hnd.
    rewrite !list_lookup_fmap, lookup_take, Hi in Hnd.
    case_decide; [|done].
    destruct (Ht i url) as (text & Htext & Hd).
    { by apply lookup_app_l_Some. }
    rewrite Htext in Hnd. cbn in Hnd. injection Hnd as Hnd.
    apply deref_Ok in Hd. by exists text.
Qed.

Lemma loadNetwork_loads_witness :
  ∃ net, loadNetwork exampleTexts exampleParse exampleStore75 4 exampleArgs
         = Ok net
    ∧ Forall2 (λ m url, ∃ text, exampleTexts url = Some text
                          ∧ m = exampleParse text)
              (matrices net) (args_matrices exampleArgs)
    ∧ Forall2 (λ a url, ∃ text, exampleTexts url = Some text
                          ∧ exampleParse text !! 0 = Some a)
              (nodeData net) (args_nodeData exampleArgs)
    ∧ matrixLabels net = args_matrixLabels exampleArgs
    ∧ nodeDataLabels net = args_nodeDataLabels exampleArgs
    ∧ length (matrixLabels net) = length (matrices net)
    ∧ length (nodeDataLabels net) = length (nodeData net).
Proof.
  eexists. split; [vm_compute; reflexivity|].
  apply (loadNetwork_loads exampleTexts exampleParse exampleStore75 4
           exampleArgs).
  vm_compute. reflexivity.
Defined.

Lemma checkRows_total (n : nat) (msg : string) (m : matrix) :
  Forall (λ row, length row = n) m → foldM (checkRow n msg) m tt = Ok tt.
Proof.
  induction 1 as [|row m Hr _ IH]; [done|]. cbn [foldM].
  assert (checkRow n msg tt row = Ok tt) as ->.
  { unfold checkRow. apply Nat.eqb_eq in Hr. by rewrite Hr. }
  exact IH.
Qed.

Lemma checkMatrix_total (n : nat) (labels : list string) (i : nat)
    (m : matrix) :
  squareOf n m → checkMatrix n labels tt (i, m) = Ok tt.
Proof.
  intros [Hm Hr]. unfold checkMatrix. apply Nat.eqb_eq in Hm. rewrite Hm.
  cbn [negb]. by apply checkRows_total.
Qed.

Lemma checkMatrices_prefix (n : nat) (labels : list string)
    (ims : list (nat * matrix)) :
  Forall (λ im, squareOf n im.2) ims →
  foldM (checkMatrix n labels) ims tt = Ok tt.
Proof.
  induction 1 as [|[i m] ims Hm _ IH]; [done|]. cbn [foldM].
  rewrite checkMatrix_total by done. exact IH.
Qed.

(** X21.  [onDataLoad] rejects a matrix with the wrong number of rows:
    when the matrices before the [i]-th are of the size of the first
    matrix and the [i]-th has another number of rows, it throws
    "Matrix <label> has invalid size (num rows: <rows>)" with the
    label of that matrix, before any network is made. *)
Theorem onDataLoad_rejects_rows (parseTextMatrix : string → matrix)
    (σ : store) (fuel : nat) (stdArgs : loadArgs) (linkage : option string)
    (texts : list string) (first m : matrix) (i : nat) :
  let ms := parseTextMatrix
              <$> take (length (args_matrixLabels stdArgs))
                    (drop (length (args_nodeDataLabels stdArgs)) texts) in
  ms !! 0 = Some first → ms !! i = Some m →
  length m ≠ length first →
  (∀ j mj, j < i → ms !! j = Some mj → squareOf (length first) mj) →
  ∃ label, args_matrixLabels stdArgs !! i = Some label
    ∧ onDataLoad parseTextMatrix σ fuel stdArgs linkage texts
      = Err (Thrown (("Matrix " +:+ label +:+ " has invalid size ")
                     +:+ "(num rows: " +:+ pretty (length m) +:+ ")")).
Proof.
  intros ms Hf Hi Hne Hgood.
  destruct (lookup_lt_is_Some_2 (args_matrixLabels stdArgs) i) as [label Hl].
  { apply lookup_lt_Some in Hi. unfold ms in Hi.
    rewrite length_fmap, length_take in Hi. lia. }
  exists label. split; [done|]. unfold onDataLoad. fold ms. rewrite Hf.
  cbn [deref mbind result_bind].
  rewrite <- (take_drop_middle (imap pair ms) i (i, m))
    by (by rewrite list_lookup_imap, Hi).
  rewrite foldM_app, checkMatrices_prefix.
  - cbn [mbind result_bind foldM].
    assert (checkMatrix (length first) (args_matrixLabels stdArgs) tt (i, m)
            = Err (Thrown (("Matrix " +:+ label +:+ " has invalid size ")
                           +:+ "(num rows: " +:+ pretty (length m) +:+ ")")))
      as ->; [|done].
    unfold checkMatrix. rewrite Hl.
    apply Nat.eqb_neq in Hne. by rewrite Hne.
  - apply Forall_forall. intros [j mj] Hj.
    apply list_elem_of_lookup in Hj as [k Hk].
    apply lookup_take_Some in Hk as [Hk Hlt].
    apply list_lookup_imap_Some in Hk as (mj' & Hk & [= -> ->]).
    cbn. by eapply Hgood.
Qed.

Lemma onDataLoad_rejects_rows_witness :
  ∃ label, ["Z"; "L"] !! 1 = Some label
    ∧ onDataLoad exampleParse exampleStore75 4
        (LoadArgs ["Z.txt"; "linkage.txt"] ["Z"; "L"] [] [] None
           thresholdMatrix 0 1)
        None ["Z"; "L"]
      = Err (Thrown (("Matrix " +:+ label +:+ " has invalid size ")
                     +:+ "(num rows: "
                     +:+ pretty (length (exampleParse "L")) +:+ ")")).
Proof.
  apply (onDataLoad_rejects_rows exampleParse exampleStore75 4
           (LoadArgs ["Z.txt"; "linkage.txt"] ["Z"; "L"] [] [] None
              thresholdMatrix 0 1)
           None ["Z"; "L"] exampleFour (exampleParse "L") 1).
  - reflexivity.
  - reflexivity.
  - cbn. lia.
  - intros j mj Hj Hmj. assert (j = 0) as -> by lia.
    injection Hmj as <-. split; [done|]. repeat constructor.
Defined.

(** ** The edges of a sub-network *)



(** ** The stand-alone script and the library *)

Lemma foldM_agree {S S' B} (R : S → S' → Prop) (f : S → B → result S)
    (f' : S' → B → result S') (l : list B) (s : S) (s' : S') :
  (∀ s s' b, R s s' → agree R (f s b) (f' s' b)) →
  R s s' → agree R (foldM f l s) (foldM f' l s').
Proof.
  intros Hstep. revert s s'. induction l as [|b l IH]; intros s s' HR; [done|].
  cbn [foldM]. specialize (Hstep s s' b HR). unfold agree in Hstep.
  destruct (f s b) as [t|e], (f' s' b) as [t'|e']; try done; cbn.
  by apply IH.
Qed.

Lemma fmap_alter_same {A C} (f : A → C) (g : A → A) (i : nat) (l : list A) :
  (∀ x, f (g x) = f x) → f <$> alter g i l = f <$> l.
Proof.
  intros Hg. rewrite (list_fmap_alter f g id) by (by apply Forall_forall).
  apply list_eq. intros k. rewrite list_lookup_alter.
  case_decide; [subst|done]. by destruct ((f <$> l) !! k).
Qed.

Lemma edgeStep_agree (mats : list matrix) (tm : matrix) (s : edgeBuild)
    (s' : Standalone.sbuild) (ij : nat * nat) :
  graphBuilt s = sgraphBuilt s' →
  agree (λ t t', graphBuilt t = sgraphBuilt t')
        (edgeStep mats tm s ij) (Standalone.edgeStep mats tm s' ij).
Proof.
  intros HR. destruct ij as [i j]. unfold edgeStep, Standalone.edgeStep.
  destruct (cell tm i j) as [v|e]; cbn; [|done].
  destruct (isNaN v); [done|].
  destruct (mapM _ mats) as [ws|e]; cbn; [|done].
  unfold graphBuilt, sgraphBuilt in *. cbn.
  injection HR as He Hmin Hmax Hnb Hed Hnm Hix.
  rewrite He, Hmin, Hmax. f_equal; [f_equal; [f_equal; [f_equal|]|]|].
  - rewrite !(list_fmap_alter node_neighbours _ (λ l, l ++ [i]))
      by (by apply Forall_forall).
    rewrite !(list_fmap_alter node_neighbours _ (λ l, l ++ [j]))
      by (by apply Forall_forall).
    rewrite !(list_fmap_alter Standalone.snode_neighbours _ (λ l, l ++ [i]))
      by (by apply Forall_forall).
    rewrite !(list_fmap_alter Standalone.snode_neighbours _ (λ l, l ++ [j]))
      by (by apply Forall_forall).
    by rewrite Hnb.
  - rewrite !(list_fmap_alter node_edges _ (λ l, l ++ [Edge i j ws]))
      by (by apply Forall_forall).
    rewrite !(list_fmap_alter Standalone.snode_edges _
               (λ l, l ++ [Edge i j ws])) by (by apply Forall_forall).
    by rewrite Hed.
  - by rewrite !fmap_alter_same.
  - by rewrite !fmap_alter_same.
Qed.

(** X23.  The stand-alone [makeNetwork] and the library agree.  On the
    same matrices, [makeNetwork] and [createNetwork] with a threshold
    function that returns the first matrix as it is either both fail,
    in the same way, or both return, and then the edges, the
    neighbour and edge lists of the nodes, the node names and the
    minima and maxima of the weights are the same; the script numbers
    the nodes from one, the library from zero. *)
Theorem makeNetwork_createNetwork (σ : store) (ms : list matrix)
    (clusters hier : list val) (mls : list string) (tv tvl : nat) (nc : Z) :
  agree (λ old new,
           Standalone.sedges old = edges new
           ∧ Standalone.weightMins old = matrixMins new
           ∧ Standalone.weightMaxs old = matrixMaxs new
           ∧ Standalone.snode_neighbours <$> Standalone.snodes old
             = node_neighbours <$> nodes new
           ∧ Standalone.snode_edges <$> Standalone.snodes old
             = node_edges <$> nodes new
           ∧ Standalone.snode_name <$> Standalone.snodes old
             = node_name <$> nodes new
           ∧ Standalone.snode_index <$> Standalone.snodes old
             = (λ n, node_index n + 1) <$> nodes new)
        (Standalone.makeNetwork ms (Some clusters) hier)
        (createNetwork σ 0 ms mls [] [] None passThrough tv tvl 0 nc).
Proof.
  unfold Standalone.makeNetwork, createNetwork.
  destruct (ms !! 0) as [first|] eqn:Hf; cbn [deref mbind result_bind];
    [|done].
  set (n := length first).
  rewrite (mapM_total _ (λ i, Standalone.SNode (i + 1) (pretty (i + 1))
                                (mjoin (clusters !! i)) [] [] None))
    by done.
  cbn [mbind result_bind].
  set (net0 := Network _ _ _ _ _ _ _ _ _ _ _ _ _ _ _ _ _ _).
  rewrite (thresholdNetwork_unfold σ net0 first)
    by (unfold thresholded; cbn; by rewrite Hf).
  cbn [net0 nodes matrices].
  rewrite length_fmap, length_seq. fold n.
  set (s0 := edgeBuild0 net0). set (s0' := Standalone.SBuild _ _ _ _).
  assert (graphBuilt s0 = sgraphBuilt s0') as H0.
  { unfold graphBuilt, sgraphBuilt, s0, s0', net0. cbn.
    rewrite <- !list_fmap_compose. done. }
  pose proof (foldM_agree (λ t t', graphBuilt t = sgraphBuilt t')
                (edgeStep ms first) (Standalone.edgeStep ms first)
                (pairs n) s0 s0' (edgeStep_agree ms first) H0) as Hagree.
  unfold agree in Hagree |- *.
  destruct (foldM (edgeStep ms first) _ s0) as [s|e],
    (foldM (Standalone.edgeStep ms first) _ s0') as [s'|e'];
    cbn [mbind result_bind setNumClusters with_edges linkage]; try done.
  unfold graphBuilt, sgraphBuilt in Hagree.
  injection Hagree as He Hmin Hmax Hnb Hed Hnm Hix. cbn.
  by repeat split.
Qed.

Lemma foldM_imap_snd {St A} (f : St → A → result St) (g : nat → nat)
    (l : list A) (s : St) :
  foldM (λ s (ir : nat * A), f s ir.2) (imap (λ i x, (g i, x)) l) s
  = foldM f l s.
Proof.
  revert g s. induction l as [|x l IH]; intros g s; [done|]. cbn.
  destruct (f s x) as [t|e]; cbn; [|done]. apply (IH (g ∘ S)).
Qed.

Lemma resolve_agree (s : treeBuild)
    (s' : list Standalone.snode * list Standalone.stree) (id : Z) :
  treeBuiltView s = streeView s' →
  resolve (length (tb_nodes s)) (tb_nodes s) (tb_treeNodes s) id
  = Standalone.resolve s'.1 s'.2 id.
Proof.
  unfold treeBuiltView, streeView. intros [= Hp Hc _ HT].
  assert (length (tb_nodes s) = length s'.1) as Hn.
  { apply (f_equal length) in Hp. by rewrite !length_fmap in Hp. }
  unfold resolve, Standalone.resolve. rewrite <- Hn.
  destruct (id >? _)%Z eqn:Hid.
  - rewrite HT. unfold lookupZ.
    destruct (_ <? 0)%Z; [done|].
    set (k := Z.to_nat _).
    destruct (decide (k < length s'.2)) as [Hk|Hk].
    + rewrite lookup_seq_lt by done.
      apply lookup_lt_is_Some_2 in Hk as [o ->]. done.
    + rewrite lookup_seq_ge by lia.
      by rewrite (proj2 (lookup_ge_None _ _)) by lia.
  - unfold lookupZ. destruct (_ <? 0)%Z; [done|].
    set (k := Z.to_nat _).
    destruct (decide (k < length s'.1)) as [Hk|Hk].
    + pose proof Hk as Hk'. rewrite <- Hn in Hk'.
      apply lookup_lt_is_Some_2 in Hk as [o ->].
      apply lookup_lt_is_Some_2 in Hk' as [o' ->]. done.
    + rewrite (proj2 (lookup_ge_None _ _)) by lia.
      by rewrite (proj2 (lookup_ge_None _ _)) by lia.
Qed.

Lemma set_parent_agree (r : ref) (p : nat) (ns : list node)
    (h : list treeNode) (ns' : list Standalone.snode)
    (ts : list Standalone.stree) :
  node_parent <$> ns = Standalone.snode_parent <$> ns' →
  tree_children <$> h = Standalone.stree_children <$> ts →
  tree_parent <$> h = Standalone.stree_parent <$> ts →
  let s := set_parent r p (ns, h) in
  let s' := Standalone.set_sparent r p (ns', ts) in
  node_parent <$> s.1 = Standalone.snode_parent <$> s'.1
  ∧ tree_children <$> s.2 = Standalone.stree_children <$> s'.2
  ∧ tree_parent <$> s.2 = Standalone.stree_parent <$> s'.2
  ∧ length s.2 = length h ∧ length s.1 = length ns.
Proof.
  intros Hp Hc Ht. destruct r as [i|t]; cbn.
  - rewrite length_alter. split; [|done].
    rewrite (list_fmap_alter node_parent _ (λ _, Some p))
      by (by apply Forall_forall).
    rewrite (list_fmap_alter Standalone.snode_parent _ (λ _, Some p))
      by (by apply Forall_forall).
    by rewrite Hp.
  - split; [done|]. rewrite length_alter. split; [|split; [|done]].
    + rewrite !fmap_alter_same by done. done.
    + rewrite (list_fmap_alter tree_parent _ (λ _, Some p))
        by (by apply Forall_forall).
      rewrite (list_fmap_alter Standalone.stree_parent _ (λ _, Some p))
        by (by apply Forall_forall).
      by rewrite Ht.
Qed.

Lemma linkStep_agree (numNodes : nat) (s : treeBuild)
    (s' : list Standalone.snode * list Standalone.stree)
    (ir : nat * linkageRow) :
  treeBuiltView s = streeView s' ∧ length (tb_nodes s) = numNodes →
  agree (λ t t', treeBuiltView t = streeView t'
                 ∧ length (tb_nodes t) = numNodes)
        (linkStep numNodes s ir) (Standalone.linkStep s' ir.2).
Proof.
  intros [HR Hn]. destruct ir as [i row]. cbn [snd].
  unfold linkStep, Standalone.linkStep.
  rewrite <- !(resolve_agree s s') by done. rewrite Hn.
  destruct (resolve numNodes _ _ (link_left row)) as [L|]; cbn; [|done].
  destruct (resolve numNodes _ _ (link_right row)) as [R|]; cbn; [|done].
  unfold treeBuiltView, streeView in HR. injection HR as Hp Hc Ht HT.
  assert (length (tb_heap s) = length s'.2) as Hh.
  { apply (f_equal length) in Hc. by rewrite !length_fmap in Hc. }
  rewrite <- Hh. destruct s' as [ns' ts]. cbn [fst snd] in *.
  pose proof (set_parent_agree L (length (tb_heap s)) _ _ _ _ Hp Hc Ht)
    as (Hp1 & Hc1 & Ht1 & Hl1 & Hn1).
  cbn zeta in *.
  destruct (set_parent L _ _) as [ns1 h1].
  destruct (Standalone.set_sparent L _ _) as [ns1' ts1]. cbn [fst snd] in *.
  pose proof (set_parent_agree R (length (tb_heap s)) _ _ _ _ Hp1 Hc1 Ht1)
    as (Hp2 & Hc2 & Ht2 & Hl2 & Hn2).
  cbn zeta in *.
  destruct (set_parent R _ _) as [ns2 h2].
  destruct (Standalone.set_sparent R _ _) as [ns2' ts2]. cbn [fst snd] in *.
  split; [|cbn; congruence].
  unfold treeBuiltView, streeView. cbn.
  rewrite !fmap_app, Hp2, Hc2, Ht2, HT. cbn.
  do 3 f_equal.
  assert (length ts2 = length ts) as Hts.
  { apply (f_equal length) in Hc2. rewrite !length_fmap in Hc2. lia. }
  rewrite length_app, Hts. cbn. rewrite Nat.add_1_r, seq_S. by rewrite Hh.
Qed.

(** X24.  The stand-alone [networkToTree] and
    [makeNetworkDendrogramTree] agree.  On the same linkage table and
    nodes with the same parents, the two either both fail, in the
    same way, or both return, and then the parents of the nodes and
    the children and parents of the tree nodes are the same, tree node
    by tree node. *)
Theorem networkToTree_makeNetworkDendrogramTree (old : Standalone.snetwork)
    (net : network) (l : list linkageRow) :
  Standalone.snode_parent <$> Standalone.snodes old
  = node_parent <$> nodes net →
  heap net = [] →
  agree (λ old' net',
           Standalone.snode_parent <$> Standalone.snodes old'
           = node_parent <$> nodes net'
           ∧ Standalone.stree_children <$> Standalone.streeNodes old'
             = tree_children <$> heap net'
           ∧ Standalone.stree_parent <$> Standalone.streeNodes old'
             = tree_parent <$> heap net'
           ∧ treeNodes net' = seq 0 (length (heap net')))
        (Standalone.networkToTree old l) (makeNetworkDendrogramTree net l).
Proof.
  intros Hp Hh. unfold Standalone.networkToTree, makeNetworkDendrogramTree.
  rewrite Hh.
  rewrite <- (foldM_imap_snd Standalone.linkStep id l).
  assert (treeBuiltView (TreeBuild (nodes net) [] [])
          = streeView (Standalone.snodes old, [])
          ∧ length (tb_nodes (TreeBuild (nodes net) [] []))
            = length (nodes net)) as H0.
  { split; [|done]. unfold treeBuiltView, streeView. cbn. by rewrite Hp. }
  pose proof (foldM_agree
    (λ t t', treeBuiltView t = streeView t'
             ∧ length (tb_nodes t) = length (nodes net))
    (linkStep (length (nodes net)))
    (λ s (ir : nat * linkageRow), Standalone.linkStep s ir.2)
    (imap pair l) (TreeBuild (nodes net) [] []) (Standalone.snodes old, [])
    (linkStep_agree (length (nodes net))) H0) as Hagree.
  unfold agree in Hagree |- *.
  change (imap (λ i x, (id i, x)) l) with (imap pair l).
  destruct (foldM (linkStep _) _ _) as [s|e], (foldM _ (imap pair l) _)
    as [s'|e']; cbn [mbind result_bind]; try done.
  destruct Hagree as [HR _].
  unfold treeBuiltView, streeView in HR. injection HR as H1 H2 H3 H4.
  cbn. repeat split; try done.
  rewrite H4. f_equal. apply (f_equal length) in H2.
  by rewrite !length_fmap in H2.
Qed.

Lemma networkToTree_makeNetworkDendrogramTree_witness :
  agree (λ old' net',
           Standalone.snode_parent <$> Standalone.snodes old'
           = node_parent <$> nodes net'
           ∧ Standalone.stree_children <$> Standalone.streeNodes old'
             = tree_children <$> heap net'
           ∧ Standalone.stree_parent <$> Standalone.streeNodes old'
             = tree_parent <$> heap net'
           ∧ treeNodes net' = seq 0 (length (heap net')))
        (Standalone.networkToTree exampleStandalone exampleLinkage)
        (makeNetworkDendrogramTree exampleFourNodes exampleLinkage).
Proof.
  apply (networkToTree_makeNetworkDendrogramTree exampleStandalone
           exampleFourNodes exampleLinkage); reflexivity.
Defined.

Lemma lessThan_abs_NaN (x : val) : lessThan (absval (Some NaN)) x = false.
Proof.
  unfold lessThan, absval, Math_abs. cbn [num].
  destruct (PrimFloat.ltb _ _) eqn:H; [|done].
  by apply ltb_not_nan in H as [? _].
Qed.

(** X25.  [thresholdMatrix] at 75 percent is the row-wise thresholding
    of the stand-alone script followed by one more pass: an entry
    that the script's loop has left is suppressed as well when it lies
    under the threshold of the row its column number names.  This
    holds for matrices with no row longer than the number of rows. *)
Theorem thresholdMatrix_thresholdRows (m : matrix) :
  Forall (λ row, length row ≤ length m) m →
  thresholdMatrix (Some m) (Some [JNum 0.75%float])
  = Ok (imap (λ _ row,
          imap (λ j v, if lessThan (absval v) (rowThres m 0.75%float j)
                       then Some NaN else v) row)
          (Standalone.thresholdRows m)).
Proof.
  intros Hm. rewrite thresholdMatrix_total. f_equal.
  apply list_eq. intros i. unfold Standalone.thresholdRows.
  rewrite !list_lookup_imap, list_lookup_fmap.
  destruct (m !! i) as [row|] eqn:Hrow; [|done].
  cbn [fmap option_fmap option_map]. f_equal.
  apply list_eq. intros j. unfold Standalone.thresholdRow.
  rewrite !list_lookup_imap.
  destruct (row !! j) as [v|] eqn:Hv; [|done].
  cbn [fmap option_fmap option_map]. f_equal.
  assert (j < length m) as Hj.
  { rewrite Forall_forall in Hm.
    specialize (Hm row (list_elem_of_lookup_2 _ _ _ Hrow)).
    apply lookup_lt_Some in Hv. lia. }
  replace (j <? length m) with true by (symmetry; by apply Nat.ltb_lt).
  cbn [andb]. unfold thresholdCell, suppresses.
  rewrite list_lookup_fmap, Hrow. cbn [fmap option_fmap option_map].
  unfold rowThres, rowMax.
  destruct (lessThan (Some (Math_abs v)) (Some _)) eqn:Hi; cbn [orb].
  - by rewrite lessThan_abs_NaN.
  - unfold absval. by rewrite list_lookup_fmap.
Qed.

Lemma thresholdMatrix_thresholdRows_witness :
  thresholdMatrix (Some exampleFour) (Some [JNum 0.75%float])
  = Ok (imap (λ _ row,
          imap (λ j v, if lessThan (absval v)
                            (rowThres exampleFour 0.75%float j)
                       then Some NaN else v) row)
          (Standalone.thresholdRows exampleFour)).
Proof.
  apply (thresholdMatrix_thresholdRows exampleFour).
  repeat constructor.
Defined.

Lemma merge_sort_two (a b : nat) :
  merge_sort (≤) [a; b] = [Nat.min a b; Nat.max a b].
Proof.
  unfold merge_sort. cbn. case_decide.
  - by rewrite Nat.min_l, Nat.max_r by lia.
  - by rewrite Nat.min_r, Nat.max_l by lia.
Qed.

(** X26.  [edgeId] gives "edge-X-Y" for the indices [X <= Y] of the
    two ends of the path, whichever end comes first: a path and its
    reverse have the same id.  On the empty path it fails with a
    TypeError. *)
Theorem edgeId_ends (path : list nat) :
  Standalone.edgeId path
  = match head path, last path with
    | Some first, Some last =>
        Ok ("edge-" +:+ pretty (Nat.min first last) +:+ "-"
            +:+ pretty (Nat.max first last))
    | _, _ => Err TypeError
    end
  ∧ Standalone.edgeId (reverse path) = Standalone.edgeId path.
Proof.
  assert (∀ p, Standalone.edgeId p
               = match head p, last p with
                 | Some first, Some last =>
                     Ok ("edge-" +:+ pretty (Nat.min first last) +:+ "-"
                         +:+ pretty (Nat.max first last))
                 | _, _ => Err TypeError
                 end) as H.
  { intros p. unfold Standalone.edgeId.
    replace (length p - 1) with (pred (length p)) by lia.
    rewrite <- head_lookup, <- last_lookup.
    destruct (head p) as [a|]; cbn [deref mbind result_bind]; [|done].
    destruct (last p) as [b|]; cbn [deref mbind result_bind]; [|done].
    by rewrite merge_sort_two. }
  split; [apply H|]. rewrite !H, head_reverse, last_reverse.
  destruct (head path) as [a|] eqn:Ha, (last path) as [b|] eqn:Hb; try done.
  by rewrite Nat.min_comm, Nat.max_comm.
Qed.

(** ** Reductions, one after another *)






